(** * Halpern–Pearl causes: a shallow embedding of [causal_explainer.halpern_pearl.causes]

    The development follows the Python module function by function.

    - A [Variable] is identified with its [symbol] (equality, hashing and
      ordering of the class only look at the symbol), a string.
    - Values are opaque to the engine, which only compares them: integers.
    - A Python [dict] from variables to values is a [gmap string Z]; a
      Python [set] is a [gset].  The iteration order of a map is the one of
      [map_to_list]; no statement below depends on it.
    - Exceptions are explicit: a call returns [Ok v] or [Raise e].
    - A generator is the trace of what it yields, ended by a normal stop or
      by the exception that escapes from it. *)

From stdpp Require Import gmap strings list sorting.

Abbreviation variable := string (only parsing).
Abbreviation value := Z (only parsing).
Abbreviation dict := (gmap string Z) (only parsing).
Abbreviation domains := (gmap string (gset Z)) (only parsing).

(** ** Exceptions *)

Inductive exn : Set :=
| AssertionError
| KeyError
| NetworkXUnfeasible.

Inductive result (A : Type) : Type :=
| Ok (a : A)
| Raise (e : exn).
Arguments Ok {A} a.
Arguments Raise {A} e.

#[global] Instance result_ret : MRet result := fun A a => Ok a.
#[global] Instance result_bind : MBind result := fun A B k m =>
  match m with
  | Ok a => k a
  | Raise e => Raise e
  end.

#[global] Instance exn_eq_dec : EqDecision exn.
Proof. solve_decision. Defined.

(** [assert b] *)
Definition assert (b : bool) : result unit :=
  if b then Ok tt else Raise AssertionError.

(** [d[k]] on a dict *)
Definition getitem {V : Type} (d : gmap string V) (k : string) : result V :=
  match d !! k with
  | Some v => Ok v
  | None => Raise KeyError
  end.

(** ** Generators *)

Inductive generator (A : Type) : Type :=
| StopIteration
| Yield (a : A) (rest : generator A)
| Throw (e : exn).
Arguments StopIteration {A}.
Arguments Yield {A} a rest.
Arguments Throw {A} e.

(** a generator that yields the elements of a list and stops *)
Fixpoint yield_all {A} (l : list A) (rest : generator A) : generator A :=
  match l with
  | [] => rest
  | a :: l' => Yield a (yield_all l' rest)
  end.

(** [yield from g; rest] *)
Fixpoint yield_from {A} (g rest : generator A) : generator A :=
  match g with
  | StopIteration => rest
  | Yield a g' => Yield a (yield_from g' rest)
  | Throw e => Throw e
  end.

(** the values yielded before the generator ends *)
Fixpoint yielded {A} (g : generator A) : list A :=
  match g with
  | Yield a g' => a :: yielded g'
  | _ => []
  end.

(** how the generator ends *)
Fixpoint ending {A} (g : generator A) : result unit :=
  match g with
  | StopIteration => Ok tt
  | Yield _ g' => ending g'
  | Throw e => Raise e
  end.

(** ** The graph library (networkx)

    [DiGraph] is only built with [add_edge]; such a graph is determined by
    the sequence of its distinct edges in insertion order: the nodes are
    the endpoints in order of first appearance, and the successors and
    predecessors of a node are listed in the order their edges came. *)

Module NX.

Abbreviation DiGraph := (list (string * string)) (only parsing).

Definition empty : DiGraph := [].

Definition add_edge (u v : string) (g : DiGraph) : DiGraph :=
  if decide ((u, v) ∈ g) then g else g ++ [(u, v)].

Definition add_node (acc : list string) (x : string) : list string :=
  if decide (x ∈ acc) then acc else acc ++ [x].

Definition nodes (g : DiGraph) : list string :=
  foldl (fun acc e => add_node (add_node acc e.1) e.2) [] g.

Definition predecessors (g : DiGraph) (v : string) : list string :=
  (filter (fun e => e.2 = v) g).*1.

Definition successors (g : DiGraph) (u : string) : list string :=
  (filter (fun e => e.1 = u) g).*2.

Definition in_degree (g : DiGraph) : list (string * nat) :=
  (fun v => (v, length (predecessors g v))) <$> nodes g.

(** One step of the inner loop of [topological_generations]:
    [indegree_map[child] -= 1], and the child moves to [zero_indegree]
    when its count reaches zero.  A child missing from the map would mean
    that the graph changed during the iteration, which cannot happen
    here: the state is then left as it is. *)
Definition relax (st : gmap string nat * list string) (child : string)
  : gmap string nat * list string :=
  match st.1 !! child with
  | Some d =>
      if decide (pred d = 0%nat)
      then (delete child st.1, st.2 ++ [child])
      else (<[child := pred d]> st.1, st.2)
  | None => st
  end.

Definition relax_node (g : DiGraph) (st : gmap string nat * list string)
  (node : string) : gmap string nat * list string :=
  foldl relax st (successors g node).

(** [topological_generations], with the generations yielded flattened as
    [topological_sort] does.  The fuel bounds the number of non-empty
    generations; [length (nodes g)] is enough (lemma [generations_fuel]). *)
Fixpoint generations (fuel : nat) (g : DiGraph)
  (indegree_map : gmap string nat) (zero_indegree : list string)
  : generator string :=
  match zero_indegree with
  | [] =>
      if decide (indegree_map = ∅) then StopIteration
      else Throw NetworkXUnfeasible
  | _ =>
      match fuel with
      | O => Throw NetworkXUnfeasible
      | S fuel' =>
          let this_generation := zero_indegree in
          let st := foldl (relax_node g) (indegree_map, []) this_generation in
          yield_all this_generation (generations fuel' g st.1 st.2)
      end
  end.

Definition topological_sort (g : DiGraph) : generator string :=
  let indegree_map : gmap string nat :=
    list_to_map (filter (fun vd => vd.2 ≠ 0%nat) (in_degree g)) in
  let zero_indegree := (filter (fun vd => vd.2 = 0%nat) (in_degree g)).*1 in
  generations (length (nodes g)) g indegree_map zero_indegree.

End NX.

(** ** Helpers of [causal_explainer.utils] and of [itertools] *)

(** [itertools.combinations(l, r)] *)
Fixpoint combinations {A} (l : list A) (r : nat) : list (list A) :=
  match r, l with
  | O, _ => [[]]
  | S _, [] => []
  | S r', x :: l' => (cons x <$> combinations l' r') ++ combinations l' r
  end.

(** Modelled from the spec: [causal_explainer.utils.powerset] is not part of
    the sources at hand.  The spec enumerates "subsets by ascending size,
    then lexicographic" in the order of the given sequence. *)
Definition powerset {A} (l : list A) : list (list A) :=
  l' ← seq 0 (S (length l)); combinations l l'.

(** Modelled from the spec: [causal_explainer.utils.powerdict] is not part
    of the sources at hand.  It yields the restriction of the dict to every
    subset of its keys ("for each subset [W] ... taking [w] to be the actual
    values [S.values|_W]"; "strict non-empty subset [X' ⊊ X]"). *)
Definition powerdict (d : dict) : list dict :=
  list_to_map <$> powerset (map_to_list d).

(** [itertools.product] of a list of lists: the rightmost position varies
    fastest *)
Fixpoint product {A} (ls : list (list A)) : list (list A) :=
  match ls with
  | [] => [[]]
  | l :: ls' => x ← l; (cons x <$> product ls')
  end.

(** [sorted] on variables *)
Definition sorted (l : list string) : list string := merge_sort String.le l.

(** ** Events *)

Inductive Event : Type :=
| PrimitiveEvent (variable : string) (value : Z)
| Negation (child : Event)
| Conjunction (left_child right_child : Event)
| Disjunction (left_child right_child : Event).

Fixpoint Event_variables (e : Event) : gset string :=
  match e with
  | PrimitiveEvent variable _ => {[ variable ]}
  | Negation child => Event_variables child
  | Conjunction l r => Event_variables l ∪ Event_variables r
  | Disjunction l r => Event_variables l ∪ Event_variables r
  end.

(** [assignments2conjunction]: [popitem] takes the items from the last one
    backwards, and each becomes the left child of what was built so far. *)
Fixpoint assignments2conjunction_pop (popped : list (string * Z))
  (right_child : Event) : Event :=
  match popped with
  | [] => right_child
  | (variable, value) :: remainder =>
      assignments2conjunction_pop remainder
        (Conjunction (PrimitiveEvent variable value) right_child)
  end.

Definition assignments2conjunction (assignments : dict) : result Event :=
  match reverse (map_to_list assignments) with
  | [] => Raise AssertionError
  | (variable, value) :: remainder =>
      Ok (assignments2conjunction_pop remainder (PrimitiveEvent variable value))
  end.

(** ** Causal networks *)

Record CausalNetwork : Type := {
  graph : NX.DiGraph;
  structural_equations : gmap string (dict → result Z);
  endogenous_bindings : dict
}.

Definition CausalNetwork_init : CausalNetwork :=
  {| graph := NX.empty; structural_equations := ∅; endogenous_bindings := ∅ |}.

Definition add_dependency (N : CausalNetwork) (endogenous_variable : string)
  (parents : list string) (structural_equation : dict → result Z)
  : CausalNetwork :=
  {| graph :=
       foldl (fun g parent_variable =>
                NX.add_edge parent_variable endogenous_variable g)
             (graph N) parents;
     structural_equations :=
       <[endogenous_variable := structural_equation]> (structural_equations N);
     endogenous_bindings := endogenous_bindings N |}.

Definition signature (N : CausalNetwork) : gset string * gset string :=
  let in_degrees := NX.in_degree (graph N) in
  (list_to_set (filter (fun vd => vd.2 = 0%nat) in_degrees).*1,
   list_to_set (filter (fun vd => vd.2 ≠ 0%nat) in_degrees).*1).

Definition structural_equation (N : CausalNetwork) (variable : string)
  (parent_values : dict) : result Z :=
  match endogenous_bindings N !! variable with
  | Some pinned => Ok pinned
  | None => f ← getitem (structural_equations N) variable; f parent_values
  end.

Fixpoint evaluate_loop (N : CausalNetwork) (values : dict)
  (order : generator string) : result dict :=
  match order with
  | StopIteration => Ok values
  | Throw e => Raise e
  | Yield variable rest =>
      match values !! variable with
      | Some _ => evaluate_loop N values rest
      | None =>
          v ← structural_equation N variable values;
          evaluate_loop N (<[variable := v]> values) rest
      end
  end.

Definition evaluate (N : CausalNetwork) (context : dict) : result dict :=
  values ← evaluate_loop N context (NX.topological_sort (graph N));
  Ok (filter (fun kv => context !! kv.1 = None) values).

Fixpoint intervene_loop (N new_causal_network : CausalNetwork)
  (endogenous_variables : list string) : result CausalNetwork :=
  match endogenous_variables with
  | [] => Ok new_causal_network
  | variable :: rest =>
      f ← getitem (structural_equations N) variable;
      intervene_loop N
        (add_dependency new_causal_network variable
           (NX.predecessors (graph N) variable) f)
        rest
  end.

Definition intervene (N : CausalNetwork) (intervention : dict)
  : result CausalNetwork :=
  let endogenous_variables := (signature N).2 in
  new_causal_network ←
    intervene_loop N CausalNetwork_init (elements endogenous_variables);
  Ok {| graph := graph new_causal_network;
        structural_equations := structural_equations new_causal_network;
        endogenous_bindings :=
          foldl (fun b kv => <[kv.1 := kv.2]> b)
                (endogenous_bindings new_causal_network)
                (map_to_list intervention) |}.

(** ** Causal settings *)

Record CausalSetting : Type := {
  causal_network : CausalNetwork;
  context : dict;
  exogenous_domains : gmap string (gset Z);
  endogenous_domains : gmap string (gset Z);
  derived_values : dict;
  values : dict
}.

(** [all(vals[v] in domain for v, domain in doms.items())] *)
Fixpoint all_in_domain (vals : dict) (items : list (string * gset Z))
  : result bool :=
  match items with
  | [] => Ok true
  | (v, domain) :: rest =>
      x ← getitem vals v;
      if decide (x ∈ domain) then all_in_domain vals rest else Ok false
  end.

(** [CausalSetting.__init__] *)
Definition CausalSetting_init (N : CausalNetwork) (context : dict)
  (exogenous_domains endogenous_domains : gmap string (gset Z))
  : result CausalSetting :=
  let '(exogenous_variables, endogenous_variables) := signature N in
  assert (bool_decide (exogenous_variables = dom context));;
  assert (bool_decide (exogenous_variables = dom exogenous_domains));;
  assert (bool_decide (endogenous_variables = dom endogenous_domains));;
  ok_context ← all_in_domain context (map_to_list exogenous_domains);
  assert ok_context;;
  derived_values ← evaluate N context;
  let values := derived_values ∪ context in
  ok_values ← all_in_domain values (map_to_list endogenous_domains);
  assert ok_values;;
  Ok {| causal_network := N;
        context := context;
        exogenous_domains := exogenous_domains;
        endogenous_domains := endogenous_domains;
        derived_values := derived_values;
        values := values |}.

Fixpoint Event_entailed_by (e : Event) (S : CausalSetting) : result bool :=
  match e with
  | PrimitiveEvent variable value =>
      x ← getitem (values S) variable; Ok (bool_decide (x = value))
  | Negation child =>
      b ← Event_entailed_by child S; Ok (negb b)
  | Conjunction l r =>
      b ← Event_entailed_by l S;
      if (b : bool) then Event_entailed_by r S else Ok false
  | Disjunction l r =>
      b ← Event_entailed_by l S;
      if (b : bool) then Ok true else Event_entailed_by r S
  end.

(** ** Causal formulas *)

Record CausalFormula : Type := {
  intervention : dict;
  event : Event
}.

Definition CausalFormula_entailed_by (phi : CausalFormula) (S : CausalSetting)
  : result bool :=
  new_causal_network ← intervene (causal_network S) (intervention phi);
  new_causal_setting ←
    CausalSetting_init new_causal_network (context S)
      (exogenous_domains S) (endogenous_domains S);
  Event_entailed_by (event phi) new_causal_setting.

(** ** Actual causes *)

Definition satisfies_ac1 (candidate : dict) (event : Event) (S : CausalSetting)
  : result bool :=
  if decide (candidate = ∅) then Ok false else
  conjunction ← assignments2conjunction candidate;
  holds ← Event_entailed_by conjunction S;
  if negb holds then Ok false else
  holds ← Event_entailed_by event S;
  if negb holds then Ok false else Ok true.

(** [{variable: values[variable] for variable in keys}] *)
Fixpoint restrict_values (vals : dict) (keys : list string) : result dict :=
  match keys with
  | [] => Ok ∅
  | variable :: rest =>
      x ← getitem vals variable;
      d ← restrict_values vals rest;
      Ok (<[variable := x]> d)
  end.

(** [[domains[variable] - {x[variable]} for variable in variables]] *)
Fixpoint remaining_domains (doms : gmap string (gset Z)) (x : dict)
  (variables : list string) : result (list (list Z)) :=
  match variables with
  | [] => Ok []
  | variable :: rest =>
      domain ← getitem doms variable;
      actual ← getitem x variable;
      ds ← remaining_domains doms x rest;
      Ok (elements (domain ∖ {[ actual ]}) :: ds)
  end.

(** a loop that tests the items of a list and yields those that pass *)
Fixpoint yield_if {A} (test : A → result bool) (l : list A) : generator A :=
  match l with
  | [] => StopIteration
  | a :: l' =>
      match test a with
      | Raise e => Throw e
      | Ok true => Yield a (yield_if test l')
      | Ok false => yield_if test l'
      end
  end.

(** the interventions [{**x_prime, **w}] that [find_witnesses_ac2] tries,
    in the order of its two nested loops *)
Definition witness_candidates (x_variables_tuple : list string)
  (x_domains_tuple : list (list Z)) (all_w : dict) : list dict :=
  x_prime_values_tuple ← product x_domains_tuple;
  let x_prime : dict := list_to_map (zip x_variables_tuple x_prime_values_tuple) in
  w ← powerdict all_w;
  [w ∪ x_prime].

Definition find_witnesses_ac2 (candidate : dict) (event : Event)
  (S : CausalSetting) : generator dict :=
  let prepared :=
    x ← restrict_values (values S) (map_to_list candidate).*1;
    all_w ← restrict_values (values S)
              (elements (dom (endogenous_domains S) ∖ dom candidate));
    let x_variables_tuple := sorted (map_to_list x).*1 in
    x_domains_tuple ←
      remaining_domains (endogenous_domains S) x x_variables_tuple;
    Ok (x_variables_tuple, x_domains_tuple, all_w) in
  match prepared with
  | Raise e => Throw e
  | Ok (x_variables_tuple, x_domains_tuple, all_w) =>
      yield_if
        (fun witness =>
           CausalFormula_entailed_by
             {| intervention := witness; event := Negation event |} S)
        (witness_candidates x_variables_tuple x_domains_tuple all_w)
  end.

Definition satisfies_ac2 (candidate : dict) (event : Event) (S : CausalSetting)
  : result bool :=
  if decide (candidate = ∅) then Ok false else
  match find_witnesses_ac2 candidate event S with
  | Yield _ _ => Ok true
  | StopIteration => Ok false
  | Throw e => Raise e
  end.

Definition is_weak_actual_cause (candidate : dict) (event : Event)
  (S : CausalSetting) : result bool :=
  ac1 ← satisfies_ac1 candidate event S;
  if negb ac1 then Ok false else
  ac2 ← satisfies_ac2 candidate event S;
  if negb ac2 then Ok false else Ok true.

Fixpoint satisfies_ac3_loop (candidate : dict) (event : Event)
  (S : CausalSetting) (subsets : list dict) : result bool :=
  match subsets with
  | [] => Ok true
  | subset_candidate :: rest =>
      if decide (subset_candidate ≠ candidate) then
        weak ← is_weak_actual_cause subset_candidate event S;
        if (weak : bool) then Ok false
        else satisfies_ac3_loop candidate event S rest
      else satisfies_ac3_loop candidate event S rest
  end.

Definition satisfies_ac3 (candidate : dict) (event : Event) (S : CausalSetting)
  : result bool :=
  satisfies_ac3_loop candidate event S (powerdict candidate).

Definition is_actual_cause (candidate : dict) (event : Event)
  (S : CausalSetting) : result bool :=
  weak ← is_weak_actual_cause candidate event S;
  if negb weak then Ok false else
  ac3 ← satisfies_ac3 candidate event S;
  if negb ac3 then Ok false else Ok true.

(** ** Enumeration of assignments *)

Fixpoint getitems {V} (d : gmap string V) (keys : list string)
  : result (list V) :=
  match keys with
  | [] => Ok []
  | k :: rest => v ← getitem d k; vs ← getitems d rest; Ok (v :: vs)
  end.

Definition find_exact_assignments (doms : gmap string (gset Z))
  (variables : list string) : generator dict :=
  if decide (variables = []) then Throw AssertionError else
  let variables_tuple := sorted variables in
  match getitems doms variables_tuple with
  | Raise e => Throw e
  | Ok domains_tuple =>
      yield_all
        ((fun values_tuple => list_to_map (zip variables_tuple values_tuple))
           <$> product (elements <$> domains_tuple))
        StopIteration
  end.

Fixpoint find_all_assignments_loop (doms : gmap string (gset Z))
  (subsets : list (list string)) : generator dict :=
  match subsets with
  | [] => StopIteration
  | variables :: rest =>
      if decide (variables = [])
      then find_all_assignments_loop doms rest
      else yield_from (find_exact_assignments doms variables)
                      (find_all_assignments_loop doms rest)
  end.

Definition find_all_assignments (doms : gmap string (gset Z)) : generator dict :=
  find_all_assignments_loop doms (powerset (map_to_list doms).*1).

Fixpoint search_loop (condition : dict → result bool)
  (candidates : generator dict) : generator dict :=
  match candidates with
  | StopIteration => StopIteration
  | Throw e => Throw e
  | Yield candidate rest =>
      match condition candidate with
      | Raise e => Throw e
      | Ok true => Yield candidate (search_loop condition rest)
      | Ok false => search_loop condition rest
      end
  end.

Definition search_candidate_causes (event : Event) (S : CausalSetting)
  (condition : dict → Event → CausalSetting → result bool) : generator dict :=
  search_loop (fun candidate => condition candidate event S)
    (find_all_assignments (endogenous_domains S)).

(** ** Sufficient causes *)

Definition satisfies_sc1 (candidate : dict) (event : Event) (S : CausalSetting)
  : result bool :=
  conjunction ← assignments2conjunction candidate;
  holds ← Event_entailed_by conjunction S;
  if negb holds then Ok false else
  holds ← Event_entailed_by event S;
  if negb holds then Ok false else Ok true.

Fixpoint satisfies_sc2_loop (candidate : dict) (actual_causes : generator dict)
  : result bool :=
  match actual_causes with
  | StopIteration => Ok false
  | Throw e => Raise e
  | Yield actual_cause rest =>
      if existsb
           (fun kv => bool_decide (actual_cause !! kv.1 = Some kv.2))
           (map_to_list candidate)
      then Ok true
      else satisfies_sc2_loop candidate rest
  end.

Definition satisfies_sc2 (candidate : dict) (event : Event) (S : CausalSetting)
  : result bool :=
  satisfies_sc2_loop candidate
    (search_candidate_causes event S is_actual_cause).

Fixpoint satisfies_sc3_loop (candidate : dict) (event : Event)
  (S : CausalSetting) (contexts : generator dict) : result bool :=
  match contexts with
  | StopIteration => Ok true
  | Throw e => Raise e
  | Yield context_prime rest =>
      S' ← CausalSetting_init (causal_network S) context_prime
             (exogenous_domains S) (endogenous_domains S);
      holds ← CausalFormula_entailed_by
                {| intervention := candidate; event := event |} S';
      if negb holds then Ok false
      else satisfies_sc3_loop candidate event S rest
  end.

Definition satisfies_sc3 (candidate : dict) (event : Event) (S : CausalSetting)
  : result bool :=
  satisfies_sc3_loop candidate event S
    (find_exact_assignments (exogenous_domains S)
       (map_to_list (exogenous_domains S)).*1).

Definition is_weak_sufficient_cause (candidate : dict) (event : Event)
  (S : CausalSetting) : result bool :=
  sc1 ← satisfies_sc1 candidate event S;
  if negb sc1 then Ok false else
  sc2 ← satisfies_sc2 candidate event S;
  if negb sc2 then Ok false else
  sc3 ← satisfies_sc3 candidate event S;
  if negb sc3 then Ok false else Ok true.

Fixpoint satisfies_sc4_loop (candidate : dict) (event : Event)
  (S : CausalSetting) (subsets : list dict) : result bool :=
  match subsets with
  | [] => Ok true
  | subset_candidate :: rest =>
      if decide (subset_candidate ≠ ∅ ∧ subset_candidate ≠ candidate) then
        weak ← is_weak_sufficient_cause subset_candidate event S;
        if (weak : bool) then Ok false
        else satisfies_sc4_loop candidate event S rest
      else satisfies_sc4_loop candidate event S rest
  end.

Definition satisfies_sc4 (candidate : dict) (event : Event) (S : CausalSetting)
  : result bool :=
  satisfies_sc4_loop candidate event S (powerdict candidate).

Definition is_sufficient_cause (candidate : dict) (event : Event)
  (S : CausalSetting) : result bool :=
  weak ← is_weak_sufficient_cause candidate event S;
  if negb weak then Ok false else
  sc4 ← satisfies_sc4 candidate event S;
  if negb sc4 then Ok false else Ok true.

(** ** Notions used to state the properties *)

(** the variable of the first primitive event that evaluation meets *)
Fixpoint first_variable (e : Event) : string :=
  match e with
  | PrimitiveEvent variable _ => variable
  | Negation child => first_variable child
  | Conjunction l _ => first_variable l
  | Disjunction l _ => first_variable l
  end.

(** the edge relation of a graph, and what it is to have no cycle *)
Definition edge (g : NX.DiGraph) (u v : string) : Prop := (u, v) ∈ g.

Definition acyclic (g : NX.DiGraph) : Prop := ∀ v, ¬ tc (edge g) v v.

(** [l] lists every node once and every edge goes forward in it *)
Definition topological_order (g : NX.DiGraph) (l : list string) : Prop :=
  l ≡ₚ NX.nodes g
  ∧ ∀ u v j, (u, v) ∈ g → l !! j = Some v →
             ∃ i, (i < j)%nat ∧ l !! i = Some u.

(** *** The invariant of Kahn's algorithm

    [unprocessed g D v] counts the edges into [v] whose source is not in
    [D]; [occurrences v l] counts [v] in [l]. *)
Definition unprocessed (g : NX.DiGraph) (D : list string) (v : string) : nat :=
  length (filter (fun e => e.2 = v ∧ e.1 ∉ D) g).

Definition occurrences (v : string) (l : list string) : nat :=
  length (filter (fun x => x = v) l).

(** [D]: the nodes whose out-edges have been (or are being) relaxed, in
    order; [P]: the nodes known to have in-degree zero and still waiting;
    [im]: the in-degree map; [rem]: the children of the last node of [D]
    that are still to be relaxed. *)
Record kahn_inv (g : NX.DiGraph) (D P : list string) (im : gmap string nat)
  (rem : list string) : Prop := {
  kahn_nodup : NoDup (D ++ P);
  kahn_nodes : ∀ v, v ∈ NX.nodes g ↔ v ∈ D ∨ v ∈ P ∨ is_Some (im !! v);
  kahn_fresh : ∀ v, is_Some (im !! v) → (v ∉ D) ∧ (v ∉ P);
  kahn_count : ∀ v d, im !! v = Some d →
                      d = (unprocessed g D v + occurrences v rem)%nat
                      ∧ (0 < d)%nat;
  kahn_zero : ∀ v, v ∈ D ∨ v ∈ P →
                   (unprocessed g D v + occurrences v rem)%nat = 0%nat;
  kahn_rem : ∀ w, w ∈ rem → w ∈ NX.nodes g
}.

(** every node of [D] comes after its predecessors *)
Definition after_predecessors (g : NX.DiGraph) (D : list string) : Prop :=
  ∀ u v j, (u, v) ∈ g → D !! j = Some v → ∃ i, (i < j)%nat ∧ D !! i = Some u.

(** what the generator of the remaining generations does, given the
    nodes [D] yielded so far *)
Definition generations_spec (g : NX.DiGraph) (D : list string)
  (G : generator string) : Prop :=
  after_predecessors g (D ++ yielded G)
  ∧ NoDup (D ++ yielded G)
  ∧ (∀ v, v ∈ D ++ yielded G → v ∈ NX.nodes g)
  ∧ (ending G = Ok tt → ∀ v, v ∈ NX.nodes g → v ∈ D ++ yielded G)
  ∧ (∀ e, ending G = Raise e → e = NetworkXUnfeasible).

(** the values at hand when the variable at position [j] of [order] is
    evaluated: those of the context and of the variables that come before
    it, out of the final valuation *)
Definition values_before (context : dict) (order : list string) (j : nat)
  (final : dict) : dict :=
  filter (fun kv => kv.1 ∈ dom context ∨ kv.1 ∈ take j order) final.

(** the values of the parents of a variable, out of a valuation *)
Definition parent_values_of (g : NX.DiGraph) (variable : string)
  (vals : dict) : dict :=
  filter (fun kv => kv.1 ∈ NX.predecessors g variable) vals.

(** the restriction of a valuation to a set of variables *)
Definition restricted_to (W : gset string) (vals : dict) : dict :=
  filter (fun kv => kv.1 ∈ W) vals.

(** [x'] assigns to every variable of the candidate [X] a value of its
    endogenous domain other than the value [reference] gives it *)
Definition alternative_to (reference : dict) (doms : gmap string (gset Z))
  (X x' : dict) : Prop :=
  dom x' = dom X
  ∧ ∀ V v, x' !! V = Some v →
           ∃ D a, doms !! V = Some D ∧ reference !! V = Some a
                  ∧ v ∈ D ∧ v ≠ a.

(** [(x', W)] is a witness of AC2, where the alternative values are
    measured against [reference]: the formula [[x' ∪ w] ¬e] holds in [S]
    for [w] the values of [S] on [W] *)
Definition ac2_witness (reference : dict) (X : dict) (e : Event)
  (S : CausalSetting) (x' : dict) (W : gset string) : Prop :=
  alternative_to reference (endogenous_domains S) X x'
  ∧ W ⊆ dom (endogenous_domains S) ∖ dom X
  ∧ CausalFormula_entailed_by
      {| intervention := restricted_to W (values S) ∪ x';
         event := Negation e |} S = Ok true.

(** a total exogenous assignment drawn from the product of the domains *)
Definition total_assignment (doms : gmap string (gset Z)) (c' : dict) : Prop :=
  dom c' = dom doms
  ∧ ∀ V D x, doms !! V = Some D → c' !! V = Some x → x ∈ D.

(** the structural equations are what the data model asks for: every
    endogenous variable has one, and it returns a value of the domain of
    its variable on every valuation that gives the parents values of
    their domains *)
Definition equations_defined (N : CausalNetwork)
  (Dx Dy : gmap string (gset Z)) : Prop :=
  (∀ V, V ∈ (signature N).2 → is_Some (structural_equations N !! V))
  ∧ ∀ V f D m,
      structural_equations N !! V = Some f → Dy !! V = Some D →
      (∀ u, (u, V) ∈ graph N →
            ∃ y Du, m !! u = Some y ∧ (Dx ∪ Dy) !! u = Some Du ∧ y ∈ Du) →
      ∃ x, f m = Ok x ∧ x ∈ D.

(** an intervention that stays inside the endogenous domains *)
Definition within_domains (doms : gmap string (gset Z)) (sigma : dict) : Prop :=
  ∀ V x D, sigma !! V = Some x → doms !! V = Some D → x ∈ D.

(** the candidate can be searched for witnesses: its variables are
    endogenous variables with a value in the setting, and so are the
    other endogenous variables *)
Definition ac2_searchable (X : dict) (S : CausalSetting) : Prop :=
  dom X ⊆ dom (values S)
  ∧ dom X ⊆ dom (endogenous_domains S)
  ∧ dom (endogenous_domains S) ∖ dom X ⊆ dom (values S).

(** the networks that the interface builds: the empty network, extended
    with [add_dependency], possibly intervened *)
Inductive built : CausalNetwork → Prop :=
| built_init : built CausalNetwork_init
| built_add_dependency N V parents f :
    built N → built (add_dependency N V parents f)
| built_intervene N sigma N' :
    built N → intervene N sigma = Ok N' → built N'.

(** the equations only read the values of the parents of their variable:
    they return the same on two valuations that agree on these *)
Definition reads_only_parents (N : CausalNetwork) : Prop :=
  ∀ V f m1 m2,
    structural_equations N !! V = Some f →
    (∀ u, (u, V) ∈ graph N → m1 !! u = m2 !! u) →
    f m1 = f m2.


(** a candidate cause as the searches enumerate them: a non-empty
    assignment of some of the variables of [doms] to values of their
    domains *)
Definition candidate_assignment (doms : gmap string (gset Z)) (a : dict)
  : Prop :=
  a ≠ ∅ ∧ dom a ⊆ dom doms ∧ within_domains doms a.

(** some conjunct [V = v] of [X] is a conjunct of [A] *)
Definition shares_conjunct (X A : dict) : Prop :=
  ∃ V v, X !! V = Some v ∧ A !! V = Some v.

(** [m] solves the network in the context: it extends the context, gives
    a value to the nodes of the graph, and the value of every node that
    the context leaves open is the one its override or its structural
    equation returns on [m] itself *)
Definition solution (N : CausalNetwork) (context m : dict) : Prop :=
  context ⊆ m
  ∧ dom m = dom context ∪ list_to_set (NX.nodes (graph N))
  ∧ ∀ V, V ∈ NX.nodes (graph N) → V ∉ dom context →
         ∃ x, structural_equation N V m = Ok x ∧ m !! V = Some x.
(** ** Small models used as concrete inputs *)

Module Examples.

Local Open Scope Z_scope.

Definition boolean : gset Z := {[ 0; 1 ]}.

(** [lambda values: values[parent]] *)
Definition copy_of (parent : string) : gmap string Z → result Z :=
  fun parent_values => getitem parent_values parent.

(** one exogenous variable U and one endogenous variable A = U *)
Definition chain : CausalNetwork :=
  add_dependency CausalNetwork_init "A" ["U"] (copy_of "U").

Definition chain_context : gmap string Z := {[ "U" := 1 ]}.
Definition chain_Dx : gmap string (gset Z) := {[ "U" := boolean ]}.
Definition chain_Dy : gmap string (gset Z) := {[ "A" := boolean ]}.

Definition chain_setting : CausalSetting :=
  {| causal_network := chain;
     context := chain_context;
     exogenous_domains := chain_Dx;
     endogenous_domains := chain_Dy;
     derived_values := {[ "A" := 1 ]};
     values := {[ "A" := 1 ]} ∪ chain_context |}.

Definition A_is_1 : Event := PrimitiveEvent "A" 1.

(** [lambda values: values.get(variable, 0)] *)
Definition get_or_zero (variable : string) : gmap string Z → result Z :=
  fun parent_values => Ok (default 0 (parent_values !! variable)).

(** U -> A -> C, where the equation of C looks at U, which is not one of
    its parents *)
Definition peeking : CausalNetwork :=
  add_dependency
    (add_dependency CausalNetwork_init "A" ["U"] (copy_of "U"))
    "C" ["A"] (get_or_zero "U").

(** an equation that leaves the declared domain: [lambda values: 2] *)
Definition out_of_range : CausalNetwork :=
  add_dependency CausalNetwork_init "A" ["U"] (fun _ => Ok 2).

(** the chain, intervened with [A <- 0] and then with the empty
    intervention, evaluated in the context *)
Definition twice_intervened : result (gmap string Z) :=
  N1 ← intervene chain {[ "A" := 0 ]};
  N12 ← intervene N1 ∅;
  evaluate N12 chain_context.

(** the chain with the dependency of U on A added: U -> A -> U *)
Definition looping : CausalNetwork :=
  add_dependency chain "U" ["A"] (copy_of "A").

(** U -> A and U -> B, declared in the two possible orders *)
Definition fork_AB : CausalNetwork :=
  add_dependency
    (add_dependency CausalNetwork_init "A" ["U"] (copy_of "U"))
    "B" ["U"] (copy_of "U").

Definition fork_BA : CausalNetwork :=
  add_dependency
    (add_dependency CausalNetwork_init "B" ["U"] (copy_of "U"))
    "A" ["U"] (copy_of "U").

End Examples.

(** * Properties *)

(** ** The exception monad *)

Lemma bind_Ok {A B} (m : result A) (k : A → result B) (b : B) :
  m ≫= k = Ok b ↔ ∃ a, m = Ok a ∧ k a = Ok b.
Proof.
  destruct m as [a|e]; simpl.
  - split; [eauto | by intros (? & [= <-] & ?)].
  - split; [done | by intros (? & ? & ?)].
Qed.

Lemma bind_Raise {A B} (m : result A) (k : A → result B) (e : exn) :
  m ≫= k = Raise e ↔ m = Raise e ∨ ∃ a, m = Ok a ∧ k a = Raise e.
Proof.
  destruct m as [a|e']; simpl.
  - split; [eauto | by intros [? | (? & [= <-] & ?)]].
  - split; [by intros [= ->]; left | by intros [[= ->] | (? & ? & ?)]].
Qed.

Lemma getitem_Ok {V} (d : gmap string V) k v :
  getitem d k = Ok v ↔ d !! k = Some v.
Proof. unfold getitem. destruct (d !! k); naive_solver. Qed.

Lemma getitem_Raise {V} (d : gmap string V) k e :
  getitem d k = Raise e ↔ d !! k = None ∧ e = KeyError.
Proof. unfold getitem. destruct (d !! k); naive_solver. Qed.

Lemma assert_Ok b u : assert b = Ok u ↔ b = true.
Proof. destruct b, u; naive_solver. Qed.

(** ** The example setting is the one the constructor builds *)

Lemma chain_setting_init :
  CausalSetting_init Examples.chain Examples.chain_context
    Examples.chain_Dx Examples.chain_Dy = Ok Examples.chain_setting.
Proof. vm_compute. reflexivity. Qed.


(** ** The graph library: nodes *)

Lemma elem_of_add_node (acc : list string) (x y : string) :
  y ∈ NX.add_node acc x ↔ y ∈ acc ∨ y = x.
Proof.
  unfold NX.add_node. case_decide.
  - naive_solver.
  - rewrite elem_of_app, list_elem_of_singleton. done.
Qed.

Lemma NoDup_add_node (acc : list string) (x : string) :
  NoDup acc → NoDup (NX.add_node acc x).
Proof.
  intros Hnd. unfold NX.add_node. case_decide; [done|].
  apply NoDup_app. split; [done|]. split; [|apply NoDup_singleton].
  intros y Hy ->%list_elem_of_singleton. done.
Qed.

Lemma nodes_foldl (g : list (string * string)) (acc : list string) :
  let r := foldl (fun acc e => NX.add_node (NX.add_node acc e.1) e.2) acc g in
  (NoDup acc → NoDup r)
  ∧ ∀ y, y ∈ r ↔ y ∈ acc ∨ ∃ e, e ∈ g ∧ (y = e.1 ∨ y = e.2).
Proof.
  revert acc. induction g as [|e g IH]; intros acc; simpl.
  - split; [done|]. intros y. split; [auto|].
    intros [?|(e & He & _)]; [done|]. by apply elem_of_nil in He.
  - destruct (IH (NX.add_node (NX.add_node acc e.1) e.2)) as [IH1 IH2].
    split.
    + intros Hnd. apply IH1. by do 2 apply NoDup_add_node.
    + intros y. rewrite IH2, !elem_of_add_node. split.
      * intros [[[?| ->]| ->]|(e' & He' & Hy)]; [by left|..].
        -- right. exists e. split; [left|auto].
        -- right. exists e. split; [left|auto].
        -- right. exists e'. split; [by right|done].
      * intros [?|(e' & [->|He']%elem_of_cons & Hy)]; [auto|..].
        -- left. destruct Hy as [-> | ->]; auto.
        -- right. eauto.
Qed.

Lemma NoDup_nodes (g : list (string * string)) : NoDup (NX.nodes g).
Proof. apply (nodes_foldl g []). constructor. Qed.

Lemma elem_of_nodes (g : list (string * string)) (v : string) :
  v ∈ NX.nodes g ↔ ∃ e, e ∈ g ∧ (v = e.1 ∨ v = e.2).
Proof.
  unfold NX.nodes. destruct (nodes_foldl g []) as [_ H]. rewrite H.
  split; [|auto]. intros [Hin|?]; [|done]. by apply elem_of_nil in Hin.
Qed.

Lemma edge_nodes (g : list (string * string)) (u v : string) :
  (u, v) ∈ g → u ∈ NX.nodes g ∧ v ∈ NX.nodes g.
Proof. intros H. split; apply elem_of_nodes; exists (u, v); auto. Qed.

Lemma elem_of_successors (g : list (string * string)) (u v : string) :
  v ∈ NX.successors g u ↔ (u, v) ∈ g.
Proof.
  unfold NX.successors. rewrite list_elem_of_fmap. split.
  - intros ([a b] & -> & [Ha Hin]%list_elem_of_filter). simpl in *. by subst.
  - intros H. exists (u, v). split; [done|]. by apply list_elem_of_filter.
Qed.

Lemma elem_of_predecessors (g : list (string * string)) (u v : string) :
  u ∈ NX.predecessors g v ↔ (u, v) ∈ g.
Proof.
  unfold NX.predecessors. rewrite list_elem_of_fmap. split.
  - intros ([a b] & -> & [Ha Hin]%list_elem_of_filter). simpl in *. by subst.
  - intros H. exists (u, v). split; [done|]. by apply list_elem_of_filter.
Qed.

(** ** Counting edges *)

Lemma unprocessed_nil (g : list (string * string)) (v : string) :
  unprocessed g [] v = length (NX.predecessors g v).
Proof.
  unfold unprocessed, NX.predecessors. rewrite length_fmap.
  f_equal. apply list_filter_iff. intros e. split; [by intros []|].
  intros ?. split; [done|]. apply not_elem_of_nil.
Qed.

Lemma unprocessed_snoc (g : list (string * string)) (D : list string)
  (n v : string) :
  n ∉ D →
  unprocessed g D v
  = (unprocessed g (D ++ [n]) v + occurrences v (NX.successors g n))%nat.
Proof.
  intros Hn. unfold unprocessed, occurrences, NX.successors.
  induction g as [|[a b] g IH]; [done|].
  rewrite !(filter_cons _ (a, b)). cbn [fst snd].
  destruct (decide (a = n)) as [->|Hne];
    rewrite ?fmap_cons, ?filter_cons; cbn [fst snd];
    repeat case_decide; cbn [length]; rewrite ?IH; try lia; exfalso;
    rewrite ?elem_of_app, ?list_elem_of_singleton in *; naive_solver.
Qed.

Lemma unprocessed_zero (g : list (string * string)) (D : list string)
  (u v : string) :
  unprocessed g D v = 0%nat → (u, v) ∈ g → u ∈ D.
Proof.
  unfold unprocessed. intros Hz Hin.
  destruct (decide (u ∈ D)) as [|Hu]; [done|].
  assert ((u, v) ∈ filter (fun e => e.2 = v ∧ e.1 ∉ D) g) as Hf.
  { by apply list_elem_of_filter. }
  destruct (filter _ g); [by apply elem_of_nil in Hf | done].
Qed.

Lemma unprocessed_pos (g : list (string * string)) (D : list string)
  (v : string) :
  (0 < unprocessed g D v)%nat → ∃ u, (u, v) ∈ g ∧ u ∉ D.
Proof.
  unfold unprocessed. intros Hpos.
  destruct (filter _ g) as [|[a b] l] eqn:Hf; [simpl in Hpos; lia|].
  assert ((a, b) ∈ filter (fun e => e.2 = v ∧ e.1 ∉ D) g) as Hin.
  { rewrite Hf. left. }
  apply list_elem_of_filter in Hin as [[Hb Ha] Hin]. simpl in *. subst.
  eauto.
Qed.

Lemma occurrences_cons (v w : string) (l : list string) :
  occurrences v (w :: l)
  = if decide (w = v) then S (occurrences v l) else occurrences v l.
Proof. unfold occurrences. rewrite filter_cons. by case_decide. Qed.

(** ** Kahn's algorithm keeps its invariant *)

Section kahn.
Context (g : list (string * string)).

Lemma kahn_relax D P0 z im w rem :
  kahn_inv g D (P0 ++ z) im (w :: rem) →
  kahn_inv g D (P0 ++ (NX.relax (im, z) w).2) (NX.relax (im, z) w).1 rem.
Proof.
  intros [Hnd Hnodes Hfresh Hcount Hzero Hrem].
  assert ((w ∉ D) ∧ (w ∉ P0 ++ z)) as [HwD HwP].
  { split; intros Hin.
    - specialize (Hzero w (or_introl Hin)).
      rewrite occurrences_cons, decide_True in Hzero by done. lia.
    - specialize (Hzero w (or_intror Hin)).
      rewrite occurrences_cons, decide_True in Hzero by done. lia. }
  assert (is_Some (im !! w)) as [d Hd].
  { destruct (proj1 (Hnodes w)) as [?|[?|?]]; [|done..].
    apply Hrem. left. }
  destruct (Hcount w d Hd) as [Hdeq Hdpos].
  rewrite occurrences_cons, decide_True in Hdeq by done.
  assert (∀ v, v ≠ w → occurrences v (w :: rem) = occurrences v rem) as Hocc.
  { intros v Hv. rewrite occurrences_cons. by rewrite decide_False. }
  unfold NX.relax. cbn [fst snd]. rewrite Hd. case_decide as Hz; cbn [fst snd].
  - split.
    + rewrite !app_assoc. apply NoDup_app. split; [by rewrite <-app_assoc|].
      split; [|apply NoDup_singleton].
      intros x Hx ->%list_elem_of_singleton.
      rewrite <-app_assoc in Hx. apply elem_of_app in Hx as [?|?]; done.
    + intros v. rewrite Hnodes, !elem_of_app, list_elem_of_singleton.
      destruct (decide (v = w)) as [->|Hne].
      * rewrite lookup_delete_eq. split; [eauto|]. intros _. eauto.
      * rewrite lookup_delete_ne by done. naive_solver.
    + intros v Hv. destruct (decide (v = w)) as [->|Hne].
      { rewrite lookup_delete_eq in Hv. by destruct Hv. }
      rewrite lookup_delete_ne in Hv by done.
      destruct (Hfresh v Hv) as [? HvP]. split; [done|].
      rewrite !elem_of_app, list_elem_of_singleton.
      rewrite elem_of_app in HvP. naive_solver.
    + intros v d' Hv. destruct (decide (v = w)) as [->|Hne].
      { by rewrite lookup_delete_eq in Hv. }
      rewrite lookup_delete_ne in Hv by done.
      rewrite <-Hocc by done. by apply Hcount.
    + intros v Hv. destruct (decide (v = w)) as [->|Hne]; [lia|].
      rewrite <-Hocc by done. apply Hzero.
      rewrite !elem_of_app, list_elem_of_singleton in Hv.
      rewrite elem_of_app. naive_solver.
    + intros x Hx. apply Hrem. by right.
  - split.
    + done.
    + intros v. rewrite Hnodes.
      destruct (decide (v = w)) as [->|Hne].
      * rewrite lookup_insert_eq. split; eauto.
      * by rewrite lookup_insert_ne.
    + intros v Hv. destruct (decide (v = w)) as [->|Hne]; [done|].
      rewrite lookup_insert_ne in Hv by done. by apply Hfresh.
    + intros v d' Hv. destruct (decide (v = w)) as [->|Hne].
      { rewrite lookup_insert_eq in Hv. simplify_eq. lia. }
      rewrite lookup_insert_ne in Hv by done.
      rewrite <-Hocc by done. by apply Hcount.
    + intros v Hv. destruct (decide (v = w)) as [->|Hne]; [naive_solver|].
      rewrite <-Hocc by done. by apply Hzero.
    + intros x Hx. apply Hrem. by right.
Qed.

Lemma kahn_relax_children D P0 rem : ∀ im z,
  kahn_inv g D (P0 ++ z) im rem →
  kahn_inv g D (P0 ++ (foldl NX.relax (im, z) rem).2)
           (foldl NX.relax (im, z) rem).1 [].
Proof.
  induction rem as [|w rem IH]; intros im z Hinv; [done|].
  cbn [foldl]. apply kahn_relax in Hinv.
  destruct (NX.relax (im, z) w) as [im' z']. by apply IH.
Qed.

Lemma kahn_start D n P im :
  kahn_inv g D (n :: P) im [] →
  kahn_inv g (D ++ [n]) P im (NX.successors g n).
Proof.
  intros [Hnd Hnodes Hfresh Hcount Hzero Hrem].
  assert (n ∉ D) as HnD.
  { apply NoDup_app in Hnd as (_ & Hnd & _). intros Hin.
    apply (Hnd n Hin). left. }
  assert (∀ v, (unprocessed g D v + occurrences v [])%nat
               = (unprocessed g (D ++ [n]) v
                  + occurrences v (NX.successors g n))%nat) as Heq.
  { intros v. rewrite (unprocessed_snoc g D n v HnD).
    change (occurrences v []) with 0%nat. lia. }
  split.
  - by rewrite <-app_assoc.
  - intros v. rewrite Hnodes, elem_of_app, elem_of_cons,
      list_elem_of_singleton. naive_solver.
  - intros v Hv. destruct (Hfresh v Hv) as [H1 H2].
    rewrite elem_of_app, list_elem_of_singleton.
    rewrite elem_of_cons in H2. naive_solver.
  - intros v d Hv. rewrite <-Heq. by apply Hcount.
  - intros v Hv. rewrite <-Heq. apply Hzero.
    rewrite elem_of_app, list_elem_of_singleton in Hv.
    rewrite elem_of_cons. naive_solver.
  - intros w Hw%elem_of_successors. by apply edge_nodes in Hw as [_ ?].
Qed.

Lemma after_predecessors_snoc D n :
  after_predecessors g D →
  (∀ u, (u, n) ∈ g → u ∈ D) →
  after_predecessors g (D ++ [n]).
Proof.
  intros HD Hn u v j Huv Hj.
  destruct (decide (j < length D)%nat) as [Hlt|Hge].
  - rewrite lookup_app_l in Hj by done.
    destruct (HD u v j Huv Hj) as (i & Hi & Hu).
    exists i. split; [done|]. rewrite lookup_app_l by lia. done.
  - rewrite lookup_app_r in Hj by lia.
    apply list_lookup_singleton_Some in Hj as [Hj <-].
    apply Hn in Huv. apply list_elem_of_lookup in Huv as [i Hi].
    exists i. split.
    + apply lookup_lt_Some in Hi. lia.
    + by rewrite lookup_app_l by (by eapply lookup_lt_Some).
Qed.

Lemma kahn_generation rest : ∀ D im z,
  kahn_inv g D (rest ++ z) im [] →
  after_predecessors g D →
  kahn_inv g (D ++ rest) (foldl (NX.relax_node g) (im, z) rest).2
           (foldl (NX.relax_node g) (im, z) rest).1 []
  ∧ after_predecessors g (D ++ rest).
Proof.
  induction rest as [|n rest IH]; intros D im z Hinv Hafter.
  - rewrite app_nil_r. done.
  - cbn [foldl]. rewrite <-app_comm_cons in Hinv.
    assert (after_predecessors g (D ++ [n])) as Hafter'.
    { apply after_predecessors_snoc; [done|]. intros u Hu.
      eapply unprocessed_zero; [|done].
      pose proof (kahn_zero _ _ _ _ _ Hinv n) as Hz.
      change (occurrences n []) with 0%nat in Hz.
      rewrite Nat.add_0_r in Hz. apply Hz. right. left. }
    apply kahn_start, kahn_relax_children in Hinv.
    change (NX.relax_node g (im, z) n)
      with (foldl NX.relax (im, z) (NX.successors g n)).
    destruct (foldl NX.relax (im, z) (NX.successors g n)) as [im' z'].
    replace (D ++ n :: rest) with ((D ++ [n]) ++ rest)
      by (by rewrite <-app_assoc).
    by apply IH.
Qed.
End kahn.

(** ** Generators *)

Lemma yielded_yield_all {A} (l : list A) (rest : generator A) :
  yielded (yield_all l rest) = l ++ yielded rest.
Proof. induction l as [|a l IH]; simpl; by rewrite ?IH. Qed.

Lemma ending_yield_all {A} (l : list A) (rest : generator A) :
  ending (yield_all l rest) = ending rest.
Proof. induction l as [|a l IH]; simpl; by rewrite ?IH. Qed.

(** ** Cycles *)

(** A non-empty finite set in which every element has a predecessor in
    the set contains a cycle. *)
Lemma cycle_in_closed_set (R : relation string) (M : gset string) :
  M ≠ ∅ →
  (∀ w, w ∈ M → ∃ u, u ∈ M ∧ tc R u w) →
  ∃ x, tc R x x.
Proof.
  induction (set_wf M) as [M _ IH]. intros Hne Hclosed.
  apply set_choose_L in Hne as [v Hv].
  destruct (Hclosed v Hv) as (u & Hu & Huv).
  destruct (decide (u = v)) as [->|Hne]; [eauto|].
  apply (IH (M ∖ {[ v ]})).
  - by apply subset_difference_elem_of.
  - assert (u ∈ M ∖ {[ v ]}) as Hin by set_solver.
    intros Heq. rewrite Heq in Hin. by apply not_elem_of_empty in Hin.
  - intros w Hw. destruct (Hclosed w) as (u' & Hu' & Hu'w); [set_solver|].
    destruct (decide (u' = v)) as [->|Hne'].
    + exists u. split; [set_solver|]. by etrans.
    + exists u'. split; [set_solver|done].
Qed.

Lemma tc_edge_nodes (g : list (string * string)) (u v : string) :
  tc (edge g) u v → u ∈ NX.nodes g ∧ v ∈ NX.nodes g.
Proof.
  induction 1 as [u v Huv|u w v Huw _ [_ IH]].
  - by apply edge_nodes.
  - split; [|done]. by apply edge_nodes in Huw as [? _].
Qed.

Lemma topological_order_acyclic (g : list (string * string)) (l : list string) :
  topological_order g l → acyclic g.
Proof.
  intros [Hperm Horder].
  assert (∀ u v, tc (edge g) u v →
            ∀ j, l !! j = Some v → ∃ i, (i < j)%nat ∧ l !! i = Some u) as Htc.
  { induction 1 as [u v Huv|u w v Huw _ IH]; intros j Hj.
    - by eapply Horder.
    - destruct (IH j Hj) as (i & Hi & Hw).
      destruct (Horder u w i Huw Hw) as (i' & Hi' & Hu).
      exists i'. split; [lia|done]. }
  intros v Hv.
  assert (v ∈ l) as [j Hj]%list_elem_of_lookup.
  { rewrite Hperm. by apply tc_edge_nodes in Hv as [? _]. }
  destruct (Htc v v Hv j Hj) as (i & Hi & Hi').
  assert (NoDup l) as Hnd by (rewrite Hperm; apply NoDup_nodes).
  pose proof (NoDup_lookup l i j v Hnd Hi' Hj). lia.
Qed.

(** ** The generations of Kahn's algorithm *)

Section generations.
Context (g : list (string * string)).

Lemma kahn_stuck D im :
  kahn_inv g D [] im [] → im ≠ ∅ → ¬ acyclic g.
Proof.
  intros [Hnd Hnodes Hfresh Hcount Hzero Hrem] Hne Hacyclic.
  destruct (cycle_in_closed_set (edge g) (dom im)) as [x Hx].
  - intros Hdom. by apply dom_empty_inv_L in Hdom.
  - intros w [d Hd]%elem_of_dom.
    destruct (Hcount w d Hd) as [-> Hpos].
    change (occurrences w []) with 0%nat in Hpos.
    rewrite Nat.add_0_r in Hpos.
    apply unprocessed_pos in Hpos as (u & Huw & HuD).
    exists u. split; [|by apply tc_once].
    apply elem_of_dom.
    destruct (proj1 (Hnodes u)) as [?|[Hu|?]]; [|done| |done].
    + by apply edge_nodes in Huw as [? _].
    + by apply elem_of_nil in Hu.
  - by apply (Hacyclic x).
Qed.

Lemma generations_nil fuel im :
  NX.generations fuel g im []
  = if decide (im = ∅) then StopIteration else Throw NetworkXUnfeasible.
Proof. by destruct fuel. Qed.

Lemma generations_sound_stop D im (G : generator string) :
  kahn_inv g D [] im [] →
  after_predecessors g D →
  yielded G = [] →
  (ending G = Ok tt → im = ∅) →
  (∀ e, ending G = Raise e → e = NetworkXUnfeasible) →
  generations_spec g D G.
Proof.
  intros Hinv Hafter HG Hok Herr. unfold generations_spec.
  rewrite HG, app_nil_r.
  split; [done|]. split.
  { pose proof (kahn_nodup _ _ _ _ _ Hinv) as Hnd.
    by rewrite app_nil_r in Hnd. }
  split.
  { intros v Hv. apply (kahn_nodes _ _ _ _ _ Hinv). by left. }
  split; [|done].
  intros Hend v Hv. rewrite (Hok Hend) in Hinv.
  destruct (proj1 (kahn_nodes _ _ _ _ _ Hinv v) Hv) as [?|[Hv'|Hv']].
  - done.
  - by apply elem_of_nil in Hv'.
  - rewrite lookup_empty in Hv'. by destruct Hv'.
Qed.

Lemma generations_sound fuel : ∀ D im zero,
  kahn_inv g D zero im [] →
  after_predecessors g D →
  generations_spec g D (NX.generations fuel g im zero).
Proof.
  induction fuel as [|fuel IH]; intros D im zero Hinv Hafter;
    destruct zero as [|n zero].
  1,3: rewrite generations_nil;
    apply (generations_sound_stop D im); [done|done|..];
    case_decide; naive_solver.
  - cbn [NX.generations]. unfold generations_spec. cbn [yielded ending].
    rewrite app_nil_r. split; [done|]. split.
    { pose proof (kahn_nodup _ _ _ _ _ Hinv) as Hnd.
      apply NoDup_app in Hnd. tauto. }
    split.
    { intros v Hv. apply (kahn_nodes _ _ _ _ _ Hinv). by left. }
    split; [done|]. by intros e [= <-].
  - cbn [NX.generations].
    set (st := foldl (NX.relax_node g) (im, []) (n :: zero)).
    destruct (kahn_generation g (n :: zero) D im []) as [Hinv' Hafter'];
      [by rewrite app_nil_r|done|].
    fold st in Hinv'.
    specialize (IH _ _ _ Hinv' Hafter'). unfold generations_spec in *.
    rewrite yielded_yield_all, ending_yield_all.
    by rewrite app_assoc.
Qed.

Lemma generations_complete fuel : ∀ D im zero,
  kahn_inv g D zero im [] →
  after_predecessors g D →
  acyclic g →
  (length (NX.nodes g) ≤ fuel + length D)%nat →
  ending (NX.generations fuel g im zero) = Ok tt.
Proof.
  induction fuel as [|fuel IH]; intros D im zero Hinv Hafter Hacyclic Hfuel;
    destruct zero as [|n zero].
  1,3: rewrite generations_nil; case_decide as Him; [done|];
    by destruct (kahn_stuck D im).
  - exfalso.
    assert (length (D ++ n :: zero) ≤ length (NX.nodes g))%nat as Hle.
    { apply submseteq_length, NoDup_submseteq.
      - apply (kahn_nodup _ _ _ _ _ Hinv).
      - intros v Hv. apply (kahn_nodes _ _ _ _ _ Hinv).
        apply elem_of_app in Hv as [?|?]; auto. }
    rewrite length_app in Hle. simpl in *. lia.
  - cbn [NX.generations]. rewrite ending_yield_all.
    destruct (kahn_generation g (n :: zero) D im []) as [Hinv' Hafter'];
      [by rewrite app_nil_r|done|].
    apply (IH _ _ _ Hinv' Hafter' Hacyclic).
    rewrite length_app. simpl. lia.
Qed.
End generations.

(** ** [topological_sort] *)

Section topological_sort.
Context (g : list (string * string)).

Local Ltac in_degree_filter_tac :=
  unfold NX.in_degree;
  induction (NX.nodes g) as [|v l IH]; [done|];
  rewrite fmap_cons, !filter_cons; cbn [snd];
  case_decide; [rewrite fmap_cons|]; by rewrite IH.

Lemma zero_in_degree_nodes :
  (filter (fun vd : string * nat => vd.2 = 0%nat) (NX.in_degree g)).*1
  = filter (fun v => length (NX.predecessors g v) = 0%nat) (NX.nodes g).
Proof. in_degree_filter_tac. Qed.

Lemma positive_in_degree_nodes :
  (filter (fun vd : string * nat => vd.2 ≠ 0%nat) (NX.in_degree g)).*1
  = filter (fun v => length (NX.predecessors g v) ≠ 0%nat) (NX.nodes g).
Proof. in_degree_filter_tac. Qed.

Lemma elem_of_zero_in_degree v :
  v ∈ (filter (fun vd : string * nat => vd.2 = 0%nat) (NX.in_degree g)).*1
  ↔ v ∈ NX.nodes g ∧ length (NX.predecessors g v) = 0%nat.
Proof.
  rewrite zero_in_degree_nodes, list_elem_of_filter. naive_solver.
Qed.

Lemma lookup_indegree_map v d :
  (list_to_map (filter (fun vd : string * nat => vd.2 ≠ 0%nat)
                  (NX.in_degree g)) : gmap string nat) !! v = Some d
  ↔ v ∈ NX.nodes g ∧ d = length (NX.predecessors g v) ∧ d ≠ 0%nat.
Proof.
  rewrite <-elem_of_list_to_map.
  - rewrite list_elem_of_filter. unfold NX.in_degree.
    rewrite list_elem_of_fmap. cbn [snd]. naive_solver.
  - rewrite positive_in_degree_nodes. apply NoDup_filter, NoDup_nodes.
Qed.

Lemma topological_sort_init :
  kahn_inv g []
    (filter (fun vd : string * nat => vd.2 = 0%nat) (NX.in_degree g)).*1
    (list_to_map
       (filter (fun vd : string * nat => vd.2 ≠ 0%nat) (NX.in_degree g)))
    [].
Proof.
  split.
  - rewrite app_nil_l, zero_in_degree_nodes.
    apply NoDup_filter, NoDup_nodes.
  - intros v. rewrite elem_of_zero_in_degree. split.
    + intros Hv.
      destruct (decide (length (NX.predecessors g v) = 0%nat)); [auto|].
      right. right. exists (length (NX.predecessors g v)).
      by apply lookup_indegree_map.
    + intros [Hv|[[? _]|[d (? & _)%lookup_indegree_map]]]; [|done..].
      by apply elem_of_nil in Hv.
  - intros v [d (Hv & -> & Hd)%lookup_indegree_map].
    split; [apply not_elem_of_nil|].
    rewrite elem_of_zero_in_degree. naive_solver.
  - intros v d (Hv & -> & Hd)%lookup_indegree_map. rewrite unprocessed_nil.
    change (occurrences v []) with 0%nat. lia.
  - intros v [Hv|[_ Hv]%elem_of_zero_in_degree];
      [by apply elem_of_nil in Hv|].
    rewrite unprocessed_nil. by rewrite Hv.
  - intros w Hw. by apply elem_of_nil in Hw.
Qed.

Lemma topological_sort_spec :
  generations_spec g [] (NX.topological_sort g).
Proof.
  apply generations_sound; [apply topological_sort_init|].
  intros u v j _ Hj. by rewrite lookup_nil in Hj.
Qed.

Lemma topological_sort_Ok :
  ending (NX.topological_sort g) = Ok tt →
  topological_order g (yielded (NX.topological_sort g)).
Proof.
  intros Hend.
  destruct topological_sort_spec as (Hafter & Hnd & Hsub & Hall & _).
  rewrite app_nil_l in *. split; [|done].
  apply NoDup_Permutation; [done|apply NoDup_nodes|].
  intros v. split; [apply Hsub|by apply Hall].
Qed.

Lemma topological_sort_complete :
  acyclic g → ending (NX.topological_sort g) = Ok tt.
Proof.
  intros Hacyclic.
  apply (generations_complete g _ []); [apply topological_sort_init|..|done|].
  - intros u v j _ Hj. by rewrite lookup_nil in Hj.
  - simpl. lia.
Qed.

Lemma topological_sort_acyclic :
  ending (NX.topological_sort g) = Ok tt ↔ acyclic g.
Proof.
  split; [|apply topological_sort_complete].
  intros Hend. eapply topological_order_acyclic.
  by apply topological_sort_Ok.
Qed.

Lemma topological_sort_cyclic :
  ¬ acyclic g → ending (NX.topological_sort g) = Raise NetworkXUnfeasible.
Proof.
  intros Hcyclic.
  destruct (ending (NX.topological_sort g)) as [[]|e] eqn:Hend.
  - by apply topological_sort_acyclic in Hend.
  - destruct topological_sort_spec as (_ & _ & _ & _ & Herr).
    by rewrite (Herr e Hend).
Qed.
End topological_sort.

(** ** Evaluation *)

Lemma filter_dom_subseteq (c final : gmap string Z) :
  c ⊆ final → filter (fun kv : string * Z => kv.1 ∈ dom c) final = c.
Proof.
  intros Hsub. apply map_eq. intros k.
  destruct (c !! k) as [x|] eqn:Hk.
  - apply map_lookup_filter_Some. split.
    + by eapply lookup_weaken.
    + apply elem_of_dom. eauto.
  - apply map_lookup_filter_None. right. intros x _ Hin.
    apply elem_of_dom in Hin as [? ?]. simpl in *. congruence.
Qed.

Section evaluate.
Context (N : CausalNetwork).

Lemma evaluate_loop_spec G : ∀ vals final,
  evaluate_loop N vals G = Ok final →
  ending G = Ok tt
  ∧ vals ⊆ final
  ∧ dom final = dom vals ∪ list_to_set (yielded G)
  ∧ ∀ j V, yielded G !! j = Some V → V ∉ dom vals →
           V ∉ take j (yielded G) →
           ∃ x, structural_equation N V (values_before vals (yielded G) j final)
                = Ok x
                ∧ final !! V = Some x.
Proof.
  induction G as [|v G IH|e]; intros vals final Hloop; simpl in Hloop.
  - injection Hloop as <-. simpl. split; [done|]. split; [done|].
    split; [set_solver|]. intros j V Hj. by rewrite lookup_nil in Hj.
  - destruct (vals !! v) as [x0|] eqn:Hv.
    + destruct (IH _ _ Hloop) as (Hend & Hsub & Hdom & Hvals).
      simpl. split; [done|]. split; [done|]. split.
      { rewrite Hdom. apply elem_of_dom_2 in Hv. set_solver. }
      intros [|j] V Hj HV Hfirst; simpl in Hj.
      { injection Hj as <-. by apply elem_of_dom_2 in Hv. }
      simpl in Hfirst. apply not_elem_of_cons in Hfirst as [Hne Hfirst].
      destruct (Hvals j V Hj HV Hfirst) as (x & Hx & Hfinal).
      exists x. split; [|done]. rewrite <-Hx. f_equal.
      unfold values_before. apply map_filter_ext. intros k y _. simpl.
      rewrite elem_of_cons. apply elem_of_dom_2 in Hv. naive_solver.
    + apply bind_Ok in Hloop as (x & Hx & Hloop).
      destruct (IH _ _ Hloop) as (Hend & Hsub & Hdom & Hvals).
      assert (vals ⊆ final) as Hsub'.
      { etrans; [|done]. by apply insert_subseteq. }
      simpl. split; [done|]. split; [done|]. split.
      { rewrite Hdom, dom_insert_L. set_solver. }
      intros [|j] V Hj HV Hfirst; simpl in Hj.
      * injection Hj as <-. exists x. split.
        -- rewrite <-Hx. f_equal. unfold values_before. simpl.
           etrans; [|apply (filter_dom_subseteq vals final Hsub')].
           apply map_filter_ext. intros k y _. simpl.
           split; [intros [?|Hk]; [done|by apply elem_of_nil in Hk]|auto].
        -- apply (lookup_weaken (<[v:=x]> vals)); [|done].
           apply lookup_insert_eq.
      * simpl in Hfirst. apply not_elem_of_cons in Hfirst as [Hne Hfirst].
        destruct (Hvals j V Hj) as (x' & Hx' & Hfinal); [|done|].
        { rewrite dom_insert_L. set_solver. }
        exists x'. split; [|done]. rewrite <-Hx'. f_equal.
        unfold values_before. apply map_filter_ext. intros k y _. simpl.
        rewrite dom_insert_L, elem_of_cons. set_solver.
  - done.
Qed.

Lemma evaluate_loop_defined G : ∀ vals,
  ending G = Ok tt →
  (∀ j V m, yielded G !! j = Some V → V ∉ dom vals →
            dom vals ∪ list_to_set (take j (yielded G)) ⊆ dom m →
            ∃ x, structural_equation N V m = Ok x) →
  ∃ final, evaluate_loop N vals G = Ok final.
Proof.
  induction G as [|v G IH|e]; intros vals Hend Hdef; simpl in *.
  - eauto.
  - destruct (vals !! v) as [x0|] eqn:Hv.
    + apply IH; [done|]. intros j V m Hj HV Hm.
      apply (Hdef (S j) V m); [done..|]. simpl.
      apply elem_of_dom_2 in Hv. set_solver.
    + destruct (Hdef 0%nat v vals) as [x Hx]; [done| |set_solver|].
      { by apply not_elem_of_dom. }
      rewrite Hx. simpl. apply IH; [done|]. intros j V m Hj HV Hm.
      apply (Hdef (S j) V m); [done| |].
      * rewrite dom_insert_L in HV. set_solver.
      * simpl. rewrite dom_insert_L in Hm. set_solver.
  - done.
Qed.

Lemma evaluate_loop_Raise G : ∀ vals e,
  ending G = Raise e → ∃ e', evaluate_loop N vals G = Raise e'.
Proof.
  induction G as [|v G IH|e0]; intros vals e Hend; simpl in *.
  - done.
  - destruct (vals !! v); [by eapply IH|].
    destruct (structural_equation N v vals) as [x|e']; simpl; [|eauto].
    by eapply IH.
  - eauto.
Qed.
End evaluate.

(** ** The signature of a network *)

Lemma predecessors_nil_iff (g : list (string * string)) (v : string) :
  length (NX.predecessors g v) = 0%nat ↔ ∀ u, (u, v) ∉ g.
Proof.
  split.
  - intros Hlen u Hu%elem_of_predecessors.
    destruct (NX.predecessors g v); [by apply elem_of_nil in Hu|done].
  - intros Hno. destruct (NX.predecessors g v) as [|u l] eqn:Hp; [done|].
    destruct (Hno u). apply elem_of_predecessors. rewrite Hp. left.
Qed.

Lemma elem_of_exogenous (N : CausalNetwork) (v : string) :
  v ∈ (signature N).1
  ↔ v ∈ NX.nodes (graph N) ∧ ∀ u, (u, v) ∉ graph N.
Proof.
  unfold signature. cbn [fst]. rewrite elem_of_list_to_set.
  rewrite elem_of_zero_in_degree. by rewrite predecessors_nil_iff.
Qed.

Lemma elem_of_endogenous (N : CausalNetwork) (v : string) :
  v ∈ (signature N).2 ↔ ∃ u, (u, v) ∈ graph N.
Proof.
  unfold signature. cbn [snd]. rewrite elem_of_list_to_set.
  rewrite positive_in_degree_nodes, list_elem_of_filter. split.
  - intros [Hlen _].
    destruct (NX.predecessors (graph N) v) as [|u l] eqn:Hp; [done|].
    exists u. apply elem_of_predecessors. rewrite Hp. left.
  - intros [u Hu]. split.
    + rewrite predecessors_nil_iff. intros Hno. by apply (Hno u).
    + by apply edge_nodes in Hu as [_ ?].
Qed.

Lemma elem_of_signature (N : CausalNetwork) (v : string) :
  v ∈ NX.nodes (graph N) ↔ v ∈ (signature N).1 ∨ v ∈ (signature N).2.
Proof.
  rewrite elem_of_exogenous, elem_of_endogenous. split.
  - intros Hv.
    destruct (decide (length (NX.predecessors (graph N) v) = 0%nat)) as [Hz|Hz].
    + left. split; [done|]. by apply predecessors_nil_iff.
    + right. destruct (NX.predecessors (graph N) v) as [|u l] eqn:Hp; [done|].
      exists u. apply elem_of_predecessors. rewrite Hp. left.
  - intros [[? _]|[u Hu]]; [done|]. by apply edge_nodes in Hu as [_ ?].
Qed.

Lemma signature_disjoint (N : CausalNetwork) (v : string) :
  v ∈ (signature N).1 → v ∈ (signature N).2 → False.
Proof.
  rewrite elem_of_exogenous, elem_of_endogenous.
  intros [_ Hno] [u Hu]. by apply (Hno u).
Qed.

(** the signature only depends on the set of edges *)
Lemma signature_edges (N N' : CausalNetwork) :
  (∀ e, e ∈ graph N' ↔ e ∈ graph N) → signature N' = signature N.
Proof.
  intros Hedges.
  assert (∀ v, v ∈ NX.nodes (graph N') ↔ v ∈ NX.nodes (graph N)) as Hnodes.
  { intros v. rewrite !elem_of_nodes. by setoid_rewrite Hedges. }
  rewrite (surjective_pairing (signature N')), (surjective_pairing (signature N)).
  f_equal; apply set_eq; intros v.
  - rewrite !elem_of_exogenous, Hnodes. by setoid_rewrite Hedges.
  - rewrite !elem_of_endogenous. by setoid_rewrite Hedges.
Qed.

Lemma acyclic_edges (g g' : list (string * string)) :
  (∀ e, e ∈ g' ↔ e ∈ g) → acyclic g → acyclic g'.
Proof.
  intros Hedges Hacyclic v Hv. apply (Hacyclic v).
  eapply tc_congruence with (f := id); [|done].
  intros x y Hxy. by apply Hedges.
Qed.

(** ** What [evaluate] returns *)

Section evaluate_facts.
Context (N : CausalNetwork) (c : gmap string Z).

Lemma evaluate_Ok (d : gmap string Z) :
  evaluate N c = Ok d →
  let order := yielded (NX.topological_sort (graph N)) in
  topological_order (graph N) order
  ∧ dom d = list_to_set (NX.nodes (graph N)) ∖ dom c
  ∧ d ##ₘ c
  ∧ ∀ j V, order !! j = Some V → V ∉ dom c →
      ∃ x, structural_equation N V (values_before c order j (d ∪ c)) = Ok x
           ∧ d !! V = Some x.
Proof.
  unfold evaluate. intros (final & Hloop & [= <-])%bind_Ok.
  apply evaluate_loop_spec in Hloop as (Hend & Hsub & Hdom & Hvals).
  pose proof (topological_sort_Ok _ Hend) as Horder.
  assert (filter (fun kv : string * Z => c !! kv.1 = None) final ∪ c = final)
    as Hunion.
  { apply map_eq. intros k. rewrite lookup_union.
    rewrite map_lookup_filter. simpl.
    destruct (final !! k) as [x|] eqn:Hk; simpl.
    - destruct (c !! k) as [y|] eqn:Hc.
      + rewrite option_guard_False by done. simpl.
        rewrite (lookup_weaken _ _ _ _ Hc Hsub) in Hk. done.
      + by rewrite option_guard_True.
    - destruct (c !! k) as [y|] eqn:Hc; [|done].
      rewrite (lookup_weaken _ _ _ _ Hc Hsub) in Hk. done. }
  simpl. split; [done|]. split; [|split].
  - apply set_eq. intros k.
    rewrite elem_of_dom, elem_of_difference, elem_of_list_to_set.
    destruct Horder as [Hperm _]. rewrite <-Hperm.
    unfold is_Some. setoid_rewrite map_lookup_filter_Some. simpl. split.
    + intros (x & Hx & Hc%not_elem_of_dom). split; [|done].
      apply elem_of_dom_2 in Hx. rewrite Hdom in Hx. set_solver.
    + intros [Hk Hc].
      assert (k ∈ dom final) as [x Hx]%elem_of_dom
        by (rewrite Hdom; set_solver).
      exists x. split; [done|]. by apply not_elem_of_dom.
  - apply map_disjoint_spec. intros k x y Hx Hy.
    apply map_lookup_filter_Some in Hx as [_ Hx]. simpl in Hx. congruence.
  - intros j V Hj HV. rewrite Hunion.
    destruct (Hvals j V Hj HV) as (x & Hx & Hfinal).
    { destruct Horder as [Hperm _].
      assert (NoDup (yielded (NX.topological_sort (graph N)))) as Hnd.
      { rewrite Hperm. apply NoDup_nodes. }
      intros [i Hi]%list_elem_of_lookup.
      apply lookup_take_Some in Hi as [Hi Hlt].
      pose proof (NoDup_lookup _ _ _ _ Hnd Hi Hj). lia. }
    exists x. split; [done|].
    apply map_lookup_filter_Some. split; [done|]. simpl.
    by apply not_elem_of_dom.
Qed.

Lemma evaluate_defined :
  acyclic (graph N) →
  (∀ V m, V ∈ NX.nodes (graph N) → V ∉ dom c →
          list_to_set (NX.predecessors (graph N) V) ⊆ dom m →
          ∃ x, structural_equation N V m = Ok x) →
  ∃ d, evaluate N c = Ok d.
Proof.
  intros Hacyclic Hdef.
  pose proof (topological_sort_complete _ Hacyclic) as Hend.
  destruct (topological_sort_Ok _ Hend) as [Hperm Horder].
  destruct (evaluate_loop_defined N (NX.topological_sort (graph N)) c)
    as [final Hfinal]; [done| |].
  - intros j V m Hj HV Hm. apply Hdef; [|done|].
    + rewrite <-Hperm. by eapply list_elem_of_lookup_2.
    + intros u Hu. apply Hm.
      rewrite elem_of_list_to_set, elem_of_predecessors in Hu.
      destruct (Horder u V j Hu Hj) as (i & Hi & Hui).
      apply elem_of_union_r, elem_of_list_to_set.
      apply list_elem_of_lookup. exists i.
      apply lookup_take_Some. done.
  - unfold evaluate. rewrite Hfinal. simpl. eauto.
Qed.

Lemma evaluate_cyclic :
  ¬ acyclic (graph N) → ∃ e, evaluate N c = Raise e.
Proof.
  intros Hcyclic%topological_sort_cyclic.
  destruct (evaluate_loop_Raise N _ c _ Hcyclic) as [e He].
  exists e. unfold evaluate. by rewrite He.
Qed.
End evaluate_facts.
(** ** Events *)

Lemma Event_entailed_by_defined (e : Event) (S : CausalSetting) :
  Event_variables e ⊆ dom (values S) → ∃ b, Event_entailed_by e S = Ok b.
Proof.
  induction e as [variable value|child IH|l IHl r IHr|l IHl r IHr];
    simpl; intros Hsub.
  - assert (is_Some (values S !! variable)) as [x Hx].
    { apply elem_of_dom. set_solver. }
    exists (bool_decide (x = value)). unfold getitem. by rewrite Hx.
  - destruct (IH Hsub) as [b ->]. by eexists.
  - destruct IHl as [bl ->]; [set_solver|].
    destruct IHr as [br Hr]; [set_solver|].
    destruct bl; simpl; eauto.
  - destruct IHl as [bl ->]; [set_solver|].
    destruct IHr as [br Hr]; [set_solver|].
    destruct bl; simpl; eauto.
Qed.

Lemma Event_entailed_by_Raise (e : Event) (S : CausalSetting) (x : exn) :
  Event_entailed_by e S = Raise x →
  x = KeyError ∧ ∃ V, V ∈ Event_variables e ∧ V ∉ dom (values S).
Proof.
  induction e as [variable value|child IH|l IHl r IHr|l IHl r IHr]; simpl.
  - intros [[Hnone ->]%getitem_Raise | (? & _ & ?)]%bind_Raise; [|done].
    split; [done|]. exists variable. split; [set_solver|].
    by apply not_elem_of_dom.
  - intros [H | (? & _ & ?)]%bind_Raise; [auto | done].
  - intros [H | (b & _ & H)]%bind_Raise.
    + destruct (IHl H) as (-> & V & ? & ?). split; [done|].
      exists V. set_solver.
    + destruct b; [|done].
      destruct (IHr H) as (-> & V & ? & ?). split; [done|].
      exists V. set_solver.
  - intros [H | (b & _ & H)]%bind_Raise.
    + destruct (IHl H) as (-> & V & ? & ?). split; [done|].
      exists V. set_solver.
    + destruct b; [done|].
      destruct (IHr H) as (-> & V & ? & ?). split; [done|].
      exists V. set_solver.
Qed.

Lemma Event_entailed_by_first_variable (e : Event) (S : CausalSetting) :
  first_variable e ∉ dom (values S) → Event_entailed_by e S = Raise KeyError.
Proof.
  induction e as [variable value|child IH|l IHl r IHr|l IHl r IHr];
    simpl; intros Hin.
  - apply not_elem_of_dom in Hin. unfold getitem. by rewrite Hin.
  - by rewrite IH.
  - by rewrite IHl.
  - by rewrite IHl.
Qed.

(** ** The empty candidate *)

Lemma satisfies_ac1_empty (e : Event) (S : CausalSetting) :
  satisfies_ac1 ∅ e S = Ok false.
Proof. unfold satisfies_ac1. by rewrite decide_True. Qed.

Lemma is_weak_actual_cause_empty (e : Event) (S : CausalSetting) :
  is_weak_actual_cause ∅ e S = Ok false.
Proof. unfold is_weak_actual_cause. by rewrite satisfies_ac1_empty. Qed.

Lemma assignments2conjunction_empty :
  assignments2conjunction ∅ = Raise AssertionError.
Proof. unfold assignments2conjunction. by rewrite map_to_list_empty. Qed.

Lemma satisfies_sc1_empty (e : Event) (S : CausalSetting) :
  satisfies_sc1 ∅ e S = Raise AssertionError.
Proof. unfold satisfies_sc1. by rewrite assignments2conjunction_empty. Qed.

Lemma is_weak_sufficient_cause_empty (e : Event) (S : CausalSetting) :
  is_weak_sufficient_cause ∅ e S = Raise AssertionError.
Proof. unfold is_weak_sufficient_cause. by rewrite satisfies_sc1_empty. Qed.

(** C5, as stated, fails: on the empty candidate the two sufficient-cause
    predicates do not return false, they raise the assertion error of
    [assignments2conjunction]. *)
Lemma empty_candidate_sufficient_cause_raises :
  is_weak_sufficient_cause ∅ Examples.A_is_1 Examples.chain_setting
    ≠ Ok false
  ∧ is_sufficient_cause ∅ Examples.A_is_1 Examples.chain_setting ≠ Ok false.
Proof. split; vm_compute; discriminate. Qed.

(** C5, amended: for every event and setting, on the empty candidate
    [is_weak_actual_cause] and [is_actual_cause] return false, while
    [is_weak_sufficient_cause] and [is_sufficient_cause] raise
    [AssertionError] ([satisfies_sc1] has no guard for the empty
    candidate and [assignments2conjunction] asserts that its argument is
    not empty). *)
Theorem empty_candidate (e : Event) (S : CausalSetting) :
  is_weak_actual_cause ∅ e S = Ok false
  ∧ is_actual_cause ∅ e S = Ok false
  ∧ is_weak_sufficient_cause ∅ e S = Raise AssertionError
  ∧ is_sufficient_cause ∅ e S = Raise AssertionError.
Proof.
  split; [|split; [|split]].
  - apply is_weak_actual_cause_empty.
  - unfold is_actual_cause. by rewrite is_weak_actual_cause_empty.
  - apply is_weak_sufficient_cause_empty.
  - unfold is_sufficient_cause. by rewrite is_weak_sufficient_cause_empty.
Qed.

(** ** Singleton candidates *)

Lemma powerdict_singleton (V : string) (v : Z) :
  powerdict {[ V := v ]} = [∅; {[ V := v ]}].
Proof.
  unfold powerdict, powerset. rewrite map_to_list_singleton. simpl.
  by rewrite insert_empty.
Qed.

(** C9: for a singleton candidate [X = {V: v}], [is_actual_cause] returns
    what [is_weak_actual_cause] returns (the same Boolean, or the same
    exception): the only strict subset is the empty assignment, which is
    never a weak actual cause. *)
Theorem is_actual_cause_singleton (V : string) (v : Z) (e : Event)
  (S : CausalSetting) :
  is_actual_cause {[ V := v ]} e S = is_weak_actual_cause {[ V := v ]} e S.
Proof.
  unfold is_actual_cause.
  destruct (is_weak_actual_cause {[ V := v ]} e S) as [[|]|x] eqn:Hweak;
    simpl; [|done..].
  unfold satisfies_ac3. rewrite powerdict_singleton. simpl.
  rewrite decide_True; last first.
  { intros Heq. apply (f_equal (fun m : gmap string Z => m !! V)) in Heq.
    by rewrite lookup_empty, lookup_singleton_eq in Heq. }
  rewrite is_weak_actual_cause_empty. simpl.
  by rewrite decide_False by (by intros []).
Qed.

(** ** Events mentioning unknown variables *)

(** C10, as stated, fails: the event [A = 0 and Z = 1] mentions [Z], which
    is no variable of the setting, and evaluates to false, since the
    conjunction does not evaluate its right operand when the left one is
    false. *)
Lemma unknown_variable_not_reached :
  let e := Conjunction (PrimitiveEvent "A" 0) (PrimitiveEvent "Z" 1) in
  "Z" ∈ Event_variables e
  ∧ ("Z" ∉ dom (values Examples.chain_setting))
  ∧ Event_entailed_by e Examples.chain_setting = Ok false.
Proof.
  split; [|split].
  - simpl. set_solver.
  - apply not_elem_of_dom. reflexivity.
  - reflexivity.
Qed.

(** C10, amended: evaluation returns a Boolean whenever every variable
    mentioned in the event is a variable of the setting; when it fails, it
    fails with [KeyError] and some variable mentioned in the event is not
    a variable of the setting; and it does fail with [KeyError] when the
    first primitive event it meets (the leftmost one) is on an unknown
    variable.  An unknown variable further right can be skipped: whatever
    the right operand [r] is, and whatever variables it mentions, the
    conjunction of a false event with [r] returns false, and the
    disjunction of a true event with [r] returns true, without [r] being
    evaluated. *)
Theorem Event_entailed_by_KeyError (e : Event) (S : CausalSetting) :
  (Event_variables e ⊆ dom (values S) → ∃ b, Event_entailed_by e S = Ok b)
  ∧ (∀ x, Event_entailed_by e S = Raise x →
          x = KeyError ∧ ∃ V, V ∈ Event_variables e ∧ V ∉ dom (values S))
  ∧ (first_variable e ∉ dom (values S) →
     Event_entailed_by e S = Raise KeyError)
  ∧ (∀ r, Event_entailed_by e S = Ok false →
          Event_entailed_by (Conjunction e r) S = Ok false)
  ∧ (∀ r, Event_entailed_by e S = Ok true →
          Event_entailed_by (Disjunction e r) S = Ok true).
Proof.
  split; [apply Event_entailed_by_defined|].
  split; [apply Event_entailed_by_Raise|].
  split; [apply Event_entailed_by_first_variable|].
  split; intros r Hleft; simpl; by rewrite Hleft.
Qed.

(** ** Building a network *)

Lemma elem_of_add_edge (g : list (string * string)) (u v : string)
  (e : string * string) :
  e ∈ NX.add_edge u v g ↔ e ∈ g ∨ e = (u, v).
Proof.
  unfold NX.add_edge. case_decide.
  - naive_solver.
  - by rewrite elem_of_app, list_elem_of_singleton.
Qed.

Lemma elem_of_add_edges (parents : list string) (V : string) :
  ∀ (g : list (string * string)) (e : string * string),
    e ∈ foldl (fun g p => NX.add_edge p V g) g parents
    ↔ e ∈ g ∨ ∃ p, p ∈ parents ∧ e = (p, V).
Proof.
  induction parents as [|p parents IH]; intros g e; simpl.
  - split; [auto|]. intros [?|(p & Hp & _)]; [done|].
    by apply elem_of_nil in Hp.
  - rewrite IH, elem_of_add_edge. split.
    + intros [[?| ->]|(p' & Hp' & ->)]; [by left|right..].
      * exists p. split; [left|done].
      * exists p'. split; [by right|done].
    + intros [?|(p' & [->|Hp']%elem_of_cons & ->)]; [auto|auto|].
      right. eauto.
Qed.

Lemma elem_of_graph_add_dependency (N : CausalNetwork) (V : string)
  (parents : list string) (f : gmap string Z → result Z) (e : string * string) :
  e ∈ graph (add_dependency N V parents f)
  ↔ e ∈ graph N ∨ ∃ p, p ∈ parents ∧ e = (p, V).
Proof. apply elem_of_add_edges. Qed.

Lemma looping_cyclic : ¬ acyclic (graph Examples.looping).
Proof.
  intros Hacyclic. apply (Hacyclic "U").
  apply tc_l with "A"; [|apply tc_once]; unfold edge; vm_compute; set_solver.
Qed.

(** C8, as stated, fails: making [U] depend on [A] in the chain [U -> A]
    closes a cycle, and the dependency is registered all the same. *)
Lemma add_dependency_registers_cycle :
  ¬ acyclic (graph Examples.looping)
  ∧ ("A", "U") ∈ graph Examples.looping
  ∧ structural_equations Examples.looping !! "U"
    = Some (Examples.copy_of "A").
Proof.
  split; [apply looping_cyclic|split].
  - vm_compute. set_solver.
  - reflexivity.
Qed.

(** C8, amended: [add_dependency] never fails.  It registers every edge
    [parent -> V] and the equation of [V], also when this closes a cycle;
    the cycle only shows later, when [evaluate] sorts the graph
    topologically: on a network whose graph has a cycle, [evaluate]
    raises an exception in every context. *)
Theorem add_dependency_no_cycle_check (N : CausalNetwork) (V : string)
  (parents : list string) (f : gmap string Z → result Z) :
  (∀ p, p ∈ parents → (p, V) ∈ graph (add_dependency N V parents f))
  ∧ structural_equations (add_dependency N V parents f) !! V = Some f
  ∧ (¬ acyclic (graph (add_dependency N V parents f)) →
     ∀ c, ∃ e, evaluate (add_dependency N V parents f) c = Raise e).
Proof.
  split; [|split].
  - intros p Hp. apply elem_of_graph_add_dependency. right. eauto.
  - apply lookup_insert_eq.
  - intros Hcyclic c. by apply evaluate_cyclic.
Qed.

Lemma add_dependency_no_cycle_check_witness :
  ¬ acyclic (graph (add_dependency Examples.chain "U" ["A"] (Examples.copy_of "A")))
  ∧ ∃ e, evaluate (add_dependency Examples.chain "U" ["A"] (Examples.copy_of "A"))
           Examples.chain_context = Raise e.
Proof.
  split.
  - apply looping_cyclic.
  - apply (add_dependency_no_cycle_check Examples.chain "U" ["A"]
             (Examples.copy_of "A")).
    apply looping_cyclic.
Defined.

(** ** The forward pass *)

Lemma structural_equation_pinned (N : CausalNetwork) (V : string) (m : gmap string Z)
  (pinned : Z) :
  endogenous_bindings N !! V = Some pinned →
  structural_equation N V m = Ok pinned.
Proof. unfold structural_equation. by intros ->. Qed.

Lemma structural_equation_free (N : CausalNetwork) (V : string) (m : gmap string Z)
  (x : Z) :
  endogenous_bindings N !! V = None →
  structural_equation N V m = Ok x
  ↔ ∃ f, structural_equations N !! V = Some f ∧ f m = Ok x.
Proof.
  unfold structural_equation. intros ->. rewrite bind_Ok.
  by setoid_rewrite getitem_Ok.
Qed.

Lemma dom_evaluate (N : CausalNetwork) (c d : gmap string Z) :
  evaluate N c = Ok d → dom c = (signature N).1 → dom d = (signature N).2.
Proof.
  intros (_ & Hdom & _)%evaluate_Ok Hc. rewrite Hdom, Hc.
  apply set_eq. intros v.
  rewrite elem_of_difference, elem_of_list_to_set, elem_of_signature.
  split.
  - by intros [[?|?] ?].
  - intros Hv. split; [auto|]. intros Hv'. by eapply signature_disjoint.
Qed.

(** C6, as stated, fails: the equation of [C] receives the whole valuation
    built so far, in which it finds [U = 1], and not the valuation
    restricted to its parent [A], on which it would return 0. *)
Lemma evaluate_passes_all_values :
  evaluate Examples.peeking Examples.chain_context
    = Ok {[ "A" := 1%Z; "C" := 1%Z ]}
  ∧ dom Examples.chain_context = (signature Examples.peeking).1
  ∧ endogenous_bindings Examples.peeking !! "C" = None
  ∧ structural_equations Examples.peeking !! "C"
    = Some (Examples.get_or_zero "U")
  ∧ Examples.get_or_zero "U"
      (parent_values_of (graph Examples.peeking) "C"
         ({[ "A" := 1%Z; "C" := 1%Z ]} ∪ Examples.chain_context))
    = Ok 0%Z.
Proof. repeat split; vm_compute; reflexivity. Qed.

(** C6, amended: for a network with an acyclic graph and a context [c]
    assigning exactly the exogenous variables, where the equation of each
    endogenous variable that is not pinned is there and returns a value on
    every valuation that assigns its parents, [evaluate] returns an
    assignment [d] whose keys are exactly the endogenous variables.  It
    visits the variables in the order of [topological_sort], a topological
    order of the graph.  A pinned variable gets its value from the
    override map; any other endogenous variable [V] gets [F[V]] applied to
    the whole valuation built so far, that is the context and the values
    of all the variables visited before [V], which include the parents of
    [V] but are not restricted to them. *)
Theorem evaluate_topological (N : CausalNetwork) (c : gmap string Z) :
  dom c = (signature N).1 →
  acyclic (graph N) →
  (∀ V, V ∈ (signature N).2 → endogenous_bindings N !! V = None →
        ∃ f, structural_equations N !! V = Some f
             ∧ ∀ m, list_to_set (NX.predecessors (graph N) V) ⊆ dom m →
                    ∃ x, f m = Ok x) →
  ∃ d order,
    evaluate N c = Ok d
    ∧ order = yielded (NX.topological_sort (graph N))
    ∧ topological_order (graph N) order
    ∧ dom d = (signature N).2
    ∧ ∀ j V, order !! j = Some V → V ∈ (signature N).2 →
        list_to_set (NX.predecessors (graph N) V)
          ⊆ dom (values_before c order j (d ∪ c))
        ∧ match endogenous_bindings N !! V with
          | Some pinned => d !! V = Some pinned
          | None =>
              ∃ f x, structural_equations N !! V = Some f
                     ∧ f (values_before c order j (d ∪ c)) = Ok x
                     ∧ d !! V = Some x
          end.
Proof.
  intros Hc Hacyclic Hdef.
  destruct (evaluate_defined N c Hacyclic) as [d Hd].
  { intros V m HV HVc Hm.
    assert (V ∈ (signature N).2) as Hendo.
    { apply elem_of_signature in HV as [HV|HV]; [|done].
      by rewrite <-Hc in HV. }
    destruct (endogenous_bindings N !! V) as [pinned|] eqn:Hb.
    - exists pinned. by apply structural_equation_pinned.
    - destruct (Hdef V Hendo Hb) as (f & Hf & Hfm).
      destruct (Hfm m Hm) as [x Hx]. exists x.
      apply structural_equation_free; eauto. }
  exists d, (yielded (NX.topological_sort (graph N))).
  pose proof (dom_evaluate N c d Hd Hc) as Hdomd.
  destruct (evaluate_Ok N c d Hd) as (Horder & _ & _ & Hvals).
  split; [done|]. split; [done|]. split; [done|]. split; [done|].
  intros j V Hj Hendo.
  assert (V ∉ dom c) as HVc.
  { rewrite Hc. intros HV. by eapply signature_disjoint. }
  split.
  - intros u Hu. rewrite elem_of_list_to_set, elem_of_predecessors in Hu.
    destruct Horder as [_ Horder].
    destruct (Horder u V j Hu Hj) as (i & Hi & Hui).
    assert (u ∈ dom (d ∪ c)) as [x Hx]%elem_of_dom.
    { rewrite dom_union_L, Hdomd, Hc.
      apply edge_nodes in Hu as [Hu _].
      apply elem_of_signature in Hu. set_solver. }
    apply elem_of_dom. exists x. apply map_lookup_filter_Some.
    split; [done|]. right. apply list_elem_of_lookup. exists i.
    by apply lookup_take_Some.
  - destruct (Hvals j V Hj HVc) as (x & Hx & HdV).
    destruct (endogenous_bindings N !! V) as [pinned|] eqn:Hb.
    + rewrite (structural_equation_pinned N V _ pinned Hb) in Hx.
      by injection Hx as ->.
    + apply structural_equation_free in Hx as (f & Hf & Hfx); [|done].
      eauto.
Qed.

Lemma peeking_acyclic : acyclic (graph Examples.peeking).
Proof. apply topological_sort_acyclic. reflexivity. Qed.

Lemma peeking_endogenous (V : string) :
  V ∈ (signature Examples.peeking).2 → V = "A" ∨ V = "C".
Proof.
  intros [u Hu]%elem_of_endogenous.
  change (graph Examples.peeking) with [("U", "A"); ("A", "C")] in Hu.
  set_solver.
Qed.

Lemma evaluate_topological_witness :
  ∃ d, evaluate Examples.peeking Examples.chain_context = Ok d
       ∧ dom d = (signature Examples.peeking).2.
Proof.
  destruct (evaluate_topological Examples.peeking Examples.chain_context)
    as (d & order & Hd & _ & _ & Hdom & _).
  - apply set_eq. intros v. rewrite elem_of_exogenous.
    change (graph Examples.peeking) with [("U", "A"); ("A", "C")].
    change (NX.nodes [("U", "A"); ("A", "C")]) with ["U"; "A"; "C"].
    unfold Examples.chain_context. rewrite dom_singleton_L. split.
    + intros ->%elem_of_singleton. split; [set_solver|]. set_solver.
    + intros [Hv Hno]. set_solver.
  - apply peeking_acyclic.
  - intros V [-> | ->]%peeking_endogenous _.
    + exists (Examples.copy_of "U"). split; [reflexivity|].
      intros m Hm. assert ("U" ∈ dom m) as [x Hx]%elem_of_dom.
      { apply Hm. set_solver. }
      exists x. by apply getitem_Ok.
    + exists (Examples.get_or_zero "U"). split; [reflexivity|].
      intros m _. by eexists.
  - eauto.
Defined.

(** ** Building a setting *)

Lemma all_in_domain_true (vals : gmap string Z) (items : list (string * gset Z)) :
  all_in_domain vals items = Ok true
  ↔ ∀ v D, (v, D) ∈ items → ∃ x, vals !! v = Some x ∧ x ∈ D.
Proof.
  induction items as [|[v D] items IH]; simpl.
  - split; [|done]. intros _ v D Hin. by apply elem_of_nil in Hin.
  - rewrite bind_Ok. setoid_rewrite getitem_Ok. split.
    + intros (x & Hx & Hrest) v' D' [[= -> ->]|Hin]%elem_of_cons.
      * exists x. split; [done|]. by case_decide.
      * case_decide; [|done]. by apply IH.
    + intros Hall. destruct (Hall v D) as (x & Hx & HxD); [left|].
      exists x. split; [done|]. rewrite decide_True by done.
      apply IH. intros v' D' Hin. apply Hall. by right.
Qed.

Lemma all_in_domain_false (vals : gmap string Z) (items : list (string * gset Z)) :
  (∀ v D, (v, D) ∈ items → is_Some (vals !! v)) →
  (∃ v D x, (v, D) ∈ items ∧ vals !! v = Some x ∧ x ∉ D) →
  all_in_domain vals items = Ok false.
Proof.
  induction items as [|[v D] items IH]; simpl; intros Hdef (v' & D' & x' & Hin & Hx' & Hout).
  - by apply elem_of_nil in Hin.
  - destruct (Hdef v D) as [x Hx]; [left|].
    unfold getitem. rewrite Hx. simpl. case_decide as HxD; [|done].
    apply IH.
    + intros v0 D0 Hin0. apply (Hdef v0 D0). by right.
    + apply elem_of_cons in Hin as [[= -> ->]|Hin]; [congruence|].
      eauto 6.
Qed.

Lemma all_in_domain_Raise (vals : gmap string Z) (items : list (string * gset Z)) e :
  all_in_domain vals items = Raise e →
  ∃ v D, (v, D) ∈ items ∧ vals !! v = None.
Proof.
  induction items as [|[v D] items IH]; simpl; [done|].
  intros [[Hnone _]%getitem_Raise|(x & Hx & Hrest)]%bind_Raise.
  - exists v, D. split; [left|done].
  - case_decide; [|done]. destruct (IH Hrest) as (v' & D' & Hin & Hnone).
    exists v', D'. split; [by right|done].
Qed.

(** C7: [CausalSetting.__init__] raises [AssertionError] whenever the keys
    of the context or of the domains differ from the signature of the
    network, or a context value is outside its exogenous domain, or a
    derived value is outside its endogenous domain; it passes on the
    exception of [evaluate]; and when all the checks pass it returns the
    setting with [values = c ∪ derived]. *)
Theorem CausalSetting_init_checks (N : CausalNetwork) (c : gmap string Z)
  (Dx Dy : gmap string (gset Z)) :
  ((signature N).1 ≠ dom c ∨ (signature N).1 ≠ dom Dx
   ∨ (signature N).2 ≠ dom Dy →
   CausalSetting_init N c Dx Dy = Raise AssertionError)
  ∧ ((signature N).1 = dom c → (signature N).1 = dom Dx →
     (signature N).2 = dom Dy →
     ((∃ V D x, Dx !! V = Some D ∧ c !! V = Some x ∧ x ∉ D) →
      CausalSetting_init N c Dx Dy = Raise AssertionError)
     ∧ ((∀ V D x, Dx !! V = Some D → c !! V = Some x → x ∈ D) →
        (∀ e, evaluate N c = Raise e →
              CausalSetting_init N c Dx Dy = Raise e)
        ∧ ∀ derived, evaluate N c = Ok derived →
            ((∃ V D x, Dy !! V = Some D ∧ derived !! V = Some x ∧ x ∉ D) →
             CausalSetting_init N c Dx Dy = Raise AssertionError)
            ∧ ((∀ V D x, Dy !! V = Some D → derived !! V = Some x → x ∈ D) →
               CausalSetting_init N c Dx Dy
               = Ok {| causal_network := N;
                       context := c;
                       exogenous_domains := Dx;
                       endogenous_domains := Dy;
                       derived_values := derived;
                       values := derived ∪ c |}))).
Proof.
  unfold CausalSetting_init.
  destruct (signature N) as [exo endo] eqn:Hsig. cbn [fst snd].
  split.
  { intros Hkeys.
    destruct (decide (exo = dom c)) as [Hc|Hc];
      [|by rewrite (bool_decide_eq_false_2 _ Hc)].
    rewrite (bool_decide_eq_true_2 _ Hc). simpl.
    destruct (decide (exo = dom Dx)) as [HDx|HDx];
      [|by rewrite (bool_decide_eq_false_2 _ HDx)].
    rewrite (bool_decide_eq_true_2 _ HDx). simpl.
    rewrite bool_decide_eq_false_2 by naive_solver. done. }
  intros Hc HDx HDy.
  rewrite (bool_decide_eq_true_2 _ Hc), (bool_decide_eq_true_2 _ HDx),
    (bool_decide_eq_true_2 _ HDy). simpl.
  assert (∀ v D, (v, D) ∈ map_to_list Dx → is_Some (c !! v)) as Hcdef.
  { intros v D Hin%elem_of_map_to_list. apply elem_of_dom.
    rewrite <-Hc, HDx. by eapply elem_of_dom_2. }
  split.
  { intros (V & D & x & HV & Hx & Hout).
    rewrite (all_in_domain_false c (map_to_list Dx)); [done|done|].
    exists V, D, x. by rewrite elem_of_map_to_list. }
  intros Hctx.
  assert (all_in_domain c (map_to_list Dx) = Ok true) as ->.
  { apply all_in_domain_true. intros v D Hin.
    destruct (Hcdef v D Hin) as [x Hx]. exists x. split; [done|].
    apply elem_of_map_to_list in Hin. eauto. }
  simpl. split; [by intros e ->|].
  intros derived Hd. rewrite Hd. simpl.
  assert (dom derived = endo) as Hdom.
  { replace endo with (signature N).2 by (by rewrite Hsig).
    apply (dom_evaluate N c); [done|]. by rewrite Hsig. }
  assert (derived ##ₘ c) as Hdisj by (by apply evaluate_Ok in Hd as (_&_&?&_)).
  assert (∀ v D, (v, D) ∈ map_to_list Dy →
                 ∃ x, derived !! v = Some x ∧ (derived ∪ c) !! v = Some x)
    as Hddef.
  { intros v D Hin%elem_of_map_to_list.
    assert (v ∈ dom derived) as [x Hx]%elem_of_dom.
    { rewrite Hdom, HDy. by eapply elem_of_dom_2. }
    exists x. split; [done|]. by apply lookup_union_Some_l. }
  split.
  - intros (V & D & x & HV & Hx & Hout).
    rewrite (all_in_domain_false (derived ∪ c) (map_to_list Dy)); [done| |].
    + intros v D' Hin. destruct (Hddef v D' Hin) as (? & _ & ?). eauto.
    + exists V, D, x. rewrite elem_of_map_to_list.
      split; [done|]. split; [|done]. by apply lookup_union_Some_l.
  - intros Hvals.
    rewrite (proj2 (all_in_domain_true (derived ∪ c) (map_to_list Dy)));
      [done|].
    intros v D Hin. destruct (Hddef v D Hin) as (x & Hx & Hux).
    exists x. split; [done|]. apply elem_of_map_to_list in Hin. eauto.
Qed.

(** ** Interventions *)

Lemma foldl_insert_items (l : list (string * Z)) : ∀ b : gmap string Z,
  NoDup l.*1 →
  foldl (fun b kv => <[kv.1 := kv.2]> b) b l = list_to_map l ∪ b.
Proof.
  induction l as [|[k v] l IH]; intros b Hnd.
  - by rewrite list_to_map_nil, (left_id_L ∅ (∪)).
  - rewrite fmap_cons in Hnd. apply NoDup_cons in Hnd as [Hk Hnd].
    cbn [foldl fst snd]. rewrite IH by done.
    rewrite list_to_map_cons, <-insert_union_l. symmetry.
    apply insert_union_r. by apply not_elem_of_list_to_map_1.
Qed.

Lemma foldl_insert_map_to_list (sigma : gmap string Z) :
  foldl (fun b kv => <[kv.1 := kv.2]> b) ∅ (map_to_list sigma) = sigma.
Proof.
  rewrite foldl_insert_items by apply NoDup_fst_map_to_list.
  by rewrite list_to_map_to_list, (right_id_L ∅ (∪)).
Qed.

Lemma intervene_loop_Ok (N : CausalNetwork) (vars : list string) :
  ∀ new R,
    intervene_loop N new vars = Ok R →
    endogenous_bindings R = endogenous_bindings new
    ∧ (∀ e, e ∈ graph R ↔ e ∈ graph new ∨ (e.2 ∈ vars ∧ e ∈ graph N))
    ∧ (∀ V, structural_equations R !! V
            = if decide (V ∈ vars) then structural_equations N !! V
              else structural_equations new !! V)
    ∧ (∀ V, V ∈ vars → is_Some (structural_equations N !! V)).
Proof.
  induction vars as [|v vars IH]; intros new R Hloop; simpl in Hloop.
  - injection Hloop as <-. split; [done|]. split; [|split].
    + intros e. split; [auto|]. intros [?|[He _]]; [done|].
      by apply elem_of_nil in He.
    + intros V. rewrite decide_False; [done|apply not_elem_of_nil].
    + intros V HV. by apply elem_of_nil in HV.
  - apply bind_Ok in Hloop as (f & Hf%getitem_Ok & Hloop).
    destruct (IH _ _ Hloop) as (Hb & Hg & HF & Hdef).
    split; [done|]. split; [|split].
    + intros [a b]. rewrite Hg, elem_of_graph_add_dependency, elem_of_cons.
      cbn [snd]. setoid_rewrite elem_of_predecessors. split.
      * intros [[?|(p & Hp & [= -> ->])]|[? ?]]; auto.
      * intros [?|[[->|?] ?]]; [auto| |auto].
        left. right. eauto.
    + intros V. rewrite HF. cbn [structural_equations add_dependency].
      destruct (decide (V = v)) as [->|Hne].
      * rewrite (decide_True (P := v ∈ v :: vars)) by left.
        case_decide; [done|]. by rewrite lookup_insert_eq.
      * rewrite lookup_insert_ne by done.
        repeat case_decide; try done; set_solver.
    + intros V [->|HV]%elem_of_cons; [eauto|by apply Hdef].
Qed.

Lemma intervene_loop_defined (N : CausalNetwork) (vars : list string) :
  ∀ new,
    (∀ V, V ∈ vars → is_Some (structural_equations N !! V)) →
    ∃ R, intervene_loop N new vars = Ok R.
Proof.
  induction vars as [|v vars IH]; intros new Hdef; simpl; [eauto|].
  destruct (Hdef v) as [f Hf]; [left|].
  unfold getitem. rewrite Hf. simpl. apply IH.
  intros V HV. apply Hdef. by right.
Qed.

Section intervene.
Context (N : CausalNetwork) (sigma : gmap string Z).

Lemma intervene_Ok (N' : CausalNetwork) :
  intervene N sigma = Ok N' →
  endogenous_bindings N' = sigma
  ∧ (∀ e, e ∈ graph N' ↔ e ∈ graph N)
  ∧ (∀ V, structural_equations N' !! V
          = if decide (V ∈ (signature N).2)
            then structural_equations N !! V else None)
  ∧ (∀ V, V ∈ (signature N).2 → is_Some (structural_equations N !! V)).
Proof.
  unfold intervene. intros (R & HR & [= <-])%bind_Ok.
  apply intervene_loop_Ok in HR as (Hb & Hg & HF & Hdef).
  cbn [endogenous_bindings graph structural_equations].
  split; [|split; [|split]].
  - rewrite Hb. apply foldl_insert_map_to_list.
  - intros [a b]. rewrite Hg. cbn [snd]. split.
    + intros [He|[_ ?]]; [by apply elem_of_nil in He|done].
    + intros He. right. split; [|done].
      apply elem_of_elements, elem_of_endogenous. eauto.
  - intros V. rewrite HF.
    destruct (decide (V ∈ (signature N).2)) as [HV|HV].
    + by rewrite decide_True by (by apply elem_of_elements).
    + by rewrite decide_False by (by rewrite elem_of_elements).
  - intros V HV. apply Hdef. by apply elem_of_elements.
Qed.

Lemma intervene_defined :
  (∀ V, V ∈ (signature N).2 → is_Some (structural_equations N !! V)) →
  ∃ N', intervene N sigma = Ok N'.
Proof.
  intros Hdef. unfold intervene.
  destruct (intervene_loop_defined N (elements (signature N).2)
              CausalNetwork_init) as [R HR].
  - intros V HV%elem_of_elements. by apply Hdef.
  - rewrite HR. simpl. eauto.
Qed.

Lemma intervene_signature (N' : CausalNetwork) :
  intervene N sigma = Ok N' → signature N' = signature N.
Proof. intros (_ & Hg & _)%intervene_Ok. by apply signature_edges. Qed.
End intervene.

Lemma predecessors_edges (g g' : list (string * string)) (V : string) :
  (∀ e, e ∈ g' ↔ e ∈ g) →
  list_to_set (NX.predecessors g' V) =@{gset string}
  list_to_set (NX.predecessors g V).
Proof.
  intros Hedges. apply set_eq. intros u.
  by rewrite !elem_of_list_to_set, !elem_of_predecessors.
Qed.

(** what [evaluate] gives for a pinned variable *)
Lemma evaluate_pinned (N : CausalNetwork) (c d : gmap string Z) (V : string) (x : Z) :
  evaluate N c = Ok d →
  endogenous_bindings N !! V = Some x →
  V ∈ NX.nodes (graph N) → V ∉ dom c →
  d !! V = Some x.
Proof.
  intros ([Hperm _] & _ & _ & Hvals)%evaluate_Ok Hb HV HVc.
  simpl in *. rewrite <-Hperm in HV.
  apply list_elem_of_lookup in HV as [j Hj].
  destruct (Hvals j V Hj HVc) as (y & Hy & Hd).
  rewrite (structural_equation_pinned N V _ x Hb) in Hy.
  by injection Hy as ->.
Qed.

(** C4, as stated, fails: the chain is intervened with [A <- 0] and then
    with the empty intervention.  [A] is pinned by the first intervention
    and is no variable of the second one, and yet its value is not the
    pinned 0 but 1, the value its equation gives. *)
Lemma second_intervention_forgets_first :
  ({[ "A" := 0%Z ]} : gmap string Z) !! "A" = Some 0%Z
  ∧ (∅ : gmap string Z) !! "A" = None
  ∧ Examples.twice_intervened = Ok {[ "A" := 1%Z ]}.
Proof. repeat split; vm_compute; reflexivity. Qed.

(** C4, amended: in a network where every endogenous variable has an
    equation, both [intervene(intervene(N, σ₁), σ₂)] and
    [intervene(N, σ₂)] are built; they have the same edges and the same
    equations, and the override map of both is exactly [σ₂]: the later
    intervention replaces the earlier one, whose pinned values are
    dropped.  Whenever one of the two networks is evaluated in a context,
    every endogenous variable overridden by [σ₂] and not set by the
    context gets the value [σ₂] gives it; and both evaluations do return
    when the graph is acyclic, the context assigns the exogenous
    variables, and every equation returns a value on the valuations that
    assign the parents of its variable. *)
Theorem intervene_twice (N : CausalNetwork) (sigma1 sigma2 c : gmap string Z) :
  (∀ V, V ∈ (signature N).2 → is_Some (structural_equations N !! V)) →
  ∃ N1 N12 N2,
    intervene N sigma1 = Ok N1
    ∧ intervene N1 sigma2 = Ok N12
    ∧ intervene N sigma2 = Ok N2
    ∧ endogenous_bindings N12 = sigma2
    ∧ endogenous_bindings N2 = sigma2
    ∧ (∀ e, e ∈ graph N12 ↔ e ∈ graph N2)
    ∧ structural_equations N12 = structural_equations N2
    ∧ (∀ V x d, sigma2 !! V = Some x → V ∈ (signature N).2 → V ∉ dom c →
                evaluate N12 c = Ok d ∨ evaluate N2 c = Ok d →
                d !! V = Some x)
    ∧ (acyclic (graph N) → (signature N).1 ⊆ dom c →
       (∀ V f m, structural_equations N !! V = Some f →
                 list_to_set (NX.predecessors (graph N) V) ⊆ dom m →
                 ∃ x, f m = Ok x) →
       ∃ d12 d2, evaluate N12 c = Ok d12 ∧ evaluate N2 c = Ok d2).
Proof.
  intros Hwf.
  destruct (intervene_defined N sigma1 Hwf) as [N1 HN1].
  destruct (intervene_defined N sigma2 Hwf) as [N2 HN2].
  pose proof (intervene_signature _ _ _ HN1) as Hsig1.
  destruct (intervene_Ok _ _ _ HN1) as (Hb1 & Hg1 & HF1 & _).
  destruct (intervene_Ok _ _ _ HN2) as (Hb2 & Hg2 & HF2 & _).
  destruct (intervene_defined N1 sigma2) as [N12 HN12].
  { intros V HV. rewrite Hsig1 in HV. rewrite HF1, decide_True by done.
    by apply Hwf. }
  destruct (intervene_Ok _ _ _ HN12) as (Hb12 & Hg12 & HF12 & _).
  assert (∀ e, e ∈ graph N12 ↔ e ∈ graph N) as Hg12'.
  { intros e. by rewrite Hg12, Hg1. }
  assert (structural_equations N12 = structural_equations N2) as HF.
  { apply map_eq. intros V. rewrite HF12, HF2, Hsig1, HF1.
    by case_decide. }
  exists N1, N12, N2.
  do 7 (split; [done || (intros e; by rewrite Hg12', Hg2)|]).
  (* what the two evaluations give *)
  assert (∀ N', (∀ e, e ∈ graph N' ↔ e ∈ graph N) →
                ∀ V, V ∈ (signature N).2 → V ∈ NX.nodes (graph N')) as Hnodes.
  { intros N' Hg V [u Hu]%elem_of_endogenous. apply Hg in Hu.
    by apply edge_nodes in Hu as [_ ?]. }
  split.
  - intros V x d Hx HV HVc [Hd|Hd].
    + eapply evaluate_pinned; [done| |by eapply Hnodes|done].
      by rewrite Hb12.
    + eapply evaluate_pinned; [done| |by eapply Hnodes|done].
      by rewrite Hb2.
  - intros Hacyclic Hc Hdef.
    assert (∀ N', (∀ e, e ∈ graph N' ↔ e ∈ graph N) →
                  structural_equations N' = structural_equations N2 →
                  ∃ d, evaluate N' c = Ok d) as Heval.
    { intros N' Hg HF'. apply evaluate_defined.
      - by apply (acyclic_edges (graph N)).
      - intros V m HV HVc Hm.
        assert (V ∈ (signature N).2) as Hendo.
        { rewrite <-(signature_edges N N' Hg).
          apply elem_of_signature in HV as [HV|HV]; [|done].
          rewrite (signature_edges N N' Hg) in HV. set_solver. }
        unfold structural_equation.
        destruct (endogenous_bindings N' !! V) as [pinned|]; [eauto|].
        destruct (Hwf V Hendo) as [f Hf].
        assert (structural_equations N' !! V = Some f) as HfN'.
        { by rewrite HF', HF2, decide_True by done. }
        unfold getitem. rewrite HfN'. simpl.
        apply (Hdef V f m Hf).
        by rewrite <-(predecessors_edges (graph N) (graph N') V Hg). }
    destruct (Heval N12 Hg12' HF) as [d12 Hd12].
    destruct (Heval N2 Hg2 eq_refl) as [d2 Hd2].
    eauto.
Qed.

(** ** Enumerations *)

Lemma elem_of_combinations {A} (l : list A) : ∀ (r : nat) (l' : list A),
  l' ∈ combinations l r ↔ l' `sublist_of` l ∧ length l' = r.
Proof.
  induction l as [|x l IH]; intros [|r] l'; simpl.
  - rewrite list_elem_of_singleton, sublist_nil_r. split; [by intros ->|tauto].
  - rewrite elem_of_nil, sublist_nil_r. split; [done|]. by intros [-> ?].
  - rewrite list_elem_of_singleton. split.
    + intros ->. split; [apply sublist_nil_l|done].
    + intros [_ Hlen]. by destruct l'.
  - rewrite elem_of_app, list_elem_of_fmap, sublist_cons_r.
    setoid_rewrite IH. split.
    + intros [(t & -> & Ht & <-)|[Hsub Hlen]]; [|auto].
      split; [right; eauto|done].
    + intros [[Hsub|(t & -> & Ht)] Hlen]; [auto|].
      left. exists t. simpl in Hlen. split; [done|]. split; [done|lia].
Qed.

Lemma elem_of_powerset {A} (l l' : list A) :
  l' ∈ powerset l ↔ l' `sublist_of` l.
Proof.
  unfold powerset. rewrite list_elem_of_bind.
  setoid_rewrite elem_of_combinations. setoid_rewrite elem_of_seq. split.
  - by intros (r & [? _] & _).
  - intros Hsub. exists (length l'). split; [done|].
    apply sublist_length in Hsub. lia.
Qed.

Lemma sublist_fst {A B} (l' l : list (A * B)) :
  l' `sublist_of` l → l'.*1 `sublist_of` l.*1.
Proof. induction 1; simpl; by constructor. Qed.

Lemma elem_of_powerdict (d d' : gmap string Z) :
  d' ∈ powerdict d ↔ d' ⊆ d.
Proof.
  unfold powerdict. rewrite list_elem_of_fmap.
  setoid_rewrite elem_of_powerset. split.
  - intros (l' & -> & Hsub). apply map_subseteq_spec. intros k v Hk.
    apply elem_of_list_to_map_2 in Hk.
    apply elem_of_map_to_list. by eapply elem_of_sublist.
  - intros Hsub.
    exists (filter (fun kv => d' !! kv.1 = Some kv.2) (map_to_list d)).
    split; [|apply sublist_filter].
    assert (NoDup (filter (fun kv : string * Z => d' !! kv.1 = Some kv.2)
                     (map_to_list d)).*1) as Hnd.
    { eapply sublist_NoDup; [apply (NoDup_fst_map_to_list d)|].
      apply sublist_fst, sublist_filter. }
    apply map_eq. intros k. symmetry.
    destruct (d' !! k) as [v|] eqn:Hk.
    + apply elem_of_list_to_map_1; [done|].
      apply list_elem_of_filter. split; [done|].
      apply elem_of_map_to_list. by eapply lookup_weaken.
    + apply not_elem_of_list_to_map_1.
      intros ([k' v] & -> & [Hv _]%list_elem_of_filter)%list_elem_of_fmap.
      simpl in *. congruence.
Qed.

Lemma elem_of_product {A} (ls : list (list A)) : ∀ vals : list A,
  vals ∈ product ls ↔ Forall2 (fun v l => v ∈ l) vals ls.
Proof.
  induction ls as [|l ls IH]; intros vals; simpl.
  - rewrite list_elem_of_singleton. split; [intros ->; constructor|].
    by intros ->%Forall2_nil_inv_r.
  - rewrite list_elem_of_bind. setoid_rewrite list_elem_of_fmap.
    setoid_rewrite IH. split.
    + intros (x & (t & -> & Ht) & Hx). by constructor.
    + intros (x & t & Hx & Ht & ->)%Forall2_cons_inv_r. eauto.
Qed.

(** a dict built by zipping distinct keys with values *)
Lemma lookup_list_to_map_zip (keys : list string) (vals : list Z) (k : string)
  (v : Z) :
  NoDup keys → length keys = length vals →
  (list_to_map (zip keys vals) : gmap string Z) !! k = Some v
  ↔ ∃ i, keys !! i = Some k ∧ vals !! i = Some v.
Proof.
  intros Hnd Hlen. rewrite <-elem_of_list_to_map.
  - rewrite list_elem_of_lookup. setoid_rewrite lookup_zip_with_Some.
    naive_solver.
  - rewrite fst_zip by lia. done.
Qed.

Lemma dom_list_to_map_zip (keys : list string) (vals : list Z) :
  length keys = length vals →
  dom (list_to_map (zip keys vals) : gmap string Z) = list_to_set keys.
Proof. intros Hlen. rewrite dom_list_to_map_L, fst_zip by lia. done. Qed.

(** the dicts over given distinct keys whose values are taken from the
    given lists, one list per key *)
Lemma zip_assignments (keys : list string) (ds : list (list Z))
  (a : gmap string Z) :
  NoDup keys → length keys = length ds →
  (∃ vals, Forall2 (fun v l => v ∈ l) vals ds
           ∧ a = list_to_map (zip keys vals))
  ↔ dom a = list_to_set keys
    ∧ ∀ i k l v, keys !! i = Some k → ds !! i = Some l →
                 a !! k = Some v → v ∈ l.
Proof.
  intros Hnd Hlen. split.
  - intros (vals & Hvals & ->).
    pose proof (Forall2_length _ _ _ Hvals) as Hlen'.
    split; [apply dom_list_to_map_zip; lia|].
    intros i k l v Hk Hl Hv.
    apply lookup_list_to_map_zip in Hv as (i' & Hk' & Hv); [|done|lia].
    assert (i' = i) as -> by (by eapply NoDup_lookup).
    by eapply (Forall2_lookup_lr _ vals ds i).
  - intros [Hdom Hvals].
    exists ((fun k => default 0%Z (a !! k)) <$> keys).
    assert (∀ i k, keys !! i = Some k → is_Some (a !! k)) as Hsome.
    { intros i k Hk. apply elem_of_dom. rewrite Hdom.
      apply elem_of_list_to_set. by eapply list_elem_of_lookup_2. }
    split.
    + apply Forall2_same_length_lookup_2; [by rewrite length_fmap|].
      intros i v l Hv Hl. rewrite list_lookup_fmap in Hv.
      destruct (keys !! i) as [k|] eqn:Hk; [|done]. injection Hv as <-.
      destruct (Hsome i k Hk) as [v Hv]. rewrite Hv. simpl. eauto.
    + apply map_eq. intros k. destruct (a !! k) as [v|] eqn:Hv.
      * symmetry. apply lookup_list_to_map_zip;
          [done|by rewrite length_fmap|].
        assert (k ∈ keys) as [i Hi]%list_elem_of_lookup.
        { apply (elem_of_list_to_set (C := gset string)). rewrite <-Hdom.
          by eapply elem_of_dom_2. }
        exists i. split; [done|]. by rewrite list_lookup_fmap, Hi; simpl; rewrite Hv.
      * symmetry. apply not_elem_of_dom.
        rewrite dom_list_to_map_zip by (by rewrite length_fmap).
        rewrite <-Hdom. by apply not_elem_of_dom.
Qed.

Lemma getitems_Ok {V} (d : gmap string V) (keys : list string) (vs : list V) :
  getitems d keys = Ok vs ↔ Forall2 (fun k v => d !! k = Some v) keys vs.
Proof.
  revert vs. induction keys as [|k keys IH]; intros vs; simpl.
  - split.
    + intros Heq. injection Heq as <-. apply Forall2_nil_2.
    + by intros ->%Forall2_nil_inv_l.
  - rewrite bind_Ok. setoid_rewrite bind_Ok. setoid_rewrite getitem_Ok.
    setoid_rewrite IH. split.
    + intros (v & Hv & vs' & Hvs & [= <-]). by constructor.
    + intros (v & vs' & Hv & Hvs & ->)%Forall2_cons_inv_l. eauto.
Qed.

Lemma getitems_defined {V} (d : gmap string V) (keys : list string) :
  (∀ k, k ∈ keys → is_Some (d !! k)) → ∃ vs, getitems d keys = Ok vs.
Proof.
  induction keys as [|k keys IH]; intros Hdef; simpl; [eauto|].
  destruct (Hdef k) as [v Hv]; [left|]. unfold getitem at 1. rewrite Hv.
  destruct IH as [vs ->]; [intros k' Hk'; apply Hdef; by right|].
  simpl. eauto.
Qed.

Lemma sorted_Permutation (l : list string) : sorted l ≡ₚ l.
Proof. apply merge_sort_Permutation. Qed.

Lemma find_exact_assignments_spec (doms : gmap string (gset Z))
  (variables : list string) :
  variables ≠ [] → NoDup variables →
  (∀ v, v ∈ variables → is_Some (doms !! v)) →
  ∃ L, find_exact_assignments doms variables = yield_all L StopIteration
       ∧ ∀ a : gmap string Z,
           a ∈ L ↔ dom a = list_to_set variables
                   ∧ ∀ V D x, doms !! V = Some D → a !! V = Some x → x ∈ D.
Proof.
  intros Hne Hnd Hdef. unfold find_exact_assignments.
  rewrite decide_False by done.
  assert (NoDup (sorted variables)) as Hnds by (by rewrite sorted_Permutation).
  destruct (getitems_defined doms (sorted variables)) as [ds Hds].
  { intros k Hk. apply Hdef. by rewrite <-(sorted_Permutation variables). }
  rewrite Hds. eexists. split; [done|]. intros a.
  apply getitems_Ok in Hds.
  pose proof (Forall2_length _ _ _ Hds) as Hlen.
  rewrite list_elem_of_fmap. setoid_rewrite elem_of_product.
  assert (list_to_set (sorted variables) =@{gset string} list_to_set variables)
    as Hset.
  { apply set_eq. intros k.
    by rewrite !elem_of_list_to_set, (sorted_Permutation variables). }
  rewrite <-Hset.
  transitivity (∃ vals, Forall2 (fun v l => v ∈ l) vals (elements <$> ds)
                        ∧ a = list_to_map (zip (sorted variables) vals));
    [naive_solver|].
  rewrite (zip_assignments (sorted variables) (elements <$> ds) a Hnds)
    by (by rewrite length_fmap).
  split; intros [Hdom Hvals]; (split; [done|]).
  - intros V D x HD Hx.
    assert (V ∈ sorted variables) as [i Hi]%list_elem_of_lookup.
    { apply (elem_of_list_to_set (C := gset string)). rewrite <-Hdom.
      by eapply elem_of_dom_2. }
    destruct (Forall2_lookup_l _ _ _ _ _ Hds Hi) as (D' & HD' & HVD').
    assert (D' = D) as -> by congruence.
    apply elem_of_elements. apply (Hvals i V (elements D) x); [done| |done].
    by rewrite list_lookup_fmap, HD'.
  - intros i k l v Hk Hl Hv. rewrite list_lookup_fmap in Hl.
    destruct (ds !! i) as [D|] eqn:HD; [|done]. injection Hl as <-.
    apply elem_of_elements. apply (Hvals k D v); [|done].
    by eapply (Forall2_lookup_lr _ _ _ i k D Hds).
Qed.

(** the total assignments over the domains: one value of its domain for
    each variable *)
Lemma find_exact_assignments_keys (doms : gmap string (gset Z)) :
  doms ≠ ∅ →
  ∃ L, find_exact_assignments doms (map_to_list doms).*1
       = yield_all L StopIteration
       ∧ ∀ a : gmap string Z,
           a ∈ L ↔ dom a = dom doms
                   ∧ ∀ V D x, doms !! V = Some D → a !! V = Some x → x ∈ D.
Proof.
  intros Hne.
  destruct (find_exact_assignments_spec doms (map_to_list doms).*1)
    as (L & HL & Hspec).
  - intros Hnil. apply fmap_nil_inv in Hnil.
    by apply map_to_list_empty_iff in Hnil.
  - apply NoDup_fst_map_to_list.
  - intros v ([k D] & -> & Hin%elem_of_map_to_list)%list_elem_of_fmap. eauto.
  - exists L. split; [done|]. intros a. rewrite Hspec.
    assert (list_to_set (map_to_list doms).*1 =@{gset string} dom doms) as ->;
      [|done].
    apply set_eq. intros k. rewrite elem_of_list_to_set, elem_of_dom.
    rewrite list_elem_of_fmap. split.
    + intros ([k' D] & -> & Hin%elem_of_map_to_list). eauto.
    + intros [D HD]. exists (k, D). by rewrite elem_of_map_to_list.
Qed.

(** ** Settings that were built *)

Lemma CausalSetting_init_Ok (N : CausalNetwork) (c : gmap string Z)
  (Dx Dy : gmap string (gset Z)) (S : CausalSetting) :
  CausalSetting_init N c Dx Dy = Ok S →
  (signature N).1 = dom c
  ∧ (signature N).1 = dom Dx
  ∧ (signature N).2 = dom Dy
  ∧ ∃ derived,
      evaluate N c = Ok derived
      ∧ S = {| causal_network := N;
               context := c;
               exogenous_domains := Dx;
               endogenous_domains := Dy;
               derived_values := derived;
               values := derived ∪ c |}.
Proof.
  unfold CausalSetting_init.
  destruct (signature N) as [exo endo]. cbn [fst snd].
  intros (_ & ?%assert_Ok%bool_decide_eq_true_1 & H)%bind_Ok.
  apply bind_Ok in H as (_ & ?%assert_Ok%bool_decide_eq_true_1 & H).
  apply bind_Ok in H as (_ & ?%assert_Ok%bool_decide_eq_true_1 & H).
  apply bind_Ok in H as (okc & _ & H).
  apply bind_Ok in H as (_ & _ & H).
  apply bind_Ok in H as (derived & Hd & H).
  apply bind_Ok in H as (okv & _ & H).
  apply bind_Ok in H as (_ & _ & H).
  injection H as <-. eauto 10.
Qed.

Lemma no_source_no_node (g : list (string * string)) (order : list string) :
  topological_order g order →
  (∀ v, v ∈ NX.nodes g → ∃ u, (u, v) ∈ g) →
  NX.nodes g = [].
Proof.
  intros [Hperm Horder] Hsrc.
  destruct order as [|v order].
  - by apply Permutation_nil_l in Hperm.
  - destruct (Hsrc v) as [u Hu]; [rewrite <-Hperm; left|].
    destruct (Horder u v 0%nat Hu eq_refl) as (i & Hi & _). lia.
Qed.

(** without exogenous variables there is no variable at all, and no event
    can be evaluated *)
Lemma no_exogenous_no_value (N : CausalNetwork) (c : gmap string Z)
  (Dx Dy : gmap string (gset Z)) (S : CausalSetting) :
  CausalSetting_init N c Dx Dy = Ok S → Dx = ∅ → values S = ∅.
Proof.
  intros (Hc & HDx & HDy & d & Hd & ->)%CausalSetting_init_Ok ->.
  rewrite dom_empty_L in HDx. cbn [values].
  destruct (evaluate_Ok N c d Hd) as (Horder & Hdom & _).
  simpl in Horder.
  assert (NX.nodes (graph N) = []) as Hnodes.
  { eapply no_source_no_node; [done|]. intros v Hv.
    apply elem_of_signature in Hv as [Hv|Hv].
    - rewrite HDx in Hv. by apply not_elem_of_empty in Hv.
    - by apply elem_of_endogenous. }
  rewrite Hnodes in Hdom. simpl in Hdom.
  assert (dom c = ∅) as Hc' by (by rewrite <-Hc).
  apply dom_empty_inv_L in Hc' as ->.
  assert (dom d = ∅) as Hd' by set_solver.
  apply dom_empty_inv_L in Hd' as ->.
  by rewrite (left_id_L ∅ (∪)).
Qed.

Lemma CausalFormula_no_exogenous (phi : CausalFormula) (S : CausalSetting) :
  exogenous_domains S = ∅ → CausalFormula_entailed_by phi S ≠ Ok true.
Proof.
  intros HDx. unfold CausalFormula_entailed_by.
  intros (N' & _ & (S' & HS' & He)%bind_Ok)%bind_Ok.
  apply no_exogenous_no_value in HS'; [|done].
  rewrite Event_entailed_by_first_variable in He; [done|].
  rewrite HS', dom_empty_L. apply not_elem_of_empty.
Qed.

(** ** SC3 *)

Lemma satisfies_sc3_loop_true (X : gmap string Z) (e : Event) (S : CausalSetting)
  (L : list (gmap string Z)) :
  satisfies_sc3_loop X e S (yield_all L StopIteration) = Ok true
  ↔ ∀ c', c' ∈ L →
      ∃ S', CausalSetting_init (causal_network S) c'
              (exogenous_domains S) (endogenous_domains S) = Ok S'
            ∧ CausalFormula_entailed_by
                {| intervention := X; event := e |} S' = Ok true.
Proof.
  induction L as [|c' L IH]; cbn [yield_all satisfies_sc3_loop].
  - split; [|done]. intros _ c' Hc'. by apply elem_of_nil in Hc'.
  - split.
    + intros (S' & HS' & H)%bind_Ok.
      apply bind_Ok in H as ([] & Hholds & Hrest); [|done].
      intros c'' [->|Hin]%elem_of_cons; [eauto|]. by apply IH.
    + intros Hall. destruct (Hall c') as (S' & HS' & Hholds); [left|].
      apply bind_Ok. exists S'. split; [done|].
      apply bind_Ok. exists true. split; [done|].
      apply IH. intros c'' Hin. apply Hall. by right.
Qed.

(** C3: [satisfies_sc3] returns true if and only if, for every total
    exogenous assignment [c'] drawn from the product of the exogenous
    domains, the setting [(N, c', Dx, Dy)] is built and the causal formula
    [[X] e] holds in it. *)
Theorem satisfies_sc3_iff (X : gmap string Z) (e : Event) (S : CausalSetting) :
  satisfies_sc3 X e S = Ok true
  ↔ ∀ c', total_assignment (exogenous_domains S) c' →
      ∃ S', CausalSetting_init (causal_network S) c'
              (exogenous_domains S) (endogenous_domains S) = Ok S'
            ∧ CausalFormula_entailed_by
                {| intervention := X; event := e |} S' = Ok true.
Proof.
  unfold satisfies_sc3.
  destruct (decide (exogenous_domains S = ∅)) as [Hempty|Hne].
  - (* no exogenous variable: [find_exact_assignments] asserts *)
    split.
    + rewrite Hempty, map_to_list_empty. done.
    + intros Hall. destruct (Hall ∅) as (S' & HS' & Hholds).
      { unfold total_assignment. rewrite Hempty, !dom_empty_L.
        split; [done|]. intros V D x HD. by rewrite lookup_empty in HD. }
      exfalso. eapply CausalFormula_no_exogenous; [|done].
      by apply CausalSetting_init_Ok in HS' as (_ & _ & _ & d & _ & ->).
  - destruct (find_exact_assignments_keys _ Hne) as (L & -> & HL).
    rewrite satisfies_sc3_loop_true. unfold total_assignment.
    by setoid_rewrite HL.
Qed.

(** ** AC3 *)

Lemma satisfies_ac3_loop_true (X : gmap string Z) (e : Event) (S : CausalSetting)
  (L : list (gmap string Z)) :
  satisfies_ac3_loop X e S L = Ok true
  ↔ ∀ X', X' ∈ L → X' ≠ X → is_weak_actual_cause X' e S = Ok false.
Proof.
  induction L as [|X0 L IH]; cbn [satisfies_ac3_loop].
  - split; [|done]. intros _ X' HX'. by apply elem_of_nil in HX'.
  - case_decide as Hne.
    + split.
      * intros ([] & Hweak & Hrest)%bind_Ok; [done|].
        intros X' [->|Hin]%elem_of_cons HX'; [done|]. by apply IH.
      * intros Hall. apply bind_Ok. exists false. split.
        -- apply Hall; [left|done].
        -- apply IH. intros X' Hin. apply Hall. by right.
    + rewrite IH. split.
      * intros Hall X' [->|Hin]%elem_of_cons HX'; [done|]. by apply Hall.
      * intros Hall X' Hin. apply Hall. by right.
Qed.

Lemma satisfies_ac3_loop_false (X : gmap string Z) (e : Event) (S : CausalSetting)
  (L : list (gmap string Z)) :
  satisfies_ac3_loop X e S L = Ok false →
  ∃ X', X' ∈ L ∧ X' ≠ X ∧ is_weak_actual_cause X' e S = Ok true.
Proof.
  induction L as [|X0 L IH]; cbn [satisfies_ac3_loop]; [done|].
  case_decide as Hne.
  - intros ([] & Hweak & Hrest)%bind_Ok.
    + exists X0. split; [left|done].
    + destruct (IH Hrest) as (X' & Hin & HX'). exists X'. split; [by right|done].
  - intros (X' & Hin & HX')%IH. exists X'. split; [by right|done].
Qed.

Lemma is_actual_cause_true (X : gmap string Z) (e : Event) (S : CausalSetting) :
  is_actual_cause X e S = Ok true
  ↔ is_weak_actual_cause X e S = Ok true ∧ satisfies_ac3 X e S = Ok true.
Proof.
  unfold is_actual_cause.
  destruct (is_weak_actual_cause X e S) as [[|]|x]; simpl; [|naive_solver..].
  destruct (satisfies_ac3 X e S) as [[|]|x]; simpl; naive_solver.
Qed.

Lemma satisfies_ac3_true (X : gmap string Z) (e : Event) (S : CausalSetting) :
  satisfies_ac3 X e S = Ok true
  ↔ ∀ X', X' ⊆ X → X' ≠ X → X' ≠ ∅ → is_weak_actual_cause X' e S = Ok false.
Proof.
  unfold satisfies_ac3. rewrite satisfies_ac3_loop_true.
  setoid_rewrite elem_of_powerdict. split.
  - intros Hall X' Hsub Hne _. by apply Hall.
  - intros Hall X' Hsub Hne. destruct (decide (X' = ∅)) as [->|Hne'].
    + apply is_weak_actual_cause_empty.
    + by apply Hall.
Qed.

(** C1: [is_actual_cause] returns true if and only if
    [is_weak_actual_cause] returns true for the candidate (AC1 and AC2
    hold) and returns false for each of its strict non-empty subsets.
    Also, whenever [is_actual_cause] returns a Boolean, that Boolean is
    true if and only if the candidate is a weak actual cause and no
    strict non-empty subset of it is one. *)
Theorem is_actual_cause_iff (X : gmap string Z) (e : Event) (S : CausalSetting) :
  (is_actual_cause X e S = Ok true
   ↔ is_weak_actual_cause X e S = Ok true
     ∧ ∀ X', X' ⊆ X → X' ≠ X → X' ≠ ∅ →
             is_weak_actual_cause X' e S = Ok false)
  ∧ ∀ b, is_actual_cause X e S = Ok b →
         (b = true
          ↔ is_weak_actual_cause X e S = Ok true
            ∧ ¬ ∃ X', X' ⊆ X ∧ X' ≠ X ∧ X' ≠ ∅
                      ∧ is_weak_actual_cause X' e S = Ok true).
Proof.
  split.
  - by rewrite is_actual_cause_true, satisfies_ac3_true.
  - intros b Hb. split.
    + intros ->. apply is_actual_cause_true in Hb as [Hweak Hac3].
      split; [done|]. intros (X' & Hsub & Hne & Hne' & HX').
      rewrite (proj1 (satisfies_ac3_true X e S) Hac3 X') in HX'; done.
    + intros [Hweak Hnone]. destruct b; [done|]. exfalso.
      unfold is_actual_cause in Hb. rewrite Hweak in Hb. simpl in Hb.
      apply bind_Ok in Hb as ([] & Hac3 & Hb); [done|].
      apply satisfies_ac3_loop_false in Hac3 as (X' & Hin & Hne & HX').
      apply Hnone. exists X'. rewrite elem_of_powerdict in Hin.
      split; [done|]. split; [done|]. split; [|done].
      intros ->. by rewrite is_weak_actual_cause_empty in HX'.
Qed.

(** ** AC2 *)

Lemma lookup_restricted_to (W : gset string) (vals : gmap string Z) (k : string) :
  restricted_to W vals !! k = if decide (k ∈ W) then vals !! k else None.
Proof.
  unfold restricted_to. case_decide as Hk.
  - destruct (vals !! k) as [v|] eqn:Hv.
    + by apply map_lookup_filter_Some.
    + apply map_lookup_filter_None. by left.
  - apply map_lookup_filter_None. right. by intros v _.
Qed.

Lemma restricted_to_subseteq (W : gset string) (vals : gmap string Z) :
  restricted_to W vals ⊆ vals.
Proof. apply map_filter_subseteq. Qed.

Lemma dom_restricted_to (W : gset string) (vals : gmap string Z) :
  W ⊆ dom vals → dom (restricted_to W vals) = W.
Proof.
  intros Hsub. apply set_eq. intros k.
  rewrite elem_of_dom, lookup_restricted_to. case_decide as Hk.
  - split; [done|]. intros _. apply elem_of_dom. by apply Hsub.
  - split; [by intros []|done].
Qed.

Lemma restrict_values_Ok (vals : gmap string Z) (keys : list string)
  (x : gmap string Z) :
  restrict_values vals keys = Ok x →
  x = restricted_to (list_to_set keys) vals
  ∧ ∀ k, k ∈ keys → is_Some (vals !! k).
Proof.
  revert x. induction keys as [|k keys IH]; intros x; simpl.
  - intros [= <-]. split.
    + apply map_eq. intros k. rewrite lookup_restricted_to.
      by rewrite lookup_empty, decide_False by set_solver.
    + intros k Hk. by apply elem_of_nil in Hk.
  - intros (v & Hv%getitem_Ok & H)%bind_Ok.
    apply bind_Ok in H as (d & Hd & [= <-]).
    destruct (IH d Hd) as [-> Hdef]. split.
    + apply map_eq. intros k'. rewrite lookup_restricted_to.
      destruct (decide (k' = k)) as [->|Hne].
      * rewrite lookup_insert_eq, decide_True by set_solver. done.
      * rewrite lookup_insert_ne, lookup_restricted_to by done.
        repeat case_decide; try done; set_solver.
    + intros k' [->|Hk']%elem_of_cons; [eauto|by apply Hdef].
Qed.

Lemma remaining_domains_Ok (doms : gmap string (gset Z)) (x : gmap string Z)
  (vars : list string) (ds : list (list Z)) :
  remaining_domains doms x vars = Ok ds →
  Forall2 (fun v l => ∃ D a, doms !! v = Some D ∧ x !! v = Some a
                             ∧ l = elements (D ∖ {[ a ]})) vars ds.
Proof.
  revert ds. induction vars as [|v vars IH]; intros ds; simpl.
  - intros [= <-]. constructor.
  - intros (D & HD%getitem_Ok & H)%bind_Ok.
    apply bind_Ok in H as (a & Ha%getitem_Ok & H).
    apply bind_Ok in H as (ds' & Hds' & [= <-]).
    constructor; [eauto 6|by apply IH].
Qed.

Lemma elem_of_witness_candidates (xvars : list string) (xd : list (list Z))
  (all_w witness : gmap string Z) :
  witness ∈ witness_candidates xvars xd all_w
  ↔ ∃ vals w, Forall2 (fun v l => v ∈ l) vals xd ∧ w ⊆ all_w
              ∧ witness = w ∪ list_to_map (zip xvars vals).
Proof.
  unfold witness_candidates. rewrite list_elem_of_bind. split.
  - intros (vals & (w & ->%list_elem_of_singleton & Hw%elem_of_powerdict)
                     %list_elem_of_bind
                  & Hvals%elem_of_product). eauto.
  - intros (vals & w & Hvals & Hw & ->). exists vals.
    split; [|by apply elem_of_product].
    apply list_elem_of_bind. exists w.
    split; [by apply list_elem_of_singleton|by apply elem_of_powerdict].
Qed.

Lemma yield_if_Yield {A} (test : A → result bool) (l : list A) a rest :
  yield_if test l = Yield a rest → a ∈ l ∧ test a = Ok true.
Proof.
  induction l as [|a0 l IH]; simpl; [done|].
  destruct (test a0) as [[|]|x] eqn:Ha0; [| |done].
  - intros [= <- _]. split; [left|done].
  - intros [? ?]%IH. split; [by right|done].
Qed.

Lemma yield_if_StopIteration {A} (test : A → result bool) (l : list A) :
  yield_if test l = StopIteration → ∀ a, a ∈ l → test a = Ok false.
Proof.
  induction l as [|a0 l IH]; simpl.
  - intros _ a Ha. by apply elem_of_nil in Ha.
  - destruct (test a0) as [[|]|x] eqn:Ha0; [done| |done].
    intros Hstop a [->|Ha]%elem_of_cons; [done|by apply IH].
Qed.

Lemma restrict_values_defined (vals : gmap string Z) (keys : list string) :
  (∀ k, k ∈ keys → is_Some (vals !! k)) →
  ∃ x, restrict_values vals keys = Ok x.
Proof.
  induction keys as [|k keys IH]; intros Hdef; simpl; [eauto|].
  destruct (Hdef k) as [v Hv]; [left|]. unfold getitem. rewrite Hv. simpl.
  destruct IH as [x ->]; [intros k' Hk'; apply Hdef; by right|].
  simpl. eauto.
Qed.

Lemma remaining_domains_defined (doms : gmap string (gset Z))
  (x : gmap string Z) (vars : list string) :
  (∀ v, v ∈ vars → is_Some (doms !! v) ∧ is_Some (x !! v)) →
  ∃ ds, remaining_domains doms x vars = Ok ds.
Proof.
  induction vars as [|v vars IH]; intros Hdef; simpl; [eauto|].
  destruct (Hdef v) as [[D HD] [a Ha]]; [left|].
  unfold getitem. rewrite HD, Ha. simpl.
  destruct IH as [ds ->]; [intros v' Hv'; apply Hdef; by right|].
  simpl. eauto.
Qed.

Lemma list_to_set_keys (X : gmap string Z) :
  list_to_set (map_to_list X).*1 =@{gset string} dom X.
Proof.
  apply set_eq. intros k.
  rewrite elem_of_list_to_set, elem_of_dom, list_elem_of_fmap. split.
  - intros ([k' v] & -> & Hin%elem_of_map_to_list). eauto.
  - intros [v Hv]. exists (k, v). by rewrite elem_of_map_to_list.
Qed.

(** [find_witnesses_ac2] raises before its loops only when the candidate
    cannot be searched *)
Lemma find_witnesses_ac2_searchable (X : gmap string Z) (e : Event)
  (S : CausalSetting) :
  (∀ err, find_witnesses_ac2 X e S ≠ Throw err) → ac2_searchable X S.
Proof.
  unfold find_witnesses_ac2. intros Hok.
  destruct (restrict_values (values S) (map_to_list X).*1) as [x|err] eqn:Hx;
    simpl in *; [|by destruct (Hok err)].
  destruct (restrict_values (values S)
              (elements (dom (endogenous_domains S) ∖ dom X)))
    as [all_w|err] eqn:Hw; simpl in *; [|by destruct (Hok err)].
  destruct (remaining_domains (endogenous_domains S) x
              (sorted (map_to_list x).*1)) as [xd|err] eqn:Hxd;
    simpl in *; [|by destruct (Hok err)].
  apply restrict_values_Ok in Hx as [Hx HxX].
  apply restrict_values_Ok in Hw as [Hw HwW].
  apply remaining_domains_Ok in Hxd.
  rewrite list_to_set_keys in Hx.
  assert (dom X ⊆ dom (values S)) as HXvals.
  { intros k Hk. apply elem_of_dom, HxX.
    by apply (elem_of_list_to_set (C := gset string));
      rewrite list_to_set_keys. }
  split; [done|]. split.
  - intros k Hk.
    assert (k ∈ sorted (map_to_list x).*1) as [i Hi]%list_elem_of_lookup.
    { rewrite sorted_Permutation.
      apply (elem_of_list_to_set (C := gset string)).
      rewrite list_to_set_keys. subst x. by rewrite dom_restricted_to. }
    destruct (Forall2_lookup_l _ _ _ _ _ Hxd Hi) as (l & _ & D & a & HD & _).
    by eapply elem_of_dom_2.
  - intros k Hk. apply elem_of_dom, HwW. by apply elem_of_elements.
Qed.

(** the interventions that [find_witnesses_ac2] tries *)
Lemma find_witnesses_ac2_search (X : gmap string Z) (e : Event)
  (S : CausalSetting) :
  ac2_searchable X S →
  ∃ L, find_witnesses_ac2 X e S
       = yield_if
           (fun witness =>
              CausalFormula_entailed_by
                {| intervention := witness; event := Negation e |} S) L
       ∧ ∀ witness,
           witness ∈ L
           ↔ ∃ x' W, alternative_to (values S) (endogenous_domains S) X x'
                     ∧ W ⊆ dom (endogenous_domains S) ∖ dom X
                     ∧ witness = restricted_to W (values S) ∪ x'.
Proof.
  unfold find_witnesses_ac2. intros (HXvals0 & HXDy & HWvals).
  destruct (restrict_values_defined (values S) (map_to_list X).*1)
    as [x Hx].
  { intros k Hk. apply elem_of_dom, HXvals0. rewrite <-list_to_set_keys.
    by apply elem_of_list_to_set. }
  destruct (restrict_values_defined (values S)
              (elements (dom (endogenous_domains S) ∖ dom X)))
    as [all_w Hw].
  { intros k Hk%elem_of_elements. by apply elem_of_dom, HWvals. }
  rewrite Hx, Hw. simpl.
  assert (dom x = dom X) as Hdomx0.
  { apply restrict_values_Ok in Hx as [-> _].
    rewrite list_to_set_keys. by apply dom_restricted_to. }
  destruct (remaining_domains_defined (endogenous_domains S) x
              (sorted (map_to_list x).*1)) as [xd Hxd].
  { intros v Hv. rewrite sorted_Permutation in Hv.
    assert (v ∈ dom X) as HvX.
    { rewrite <-Hdomx0, <-list_to_set_keys. by apply elem_of_list_to_set. }
    split; apply elem_of_dom; [by apply HXDy|by rewrite Hdomx0]. }
  rewrite Hxd. simpl.
  eexists. split; [done|]. intros witness.
  rewrite elem_of_witness_candidates.
  apply restrict_values_Ok in Hx as [Hx HxX].
  apply restrict_values_Ok in Hw as [Hw HwW].
  apply remaining_domains_Ok in Hxd.
  pose proof (list_to_set_keys X) as HkeysX.
  rewrite HkeysX in Hx.
  rewrite list_to_set_elements_L in Hw.
  assert (dom X ⊆ dom (values S)) as HXvals.
  { intros k Hk. apply elem_of_dom, HxX.
    by apply (elem_of_list_to_set (C := gset string)); rewrite HkeysX. }
  assert (dom x = dom X) as Hdomx by (subst x; by apply dom_restricted_to).
  set (xvars := sorted (map_to_list x).*1) in *.
  assert (NoDup xvars) as Hnd.
  { unfold xvars. rewrite sorted_Permutation. apply NoDup_fst_map_to_list. }
  assert (list_to_set xvars =@{gset string} dom X) as Hxvars.
  { rewrite <-Hdomx. apply set_eq. intros k. unfold xvars.
    rewrite elem_of_list_to_set, sorted_Permutation, elem_of_dom,
      list_elem_of_fmap. split.
    - intros ([k' v] & -> & Hin%elem_of_map_to_list). eauto.
    - intros [v Hv]. exists (k, v). by rewrite elem_of_map_to_list. }
  pose proof (Forall2_length _ _ _ Hxd) as Hlen.
  (* the alternative values *)
  assert (∀ x' : gmap string Z,
    (∃ vals, Forall2 (fun v l => v ∈ l) vals xd
             ∧ x' = list_to_map (zip xvars vals))
    ↔ alternative_to (values S) (endogenous_domains S) X x') as Halt.
  { intros x'. rewrite (zip_assignments xvars xd x' Hnd Hlen).
    unfold alternative_to. rewrite Hxvars.
    split; intros [Hdom Hvals]; (split; [done|]).
    - intros V v Hv.
      assert (V ∈ xvars) as [i Hi]%list_elem_of_lookup.
      { apply (elem_of_list_to_set (C := gset string)).
        rewrite Hxvars, <-Hdom. by eapply elem_of_dom_2. }
      destruct (Forall2_lookup_l _ _ _ _ _ Hxd Hi)
        as (l & Hl & D & a & HD & Ha & ->).
      exists D, a. split; [done|]. split.
      { rewrite Hx, lookup_restricted_to in Ha. by case_decide. }
      specialize (Hvals i V _ v Hi Hl Hv).
      apply elem_of_elements in Hvals. set_solver.
    - intros i k l v Hk Hl Hv.
      destruct (Hvals k v Hv) as (D & a & HD & Ha & HvD & Hne).
      destruct (Forall2_lookup_lr _ _ _ i k l Hxd Hk Hl)
        as (D' & a' & HD' & Ha' & ->).
      rewrite Hx, lookup_restricted_to in Ha'.
      case_decide; [|done]. simplify_eq.
      apply elem_of_elements. set_solver. }
  (* the values kept fixed *)
  assert (∀ w : gmap string Z,
    w ⊆ all_w
    ↔ ∃ W, W ⊆ dom (endogenous_domains S) ∖ dom X
           ∧ w = restricted_to W (values S)) as Hfix.
  { intros w. split.
    - intros Hsub. exists (dom w). split.
      + intros k Hk. apply elem_of_dom in Hk as [v Hv].
        eapply lookup_weaken in Hv; [|done].
        rewrite Hw, lookup_restricted_to in Hv. by case_decide.
      + symmetry. apply filter_dom_subseteq. etrans; [done|].
        rewrite Hw. apply restricted_to_subseteq.
    - intros (W & HW & ->). rewrite Hw. apply map_subseteq_spec.
      intros k v. rewrite !lookup_restricted_to.
      repeat case_decide; try done. set_solver. }
  split.
  - intros (vals & w & Hvals & (W & HW & ->)%Hfix & ->).
    exists (list_to_map (zip xvars vals)), W.
    split; [apply Halt; eauto|done].
  - intros (x' & W & (vals & Hvals & ->)%Halt & HW & ->).
    exists vals, (restricted_to W (values S)).
    split; [done|]. split; [apply Hfix; eauto|done].
Qed.

Lemma find_witnesses_ac2_candidates (X : gmap string Z) (e : Event)
  (S : CausalSetting) :
  (∀ err, find_witnesses_ac2 X e S ≠ Throw err) →
  ∃ L, find_witnesses_ac2 X e S
       = yield_if
           (fun witness =>
              CausalFormula_entailed_by
                {| intervention := witness; event := Negation e |} S) L
       ∧ ∀ witness,
           witness ∈ L
           ↔ ∃ x' W, alternative_to (values S) (endogenous_domains S) X x'
                     ∧ W ⊆ dom (endogenous_domains S) ∖ dom X
                     ∧ witness = restricted_to W (values S) ∪ x'.
Proof.
  intros Hok. apply find_witnesses_ac2_search.
  by apply (find_witnesses_ac2_searchable X e S).
Qed.

(** C2, as stated, fails: the engine takes the alternative values of a
    variable of the candidate from its domain minus the actual value of
    the variable in the setting, not minus the value the candidate gives
    it.  In the chain with [A = 1], the candidate [A = 0] satisfies AC2 for
    the event [A = 1] (setting [A] to 0 makes the event false), although
    there is no witness whose alternative value differs from the
    candidate's 0. *)
Lemma satisfies_ac2_against_actual_values :
  satisfies_ac2 {[ "A" := 0%Z ]} Examples.A_is_1 Examples.chain_setting
    = Ok true
  ∧ ¬ ∃ x' W, ac2_witness {[ "A" := 0%Z ]} {[ "A" := 0%Z ]}
                Examples.A_is_1 Examples.chain_setting x' W.
Proof.
  split; [vm_compute; reflexivity|].
  intros (x' & W & [Hdom Halt] & HW & Hholds).
  assert (W = ∅) as ->.
  { apply set_eq. intros k. split; [|by intros ?%not_elem_of_empty].
    intros Hk%HW. vm_compute in Hk. set_solver. }
  assert (x' = {[ "A" := 1%Z ]}) as ->.
  { rewrite dom_singleton_L in Hdom.
    assert (is_Some (x' !! "A")) as [v Hv].
    { apply elem_of_dom. rewrite Hdom. set_solver. }
    destruct (Halt "A" v Hv) as (D & a & HD & Ha & HvD & Hne).
    injection HD as <-. injection Ha as <-.
    assert (v = 1%Z) as -> by (unfold Examples.boolean in HvD; set_solver).
    apply map_eq. intros k. destruct (decide (k = "A")) as [->|Hk].
    - by rewrite lookup_singleton_eq.
    - rewrite lookup_singleton_ne by done. apply not_elem_of_dom.
      rewrite Hdom. set_solver. }
  vm_compute in Hholds. discriminate.
Qed.

(** C2, amended: for a non-empty candidate [X], whenever
    [satisfies_ac2(X, e, S)] returns a Boolean, it is true if and only if
    there are an alternative assignment [x'] over the variables of [X],
    with [x'[V]] in [Dy[V]] minus the actual value [S.values[V]], and a
    set [W] of endogenous variables outside [X], such that the causal
    formula [[x' ∪ w] ¬e] holds in [S] for [w] the values of [S] on [W]. *)
Theorem satisfies_ac2_iff (X : gmap string Z) (e : Event) (S : CausalSetting)
  (b : bool) :
  X ≠ ∅ →
  satisfies_ac2 X e S = Ok b →
  (b = true ↔ ∃ x' W, ac2_witness (values S) X e S x' W).
Proof.
  intros HX. unfold satisfies_ac2. rewrite decide_False by done.
  intros Hb.
  destruct (find_witnesses_ac2_candidates X e S) as (L & HL & Hspec).
  { intros err Herr. by rewrite Herr in Hb. }
  rewrite HL in Hb. unfold ac2_witness. split.
  - intros ->.
    destruct (yield_if _ L) as [|witness rest|err] eqn:Hgen; [done| |done].
    apply yield_if_Yield in Hgen as [Hin Htest].
    apply Hspec in Hin as (x' & W & Halt & HW & ->). eauto.
  - intros (x' & W & Halt & HW & Hholds).
    destruct (yield_if _ L) as [|witness rest|err] eqn:Hgen;
      [|by injection Hb|done].
    rewrite (yield_if_StopIteration _ _ Hgen) in Hholds; [done|].
    apply Hspec. eauto.
Qed.

Lemma satisfies_ac2_iff_witness :
  ({[ "A" := 1%Z ]} : gmap string Z) ≠ ∅
  ∧ ∃ x' W, ac2_witness (values Examples.chain_setting) {[ "A" := 1%Z ]}
              Examples.A_is_1 Examples.chain_setting x' W.
Proof.
  assert (({[ "A" := 1%Z ]} : gmap string Z) ≠ ∅) as Hne.
  { apply insert_non_empty. }
  split; [exact Hne|].
  apply (satisfies_ac2_iff {[ "A" := 1%Z ]} Examples.A_is_1
           Examples.chain_setting true Hne); reflexivity.
Defined.

(** ** Evaluation of formulas never fails on a well-formed model *)

Lemma all_in_domain_assert (vals : gmap string Z) (doms : gmap string (gset Z))
  (ok : bool) :
  all_in_domain vals (map_to_list doms) = Ok ok → assert ok = Ok tt →
  ∀ V D, doms !! V = Some D → ∃ x, vals !! V = Some x ∧ x ∈ D.
Proof.
  intros Hall ->%assert_Ok V D HD.
  apply (proj1 (all_in_domain_true _ _) Hall). by apply elem_of_map_to_list.
Qed.

Lemma CausalSetting_init_domains (N : CausalNetwork) (c : gmap string Z)
  (Dx Dy : gmap string (gset Z)) (S : CausalSetting) :
  CausalSetting_init N c Dx Dy = Ok S →
  (∀ V D, Dx !! V = Some D → ∃ x, c !! V = Some x ∧ x ∈ D)
  ∧ (∀ V D, Dy !! V = Some D → ∃ x, values S !! V = Some x ∧ x ∈ D).
Proof.
  unfold CausalSetting_init.
  destruct (signature N) as [exo endo]. cbn [fst snd].
  intros (_ & _ & H)%bind_Ok.
  apply bind_Ok in H as (_ & _ & H).
  apply bind_Ok in H as (_ & _ & H).
  apply bind_Ok in H as (okc & Hokc & H).
  apply bind_Ok in H as ([] & Hc & H).
  apply bind_Ok in H as (derived & Hd & H).
  apply bind_Ok in H as (okv & Hokv & H).
  apply bind_Ok in H as ([] & Hv & H).
  injection H as <-. cbn [values].
  split; by eapply all_in_domain_assert.
Qed.

Lemma CausalSetting_init_built (N : CausalNetwork) (c : gmap string Z)
  (Dx Dy : gmap string (gset Z)) (derived : gmap string Z) :
  (signature N).1 = dom c → (signature N).1 = dom Dx →
  (signature N).2 = dom Dy →
  (∀ V D, Dx !! V = Some D → ∃ x, c !! V = Some x ∧ x ∈ D) →
  evaluate N c = Ok derived →
  (∀ V D x, Dy !! V = Some D → derived !! V = Some x → x ∈ D) →
  CausalSetting_init N c Dx Dy
  = Ok {| causal_network := N;
          context := c;
          exogenous_domains := Dx;
          endogenous_domains := Dy;
          derived_values := derived;
          values := derived ∪ c |}.
Proof.
  intros Hc HDx HDy Hctx Hd Hvals.
  pose proof (dom_evaluate N c derived Hd (eq_sym Hc)) as Hdom.
  unfold CausalSetting_init.
  destruct (signature N) as [exo endo]. cbn [fst snd] in *.
  rewrite (bool_decide_eq_true_2 _ Hc), (bool_decide_eq_true_2 _ HDx),
    (bool_decide_eq_true_2 _ HDy). simpl.
  rewrite (proj2 (all_in_domain_true c (map_to_list Dx))); last first.
  { intros v D Hin%elem_of_map_to_list. by apply Hctx. }
  simpl. rewrite Hd. simpl.
  rewrite (proj2 (all_in_domain_true (derived ∪ c) (map_to_list Dy)));
    [done|].
  intros v D Hin%elem_of_map_to_list.
  assert (v ∈ dom derived) as [x Hx]%elem_of_dom.
  { rewrite Hdom, HDy. by eapply elem_of_dom_2. }
  exists x. split; [by apply lookup_union_Some_l|]. by eapply Hvals.
Qed.

(** a property of the running valuation that every step keeps holds at
    the end of the loop, which then returns *)
Lemma evaluate_loop_invariant (N : CausalNetwork) (P : gmap string Z → Prop)
  (G : generator string) :
  ∀ vals,
    ending G = Ok tt →
    P vals →
    (∀ j V m, yielded G !! j = Some V → m !! V = None → P m →
              vals ⊆ m ∧ list_to_set (take j (yielded G)) ⊆ dom m →
              ∃ x, structural_equation N V m = Ok x ∧ P (<[V:=x]> m)) →
    ∃ final, evaluate_loop N vals G = Ok final ∧ P final.
Proof.
  induction G as [|v G IH|e]; intros vals Hend HP Hstep; simpl in *.
  - eauto.
  - destruct (vals !! v) as [x0|] eqn:Hv.
    + apply IH; [done|done|]. intros j V m Hj HmV HPm [Hsub Hdm].
      apply (Hstep (S j) V m); [done..|]. split; [done|]. simpl.
      assert (v ∈ dom m) by (eapply elem_of_dom_2, lookup_weaken; done).
      set_solver.
    + destruct (Hstep 0%nat v vals) as (x & Hx & HPx);
        [done|done|done|split; [done|set_solver]|].
      rewrite Hx. simpl. apply IH; [done|done|].
      intros j V m Hj HmV HPm [Hsub Hdm].
      apply (Hstep (S j) V m); [done..|]. split.
      * etrans; [|done]. by apply insert_subseteq.
      * simpl.
        assert (v ∈ dom m).
        { eapply elem_of_dom_2, lookup_weaken; [|done].
          apply lookup_insert_eq. }
        set_solver.
  - done.
Qed.

Section intervened_setting.
Context (N : CausalNetwork) (c : gmap string Z) (Dx Dy : gmap string (gset Z)).
Context (S : CausalSetting).
Hypothesis HS : CausalSetting_init N c Dx Dy = Ok S.
Hypothesis Heq : equations_defined N Dx Dy.

Lemma setting_acyclic : acyclic (graph N).
Proof.
  apply CausalSetting_init_Ok in HS as (_ & _ & _ & d & Hd & _).
  apply evaluate_Ok in Hd as (Horder & _).
  by eapply topological_order_acyclic.
Qed.

Lemma dom_values_setting :
  dom (values S) = list_to_set (NX.nodes (graph N)).
Proof.
  pose proof HS as (Hc & _ & _ & d & Hd & ->)%CausalSetting_init_Ok.
  cbn [values]. rewrite dom_union_L, (dom_evaluate N c d Hd), <-Hc by done.
  apply set_eq. intros v.
  rewrite elem_of_union, elem_of_list_to_set, elem_of_signature. tauto.
Qed.

Lemma intervened_setting_defined (sigma : gmap string Z) :
  within_domains Dy sigma →
  ∃ N' S', intervene N sigma = Ok N'
           ∧ CausalSetting_init N' c Dx Dy = Ok S'
           ∧ dom (values S') = dom (values S).
Proof.
  intros Hsigma. destruct Heq as [Hwf Hdef].
  destruct (intervene_defined N sigma Hwf) as [N' HN'].
  pose proof (intervene_signature _ _ _ HN') as Hsig.
  destruct (intervene_Ok _ _ _ HN') as (Hb & Hg & HF & _).
  pose proof HS as (Hc & HDx & HDy & d & Hd & HSeq)%CausalSetting_init_Ok.
  destruct (CausalSetting_init_domains _ _ _ _ _ HS) as [Hctx _].
  assert (acyclic (graph N')) as Hacyclic.
  { apply (acyclic_edges (graph N)); [done|apply setting_acyclic]. }
  pose proof (topological_sort_complete _ Hacyclic) as Hend.
  destruct (topological_sort_Ok _ Hend) as [Hperm Horder].
  set (P := fun m : gmap string Z =>
              ∀ u y Du, m !! u = Some y → (Dx ∪ Dy) !! u = Some Du → y ∈ Du).
  destruct (evaluate_loop_invariant N' P (NX.topological_sort (graph N')) c)
    as (final & Hloop & HP); [done| | |].
  - intros u y Du Hy HDu.
    assert (is_Some (Dx !! u)) as [Du' HDu'].
    { apply elem_of_dom. rewrite <-HDx, Hc. by eapply elem_of_dom_2. }
    rewrite (lookup_union_Some_l Dx Dy u Du' HDu') in HDu.
    injection HDu as <-.
    destruct (Hctx u Du' HDu') as (y' & Hy' & HyD). congruence.
  - intros j V m Hj HmV HPm Hdm.
    assert (V ∈ NX.nodes (graph N')) as HV.
    { rewrite <-Hperm. by eapply list_elem_of_lookup_2. }
    assert (V ∈ (signature N).2) as Hendo.
    { rewrite <-Hsig. apply elem_of_signature in HV as [HV|HV]; [|done].
      rewrite Hsig, Hc in HV. apply elem_of_dom in HV as [y Hy].
      assert (c ⊆ m) as Hcm; [|by rewrite (lookup_weaken _ _ _ _ Hy Hcm) in HmV].
      destruct Hdm as [Hcm _]. done. }
    assert (is_Some (Dy !! V)) as [D HD].
    { apply elem_of_dom. by rewrite <-HDy. }
    assert (Dx !! V = None) as HDxV.
    { apply not_elem_of_dom. rewrite <-HDx. intros HVx.
      by eapply signature_disjoint. }
    assert (∀ x, x ∈ D → P (<[V:=x]> m)) as HPins.
    { intros x HxD u y Du Hy HDu.
      destruct (decide (u = V)) as [->|Hne].
      - rewrite lookup_insert_eq in Hy. injection Hy as <-.
        rewrite lookup_union_r in HDu by done. congruence.
      - rewrite lookup_insert_ne in Hy by done. by eapply HPm. }
    unfold structural_equation. rewrite Hb.
    destruct (sigma !! V) as [pinned|] eqn:Hpin.
    + exists pinned. split; [done|]. apply HPins. by eapply Hsigma.
    + destruct (Hwf V Hendo) as [f Hf].
      assert (structural_equations N' !! V = Some f) as Hf'.
      { by rewrite HF, decide_True by done. }
      unfold getitem. rewrite Hf'. simpl.
      destruct (Hdef V f D m Hf HD) as (x & Hx & HxD); [|eauto].
      intros u Hu. apply Hg in Hu.
      destruct (Horder u V j Hu Hj) as (i & Hi & Hui).
      assert (u ∈ dom m) as [y Hy]%elem_of_dom.
      { destruct Hdm as [_ Hdm]. apply Hdm.
        apply elem_of_list_to_set, list_elem_of_lookup.
        exists i. by apply lookup_take_Some. }
      assert (is_Some ((Dx ∪ Dy) !! u)) as [Du HDu].
      { apply elem_of_dom. rewrite dom_union_L, <-HDx, <-HDy.
        apply Hg, edge_nodes in Hu as [Hu _].
        apply elem_of_signature in Hu. set_solver. }
      exists y, Du. split; [done|]. split; [done|]. by eapply HPm.
  - pose proof Hloop as (_ & Hsub & Hdomf & _)%evaluate_loop_spec.
    set (d' := filter (fun kv : string * Z => c !! kv.1 = None) final).
    assert (evaluate N' c = Ok d') as Hd'.
    { unfold evaluate. by rewrite Hloop. }
    pose proof (dom_evaluate N' c d' Hd') as Hdomd'.
    rewrite Hsig in Hdomd'. specialize (Hdomd' (eq_sym Hc)).
    eexists N', _. split; [done|]. split.
    + apply (CausalSetting_init_built N' c Dx Dy d');
        [by rewrite Hsig..|done|done|].
      intros V D x HD Hx.
      apply map_lookup_filter_Some in Hx as [Hx _].
      apply (HP V x D Hx).
      rewrite lookup_union_r; [done|].
      apply not_elem_of_dom. rewrite <-HDx. intros HVx.
      assert (V ∈ (signature N).2) as HVy.
      { rewrite HDy. by eapply elem_of_dom_2. }
      by eapply signature_disjoint.
    + cbn [values]. rewrite HSeq. cbn [values].
      rewrite !dom_union_L, Hdomd', (dom_evaluate N c d Hd) by done. done.
Qed.

Lemma CausalFormula_entailed_by_defined (phi : CausalFormula) :
  within_domains Dy (intervention phi) →
  Event_variables (event phi) ⊆ dom (values S) →
  ∃ b, CausalFormula_entailed_by phi S = Ok b.
Proof.
  intros Hsigma Hvars. unfold CausalFormula_entailed_by.
  pose proof HS as (_ & _ & _ & d & _ & HSeq)%CausalSetting_init_Ok.
  destruct (intervened_setting_defined (intervention phi) Hsigma)
    as (N' & S' & HN' & HS' & Hdom).
  rewrite HSeq in *. cbn [causal_network context exogenous_domains
                          endogenous_domains] in *.
  rewrite HN'. simpl. rewrite HS'. simpl.
  apply Event_entailed_by_defined. by rewrite Hdom.
Qed.
End intervened_setting.

(** ** The decision procedures return on a well-formed model *)

Lemma yield_if_defined {A} (test : A → result bool) (l : list A) :
  (∀ a, a ∈ l → ∃ b, test a = Ok b) → ∀ err, yield_if test l ≠ Throw err.
Proof.
  induction l as [|a l IH]; intros Hdef err; simpl; [done|].
  destruct (Hdef a) as [b ->]; [left|].
  destruct b; [done|]. apply IH. intros a' Ha'. apply Hdef. by right.
Qed.

Lemma assignments2conjunction_pop_variables (popped : list (string * Z))
  (right_child : Event) :
  Event_variables (assignments2conjunction_pop popped right_child)
  = list_to_set popped.*1 ∪ Event_variables right_child.
Proof.
  revert right_child. induction popped as [|[k v] popped IH];
    intros right_child; simpl.
  - set_solver.
  - rewrite IH. simpl. set_solver.
Qed.

Lemma assignments2conjunction_Ok (X : gmap string Z) :
  X ≠ ∅ →
  ∃ conjunction, assignments2conjunction X = Ok conjunction
                 ∧ Event_variables conjunction = dom X.
Proof.
  intros HX. unfold assignments2conjunction.
  assert (list_to_set (reverse (map_to_list X)).*1 =@{gset string} dom X)
    as Hkeys.
  { rewrite <-list_to_set_keys. apply set_eq. intros k.
    by rewrite !elem_of_list_to_set, fmap_reverse, elem_of_reverse. }
  destruct (reverse (map_to_list X)) as [|[k v] popped] eqn:Hrev.
  - apply (f_equal reverse) in Hrev. rewrite reverse_involutive in Hrev.
    by apply map_to_list_empty_iff in Hrev.
  - eexists. split; [done|].
    rewrite assignments2conjunction_pop_variables, <-Hkeys. simpl.
    set_solver.
Qed.

Section defined.
Context (N : CausalNetwork) (c : gmap string Z) (Dx Dy : gmap string (gset Z)).
Context (S : CausalSetting) (e : Event).
Hypothesis HS : CausalSetting_init N c Dx Dy = Ok S.
Hypothesis Heq : equations_defined N Dx Dy.
Hypothesis He : Event_variables e ⊆ dom (values S).

Lemma endogenous_have_values : dom Dy ⊆ dom (values S).
Proof.
  destruct (CausalSetting_init_domains _ _ _ _ _ HS) as [_ Hvals].
  intros V [D HD]%elem_of_dom. destruct (Hvals V D HD) as (x & Hx & _).
  by eapply elem_of_dom_2.
Qed.

Lemma setting_fields :
  endogenous_domains S = Dy ∧ exogenous_domains S = Dx
  ∧ causal_network S = N ∧ context S = c.
Proof.
  by pose proof HS as (_ & _ & _ & d & _ & ->)%CausalSetting_init_Ok.
Qed.

Lemma satisfies_ac1_defined (X : gmap string Z) :
  dom X ⊆ dom Dy → ∃ b, satisfies_ac1 X e S = Ok b.
Proof.
  intros HX. unfold satisfies_ac1. case_decide as Hempty; [eauto|].
  destruct (assignments2conjunction_Ok X Hempty) as (conj & -> & Hvars).
  simpl. destruct (Event_entailed_by_defined conj S) as [b1 ->].
  { rewrite Hvars. etrans; [done|]. apply endogenous_have_values. }
  simpl. destruct b1; simpl; [|eauto].
  destruct (Event_entailed_by_defined e S He) as [b2 ->].
  simpl. destruct b2; simpl; eauto.
Qed.

Lemma satisfies_ac2_defined (X : gmap string Z) :
  dom X ⊆ dom Dy → ∃ b, satisfies_ac2 X e S = Ok b.
Proof.
  intros HX. unfold satisfies_ac2. case_decide as Hempty; [eauto|].
  destruct setting_fields as (HDy & _).
  destruct (find_witnesses_ac2_search X e S) as (L & HL & Hspec).
  { pose proof endogenous_have_values as Hvals.
    unfold ac2_searchable. rewrite HDy. set_solver. }
  rewrite HL.
  destruct (yield_if _ L) as [|witness rest|err] eqn:Hgen; [eauto..|].
  exfalso. revert Hgen. apply yield_if_defined.
  intros witness (x' & W & [Hdom Halt] & HW & ->)%Hspec.
  apply (CausalFormula_entailed_by_defined N c Dx Dy S HS Heq); [|done].
  intros V x D. cbn [intervention].
  intros [Hw|[_ Hx']]%lookup_union_Some_raw HD.
  - rewrite lookup_restricted_to in Hw. case_decide; [|done].
    destruct (CausalSetting_init_domains _ _ _ _ _ HS) as [_ Hvals].
    destruct (Hvals V D HD) as (x0 & Hx0 & HxD). congruence.
  - destruct (Halt V x Hx') as (D' & a & HD' & _ & HxD & _).
    rewrite HDy in HD'. congruence.
Qed.

Lemma is_weak_actual_cause_defined (X : gmap string Z) :
  dom X ⊆ dom Dy → ∃ b, is_weak_actual_cause X e S = Ok b.
Proof.
  intros HX. unfold is_weak_actual_cause.
  destruct (satisfies_ac1_defined X HX) as [b1 ->]. simpl.
  destruct b1; simpl; [|eauto].
  destruct (satisfies_ac2_defined X HX) as [b2 ->]. simpl.
  destruct b2; simpl; eauto.
Qed.

Lemma satisfies_ac3_loop_defined (X : gmap string Z) (L : list (gmap string Z)) :
  (∀ X', X' ∈ L → dom X' ⊆ dom Dy) →
  ∃ b, satisfies_ac3_loop X e S L = Ok b.
Proof.
  induction L as [|X0 L IH]; intros HL; cbn [satisfies_ac3_loop]; [eauto|].
  assert (∃ b, satisfies_ac3_loop X e S L = Ok b) as [b Hb].
  { apply IH. intros X' HX'. apply HL. by right. }
  case_decide; [|eauto].
  destruct (is_weak_actual_cause_defined X0) as [b0 ->]; [apply HL; left|].
  simpl. destruct b0; eauto.
Qed.

(** On a setting that was built, with structural equations as the data
    model asks for, a candidate over endogenous variables and an event
    over variables of the setting, [is_actual_cause] returns a Boolean. *)
Lemma is_actual_cause_defined (X : gmap string Z) :
  dom X ⊆ dom Dy → ∃ b, is_actual_cause X e S = Ok b.
Proof.
  intros HX. unfold is_actual_cause.
  destruct (is_weak_actual_cause_defined X HX) as [b1 ->]. simpl.
  destruct b1; simpl; [|eauto].
  destruct (satisfies_ac3_loop_defined X (powerdict X)) as [b2 Hb2].
  { intros X' HX'%elem_of_powerdict. etrans; [|done].
    by apply subseteq_dom. }
  unfold satisfies_ac3. rewrite Hb2. simpl. destruct b2; simpl; eauto.
Qed.
End defined.

(** ** The statements at concrete inputs *)

Lemma is_actual_cause_iff_witness :
  is_actual_cause {[ "A" := 1%Z ]} Examples.A_is_1 Examples.chain_setting
    = Ok true
  ∧ is_weak_actual_cause {[ "A" := 1%Z ]} Examples.A_is_1
      Examples.chain_setting = Ok true.
Proof.
  split; [reflexivity|].
  apply (proj2 (is_actual_cause_iff {[ "A" := 1%Z ]} Examples.A_is_1
                  Examples.chain_setting) true); reflexivity.
Defined.

Lemma satisfies_sc3_iff_witness :
  total_assignment Examples.chain_Dx {[ "U" := 0%Z ]}
  ∧ ∃ S', CausalSetting_init Examples.chain {[ "U" := 0%Z ]}
            Examples.chain_Dx Examples.chain_Dy = Ok S'
          ∧ CausalFormula_entailed_by
              {| intervention := {[ "A" := 1%Z ]};
                 event := Examples.A_is_1 |} S' = Ok true.
Proof.
  assert (total_assignment Examples.chain_Dx {[ "U" := 0%Z ]}) as Htotal.
  { split.
    - unfold Examples.chain_Dx. by rewrite !dom_singleton_L.
    - intros V D x HD Hx. unfold Examples.chain_Dx in HD.
      apply lookup_singleton_Some in HD as [<- <-].
      apply lookup_singleton_Some in Hx as [_ <-].
      unfold Examples.boolean. set_solver. }
  split; [exact Htotal|].
  apply (proj1 (satisfies_sc3_iff {[ "A" := 1%Z ]} Examples.A_is_1
                  Examples.chain_setting)); [reflexivity|exact Htotal].
Defined.

Lemma chain_endogenous (V : string) :
  V ∈ (signature Examples.chain).2 → V = "A".
Proof.
  intros [u Hu]%elem_of_endogenous.
  change (graph Examples.chain) with [("U", "A")] in Hu. set_solver.
Qed.

Lemma intervene_twice_witness :
  ∃ N12 N2,
    (intervene Examples.chain {[ "A" := 0%Z ]}
       ≫= fun N1 => intervene N1 {[ "A" := 1%Z ]}) = Ok N12
    ∧ intervene Examples.chain {[ "A" := 1%Z ]} = Ok N2
    ∧ endogenous_bindings N12 = endogenous_bindings N2.
Proof.
  destruct (intervene_twice Examples.chain {[ "A" := 0%Z ]} {[ "A" := 1%Z ]}
              Examples.chain_context)
    as (N1 & N12 & N2 & H1 & H12 & H2 & Hb12 & Hb2 & _).
  - intros V ->%chain_endogenous. by eexists.
  - exists N12, N2. rewrite H1. simpl. rewrite Hb12, Hb2. done.
Defined.

Lemma CausalSetting_init_checks_witness :
  CausalSetting_init Examples.out_of_range Examples.chain_context
    Examples.chain_Dx Examples.chain_Dy = Raise AssertionError.
Proof.
  destruct (CausalSetting_init_checks Examples.out_of_range
              Examples.chain_context Examples.chain_Dx Examples.chain_Dy)
    as [_ Hchecks].
  destruct Hchecks as [_ Hchecks];
    [apply (bool_decide_unpack _); by vm_compute..|].
  destruct Hchecks as [_ Hchecks].
  { intros V D x HD Hx. unfold Examples.chain_Dx in HD.
    apply lookup_singleton_Some in HD as [<- <-].
    unfold Examples.chain_context in Hx.
    apply lookup_singleton_Some in Hx as [_ <-].
    unfold Examples.boolean. set_solver. }
  apply (Hchecks {[ "A" := 2%Z ]}); [reflexivity|].
  exists "A", Examples.boolean, 2%Z.
  split; [reflexivity|]. split; [reflexivity|].
  unfold Examples.boolean. set_solver.
Defined.

Lemma Event_entailed_by_KeyError_witness :
  ("Z" ∉ dom (values Examples.chain_setting))
  ∧ (∃ b, Event_entailed_by Examples.A_is_1 Examples.chain_setting = Ok b)
  ∧ Event_entailed_by (Disjunction Examples.A_is_1 (PrimitiveEvent "Z" 1))
      Examples.chain_setting = Ok true
  ∧ Event_entailed_by
      (Conjunction (Negation Examples.A_is_1) (PrimitiveEvent "Z" 1))
      Examples.chain_setting = Ok false
  ∧ Event_entailed_by (Disjunction (PrimitiveEvent "Z" 1) Examples.A_is_1)
      Examples.chain_setting = Raise KeyError.
Proof.
  assert ("Z" ∉ dom (values Examples.chain_setting)) as HZ.
  { apply not_elem_of_dom. reflexivity. }
  split; [exact HZ|]. split; [|split; [|split]].
  - apply (Event_entailed_by_KeyError Examples.A_is_1 Examples.chain_setting).
    intros V HV. simpl in HV. apply elem_of_singleton in HV as ->.
    apply elem_of_dom. by eexists.
  - apply (Event_entailed_by_KeyError Examples.A_is_1 Examples.chain_setting).
    reflexivity.
  - apply (Event_entailed_by_KeyError (Negation Examples.A_is_1)
             Examples.chain_setting).
    reflexivity.
  - apply (Event_entailed_by_KeyError
             (Disjunction (PrimitiveEvent "Z" 1) Examples.A_is_1)
             Examples.chain_setting).
    exact HZ.
Defined.

(** * Further properties *)

(** ** Events *)

(** X1: the evaluation of an event only looks at the variables the event
    mentions: two settings that give these variables the same values (or
    both none) give the same result, Boolean or exception. *)
Theorem Event_entailed_by_agree (e : Event) (S S' : CausalSetting) :
  (∀ V, V ∈ Event_variables e → values S !! V = values S' !! V) →
  Event_entailed_by e S = Event_entailed_by e S'.
Proof.
  induction e as [variable value|child IH|l IHl r IHr|l IHl r IHr];
    simpl; intros Hagree.
  - unfold getitem. rewrite (Hagree variable) by set_solver. done.
  - by rewrite IH.
  - rewrite IHl, IHr by set_solver. done.
  - rewrite IHl, IHr by set_solver. done.
Qed.

Lemma Event_entailed_by_agree_witness :
  Event_entailed_by Examples.A_is_1 Examples.chain_setting
  = Event_entailed_by Examples.A_is_1
      {| causal_network := CausalNetwork_init;
         context := ∅;
         exogenous_domains := ∅;
         endogenous_domains := ∅;
         derived_values := ∅;
         values := {[ "A" := 1%Z ]} |}.
Proof.
  apply Event_entailed_by_agree.
  intros V HV. simpl in HV. apply elem_of_singleton in HV as ->.
  reflexivity.
Defined.

(** X2: De Morgan's laws and double negation hold for the evaluation as it
    is, exceptions included: the two sides evaluate their operands in the
    same order and stop at the same point. *)
Theorem Event_de_morgan (a b : Event) (S : CausalSetting) :
  Event_entailed_by (Negation (Conjunction a b)) S
  = Event_entailed_by (Disjunction (Negation a) (Negation b)) S
  ∧ Event_entailed_by (Negation (Disjunction a b)) S
    = Event_entailed_by (Conjunction (Negation a) (Negation b)) S
  ∧ Event_entailed_by (Negation (Negation a)) S = Event_entailed_by a S.
Proof.
  simpl.
  destruct (Event_entailed_by a S) as [[|]|x]; simpl; [| |done];
    (split; [|split]); try done;
    by destruct (Event_entailed_by b S) as [[|]|y].
Qed.

(** ** Factuality (AC1 and SC1) *)

Lemma assignments2conjunction_pop_true (S : CausalSetting)
  (popped : list (string * Z)) : ∀ right_child : Event,
  Event_entailed_by (assignments2conjunction_pop popped right_child) S = Ok true
  ↔ (∀ k v, (k, v) ∈ popped → values S !! k = Some v)
    ∧ Event_entailed_by right_child S = Ok true.
Proof.
  induction popped as [|[k v] popped IH]; intros right_child; simpl.
  - split; [|by intros [_ ?]]. intros Hr. split; [|done].
    intros k v Hin. by apply elem_of_nil in Hin.
  - rewrite IH. simpl. unfold getitem. split.
    + intros [Hall Hconj]. destruct (values S !! k) as [x|] eqn:Hk; [|done].
      simpl in Hconj. case_bool_decide as Hx; [|done]. subst x.
      split; [|done]. intros k' v' [[= -> ->]|Hin]%elem_of_cons; [done|].
      by apply Hall.
    + intros [Hall Hr]. split.
      * intros k' v' Hin. apply Hall. by right.
      * rewrite (Hall k v) by left. simpl.
        by rewrite bool_decide_eq_true_2.
Qed.

Lemma assignments2conjunction_true (X : gmap string Z) (S : CausalSetting) :
  (assignments2conjunction X ≫= fun conjunction =>
     Event_entailed_by conjunction S) = Ok true
  ↔ X ≠ ∅ ∧ X ⊆ values S.
Proof.
  unfold assignments2conjunction.
  assert (∀ k v, (k, v) ∈ reverse (map_to_list X) ↔ X !! k = Some v) as Hrev.
  { intros k v. by rewrite elem_of_reverse, elem_of_map_to_list. }
  destruct (reverse (map_to_list X)) as [|[k v] popped] eqn:Hpop; simpl.
  - split; [done|]. intros [HX _]. destruct HX.
    apply map_empty. intros k. destruct (X !! k) as [v|] eqn:Hk; [|done].
    apply Hrev in Hk. by apply elem_of_nil in Hk.
  - rewrite assignments2conjunction_pop_true. simpl. unfold getitem. split.
    + intros [Hall Hfirst]. split.
      * intros ->. specialize (proj1 (Hrev k v)) as Hk.
        rewrite lookup_empty in Hk. by discriminate Hk; left.
      * apply map_subseteq_spec. intros k' v' Hk'%Hrev.
        apply elem_of_cons in Hk' as [[= -> ->]|Hin]; [|by apply Hall].
        destruct (values S !! k) as [x|]; [|done]. simpl in Hfirst.
        case_bool_decide; by simplify_eq.
    + intros [_ Hsub]. split.
      * intros k' v' Hin. eapply lookup_weaken; [|done].
        apply Hrev. by right.
      * assert (values S !! k = Some v) as ->.
        { eapply lookup_weaken; [|done]. apply Hrev. left. }
        simpl. by rewrite bool_decide_eq_true_2.
Qed.

Lemma satisfies_sc1_true_iff (X : gmap string Z) (e : Event) (S : CausalSetting) :
  satisfies_sc1 X e S = Ok true
  ↔ X ≠ ∅ ∧ X ⊆ values S ∧ Event_entailed_by e S = Ok true.
Proof.
  unfold satisfies_sc1.
  pose proof (assignments2conjunction_true X S) as Hconj.
  destruct (assignments2conjunction X) as [conjunction|x]; simpl in *.
  - destruct (Event_entailed_by conjunction S) as [[|]|x]; simpl.
    + destruct (Event_entailed_by e S) as [[|]|x]; simpl; naive_solver.
    + split; [done|]. intros (HX & Hsub & _).
      by destruct (proj2 Hconj (conj HX Hsub)).
    + split; [done|]. intros (HX & Hsub & _).
      by destruct (proj2 Hconj (conj HX Hsub)).
  - split; [done|]. intros (HX & Hsub & _).
    by destruct (proj2 Hconj (conj HX Hsub)).
Qed.

Lemma satisfies_ac1_true_iff (X : gmap string Z) (e : Event) (S : CausalSetting) :
  satisfies_ac1 X e S = Ok true
  ↔ X ≠ ∅ ∧ X ⊆ values S ∧ Event_entailed_by e S = Ok true.
Proof.
  unfold satisfies_ac1. case_decide as HX; [naive_solver|].
  apply satisfies_sc1_true_iff.
Qed.

(** X3: [satisfies_ac1] returns true exactly when the candidate is not
    empty, every [V = v] of the candidate is the value of [V] in the
    setting, and the event holds in the setting. *)
Theorem satisfies_ac1_true (X : gmap string Z) (e : Event) (S : CausalSetting) :
  satisfies_ac1 X e S = Ok true
  ↔ X ≠ ∅ ∧ X ⊆ values S ∧ Event_entailed_by e S = Ok true.
Proof.
  destruct (decide (X = ∅)) as [->|HX].
  - rewrite satisfies_ac1_empty. naive_solver.
  - unfold satisfies_ac1. rewrite decide_False by done.
    apply satisfies_sc1_true_iff.
Qed.

(** X4: SC1 is AC1 without the test for an empty candidate.  On every
    non-empty candidate [satisfies_sc1] returns what [satisfies_ac1]
    returns, Boolean or exception; on the empty candidate it raises the
    [AssertionError] of [assignments2conjunction], where [satisfies_ac1]
    returns False.  So it returns True exactly when the candidate is not
    empty and factual, and the event holds. *)
Theorem satisfies_sc1_agrees_with_ac1 (X : gmap string Z) (e : Event)
  (S : CausalSetting) :
  (X ≠ ∅ → satisfies_sc1 X e S = satisfies_ac1 X e S)
  ∧ (X = ∅ → satisfies_sc1 X e S = Raise AssertionError
             ∧ satisfies_ac1 X e S = Ok false)
  ∧ (satisfies_sc1 X e S = Ok true
     ↔ X ≠ ∅ ∧ X ⊆ values S ∧ Event_entailed_by e S = Ok true).
Proof.
  split; [|split].
  - intros HX. unfold satisfies_ac1, satisfies_sc1.
    by rewrite decide_False.
  - intros ->. split; [apply satisfies_sc1_empty|apply satisfies_ac1_empty].
  - apply satisfies_sc1_true_iff.
Qed.

(** ** Weak actual causes *)

Lemma satisfies_ac2_true_witness (X : gmap string Z) (e : Event)
  (S : CausalSetting) :
  satisfies_ac2 X e S = Ok true →
  X ≠ ∅ ∧ ∃ x' W, ac2_witness (values S) X e S x' W.
Proof.
  unfold satisfies_ac2. case_decide as HX; [done|]. intros Hb.
  split; [done|].
  destruct (find_witnesses_ac2_candidates X e S) as (L & HL & Hspec).
  { intros err Herr. by rewrite Herr in Hb. }
  rewrite HL in Hb.
  destruct (yield_if _ L) as [|witness rest|err] eqn:Hgen; [done| |done].
  apply yield_if_Yield in Hgen as [Hin Htest].
  apply Hspec in Hin as (x' & W & Halt & HW & ->).
  exists x', W. by split.
Qed.

Lemma alternative_to_factual (X vals x' : gmap string Z)
  (doms : gmap string (gset Z)) :
  X ⊆ vals → alternative_to vals doms X x' ↔ alternative_to X doms X x'.
Proof.
  intros Hsub. unfold alternative_to.
  split; intros [Hdom Halt]; (split; [done|]); intros V v Hv.
  - destruct (Halt V v Hv) as (D & a & HD & Ha & HvD & Hne).
    assert (V ∈ dom X) as [a' Ha']%elem_of_dom.
    { rewrite <-Hdom. by eapply elem_of_dom_2. }
    rewrite (lookup_weaken _ _ _ _ Ha' Hsub) in Ha. injection Ha as ->.
    eauto 6.
  - destruct (Halt V v Hv) as (D & a & HD & Ha & HvD & Hne).
    exists D, a. split; [done|]. split; [|done]. by eapply lookup_weaken.
Qed.

Lemma is_weak_actual_cause_true (X : gmap string Z) (e : Event)
  (S : CausalSetting) :
  is_weak_actual_cause X e S = Ok true
  ↔ satisfies_ac1 X e S = Ok true ∧ satisfies_ac2 X e S = Ok true.
Proof.
  unfold is_weak_actual_cause.
  destruct (satisfies_ac1 X e S) as [[|]|x]; simpl; [|naive_solver..].
  destruct (satisfies_ac2 X e S) as [[|]|x]; simpl; naive_solver.
Qed.

(** X5: a weak actual cause is factual and has a witness in the sense of
    the definition: when [is_weak_actual_cause] returns true, the
    candidate is not empty, each of its pairs [V = v] is the value of [V]
    in the setting, the event holds in the setting, and there are
    alternative values [x'], each different from the candidate's own
    value, and a set [W] of other endogenous variables kept at their
    actual values, under which the event fails. *)
Theorem weak_actual_cause_factual (X : gmap string Z) (e : Event)
  (S : CausalSetting) :
  is_weak_actual_cause X e S = Ok true →
  X ≠ ∅ ∧ X ⊆ values S ∧ Event_entailed_by e S = Ok true
  ∧ ∃ x' W, ac2_witness X X e S x' W.
Proof.
  intros [(HX & Hsub & He)%satisfies_ac1_true_iff
            (_ & x' & W & Halt & HW & Hholds)%satisfies_ac2_true_witness]
         %is_weak_actual_cause_true.
  split; [done|]. split; [done|]. split; [done|].
  exists x', W. split; [|done]. by apply (alternative_to_factual X (values S)).
Qed.

Lemma weak_actual_cause_factual_witness :
  ({[ "A" := 1%Z ]} : gmap string Z) ⊆ values Examples.chain_setting
  ∧ ∃ x' W, ac2_witness {[ "A" := 1%Z ]} {[ "A" := 1%Z ]}
              Examples.A_is_1 Examples.chain_setting x' W.
Proof.
  destruct (weak_actual_cause_factual {[ "A" := 1%Z ]} Examples.A_is_1
              Examples.chain_setting) as (_ & Hsub & _ & Hw);
    [reflexivity|by split].
Defined.

(** ** The signature *)

(** X6: the signature splits the nodes of the graph: a variable is
    endogenous exactly when some edge enters it, exogenous exactly when
    it is a node that no edge enters, and never both. *)
Theorem signature_partition (N : CausalNetwork) (v : string) :
  (v ∈ (signature N).2 ↔ ∃ u, (u, v) ∈ graph N)
  ∧ (v ∈ (signature N).1
     ↔ (∃ w, (v, w) ∈ graph N) ∧ ∀ u, (u, v) ∉ graph N)
  ∧ (v ∈ NX.nodes (graph N) ↔ v ∈ (signature N).1 ∨ v ∈ (signature N).2)
  ∧ ¬ (v ∈ (signature N).1 ∧ v ∈ (signature N).2).
Proof.
  split; [apply elem_of_endogenous|]. split; [|split].
  - rewrite elem_of_exogenous, elem_of_nodes. split.
    + intros [([a b] & Hin & [->| ->]) Hno]; simpl in *.
      * split; [eauto|done].
      * by destruct (Hno a).
    + intros [[w Hw] Hno]. split; [|done]. exists (v, w). auto.
  - apply elem_of_signature.
  - intros [H1 H2]. by eapply signature_disjoint.
Qed.

(** ** [add_dependency] *)

Lemma nodes_add_dependency (N : CausalNetwork) (V : string)
  (parents : list string) (f : gmap string Z → result Z) (v : string) :
  v ∈ NX.nodes (graph (add_dependency N V parents f))
  ↔ v ∈ NX.nodes (graph N) ∨ (parents ≠ [] ∧ (v = V ∨ v ∈ parents)).
Proof.
  rewrite !elem_of_nodes.
  setoid_rewrite elem_of_graph_add_dependency. split.
  - intros ([a b] & [Hin|(p & Hp & [= -> ->])] & Hv); simpl in *.
    + left. exists (a, b). auto.
    + right. split; [by intros ->; apply elem_of_nil in Hp|].
      destruct Hv as [->| ->]; auto.
  - intros [([a b] & Hin & Hv)|[Hne [->|Hp]]].
    + exists (a, b). auto.
    + destruct parents as [|p parents]; [done|].
      exists (p, V). split; [right; exists p; split; [left|done]|auto].
    + exists (v, V). split; [right; eauto|auto].
Qed.

(** X7: after [add_dependency(V, parents, f)] with at least one parent,
    [V] is endogenous with equation [f] and every parent is a node of the
    graph; any other variable is endogenous exactly when it was before,
    and keeps its equation; the override map is untouched. *)
Theorem add_dependency_signature (N : CausalNetwork) (V : string)
  (parents : list string) (f : gmap string Z → result Z) :
  parents ≠ [] →
  V ∈ (signature (add_dependency N V parents f)).2
  ∧ structural_equations (add_dependency N V parents f) !! V = Some f
  ∧ (∀ p, p ∈ parents → p ∈ NX.nodes (graph (add_dependency N V parents f)))
  ∧ (∀ W, W ≠ V →
       (W ∈ (signature (add_dependency N V parents f)).2
        ↔ W ∈ (signature N).2)
       ∧ structural_equations (add_dependency N V parents f) !! W
         = structural_equations N !! W)
  ∧ endogenous_bindings (add_dependency N V parents f)
    = endogenous_bindings N.
Proof.
  intros Hne. split; [|split; [|split; [|split]]].
  - apply elem_of_endogenous. destruct parents as [|p parents]; [done|].
    exists p. apply elem_of_graph_add_dependency. right.
    exists p. split; [left|done].
  - apply lookup_insert_eq.
  - intros p Hp. apply nodes_add_dependency. auto.
  - intros W HW. split.
    + rewrite !elem_of_endogenous.
      setoid_rewrite elem_of_graph_add_dependency. split.
      * intros (u & [Hin|(p & _ & [= _ ->])]); [eauto|done].
      * intros [u Hu]. eauto.
    + cbn [structural_equations add_dependency].
      by rewrite lookup_insert_ne.
  - done.
Qed.

Lemma add_dependency_signature_witness :
  "A" ∈ (signature Examples.chain).2
  ∧ "U" ∈ NX.nodes (graph Examples.chain).
Proof.
  destruct (add_dependency_signature CausalNetwork_init "A" ["U"]
              (Examples.copy_of "U")) as (HA & _ & HU & _); [done|].
  split; [exact HA|]. apply HU. left.
Defined.

(** X8: a variable declared with [add_dependency] without any parent does
    not enter the graph: its equation is stored, but unless the variable
    is a node already, [evaluate] never gives it a value. *)
Theorem add_dependency_without_parents (N : CausalNetwork) (V : string)
  (f : gmap string Z → result Z) (c d : gmap string Z) :
  V ∉ NX.nodes (graph N) →
  evaluate (add_dependency N V [] f) c = Ok d →
  structural_equations (add_dependency N V [] f) !! V = Some f
  ∧ (V ∉ (signature (add_dependency N V [] f)).1)
  ∧ (V ∉ (signature (add_dependency N V [] f)).2)
  ∧ d !! V = None.
Proof.
  intros HV Hd. split; [apply lookup_insert_eq|].
  assert (V ∉ NX.nodes (graph (add_dependency N V [] f))) as HV' by done.
  split; [|split].
  - intros H. apply HV', elem_of_signature. by left.
  - intros H. apply HV', elem_of_signature. by right.
  - apply evaluate_Ok in Hd as (_ & Hdom & _).
    apply not_elem_of_dom. rewrite Hdom. set_solver.
Qed.

Lemma add_dependency_without_parents_witness :
  evaluate (add_dependency Examples.chain "B" [] (Examples.copy_of "U"))
    Examples.chain_context = Ok {[ "A" := 1%Z ]}
  ∧ ({[ "A" := 1%Z ]} : gmap string Z) !! "B" = None.
Proof.
  split; [reflexivity|].
  apply (add_dependency_without_parents Examples.chain "B"
           (Examples.copy_of "U") Examples.chain_context {[ "A" := 1%Z ]});
    [|reflexivity].
  change (NX.nodes (graph Examples.chain)) with ["U"; "A"]. set_solver.
Defined.

(** ** Networks built through the interface *)

Lemma built_equations (N : CausalNetwork) :
  built N →
  ∀ V, V ∈ (signature N).2 → is_Some (structural_equations N !! V).
Proof.
  induction 1 as [|N V parents f _ IH|N sigma N' _ IH HN'].
  - intros V [u Hu]%elem_of_endogenous. by apply elem_of_nil in Hu.
  - intros W HW. destruct (decide (W = V)) as [->|Hne].
    + cbn [structural_equations add_dependency].
      rewrite lookup_insert_eq. eauto.
    + cbn [structural_equations add_dependency].
      rewrite lookup_insert_ne by done. apply IH.
      apply elem_of_endogenous in HW as [u Hu].
      apply elem_of_graph_add_dependency in Hu as [Hu|(p & _ & [= _ ->])];
        [|done].
      apply elem_of_endogenous. eauto.
  - intros V HV. rewrite (intervene_signature _ _ _ HN') in HV.
    destruct (intervene_Ok _ _ _ HN') as (_ & _ & HF & _).
    rewrite HF, decide_True by done. by apply IH.
Qed.

(** X9: on a network built through the interface (the empty network,
    [add_dependency], [intervene]) every endogenous variable has its
    structural equation, so that [intervene] never fails on it: it returns
    a network with the same signature whose override map is the
    intervention. *)
Theorem built_network_intervene (N : CausalNetwork) (sigma : gmap string Z) :
  built N →
  (∀ V, V ∈ (signature N).2 → is_Some (structural_equations N !! V))
  ∧ ∃ N', intervene N sigma = Ok N'
          ∧ built N'
          ∧ signature N' = signature N
          ∧ endogenous_bindings N' = sigma.
Proof.
  intros HN. pose proof (built_equations N HN) as Hwf.
  split; [done|].
  destruct (intervene_defined N sigma Hwf) as [N' HN'].
  exists N'. split; [done|]. split; [by eapply built_intervene|].
  split; [by eapply intervene_signature|].
  by apply intervene_Ok in HN' as [? _].
Qed.

Lemma chain_built : built Examples.chain.
Proof. apply built_add_dependency, built_init. Qed.

Lemma built_network_intervene_witness :
  ∃ N', intervene Examples.chain {[ "A" := 0%Z ]} = Ok N'
        ∧ endogenous_bindings N' = {[ "A" := 0%Z ]}.
Proof.
  destruct (built_network_intervene Examples.chain {[ "A" := 0%Z ]} chain_built)
    as (_ & N' & HN' & _ & _ & Hb).
  eauto.
Defined.

(** X10: [intervene] keeps the edges, hence the signature, and the
    equations of the endogenous variables; it forgets the override map of
    the network it starts from, and the equations stored for variables
    that are not endogenous; it raises [KeyError], and only then, when
    some endogenous variable has no equation. *)
Theorem intervene_result (N : CausalNetwork) (sigma : gmap string Z) :
  (∀ N', intervene N sigma = Ok N' →
         (∀ e, e ∈ graph N' ↔ e ∈ graph N)
         ∧ signature N' = signature N
         ∧ endogenous_bindings N' = sigma
         ∧ ∀ V, structural_equations N' !! V
                = if decide (V ∈ (signature N).2)
                  then structural_equations N !! V else None)
  ∧ ((∃ V, V ∈ (signature N).2 ∧ structural_equations N !! V = None)
     ↔ intervene N sigma = Raise KeyError)
  ∧ ∀ err, intervene N sigma = Raise err → err = KeyError.
Proof.
  split; [|split].
  - intros N' HN'. pose proof (intervene_signature _ _ _ HN') as Hsig.
    apply intervene_Ok in HN' as (Hb & Hg & HF & _). done.
  - split.
    + intros (V & HV & Hnone).
      destruct (intervene N sigma) as [N'|err] eqn:HN'.
      * apply intervene_Ok in HN' as (_ & _ & _ & Hdef).
        destruct (Hdef V HV) as [f Hf]. congruence.
      * unfold intervene in HN'.
        apply bind_Raise in HN' as [HN'|(R & _ & ?)]; [|done].
        clear -HN'. revert HN'. generalize CausalNetwork_init.
        induction (elements (signature N).2) as [|v vars IH];
          intros new; simpl; [done|].
        intros [[_ ->]%getitem_Raise|(g & _ & H)]%bind_Raise; [done|].
        by eapply IH.
    + intros Hraise.
      destruct (decide (Forall (fun V => is_Some (structural_equations N !! V))
                               (elements (signature N).2)))
        as [Hall|Hnot].
      * destruct (intervene_defined N sigma) as [N' HN']; [|congruence].
        intros V HV. rewrite Forall_forall in Hall. apply Hall.
        by apply elem_of_elements.
      * apply not_Forall_Exists in Hnot; [|apply _].
        apply Exists_exists in Hnot as (V & HV & Hnone).
        exists V. split; [by apply elem_of_elements|].
        by apply eq_None_not_Some.
  - intros err HN'. unfold intervene in HN'.
    apply bind_Raise in HN' as [HN'|(R & _ & ?)]; [|done].
    revert HN'. generalize CausalNetwork_init.
    induction (elements (signature N).2) as [|v vars IH];
      intros new; simpl; [done|].
    intros [[_ ->]%getitem_Raise|(g & _ & H)]%bind_Raise; [done|].
    by eapply IH.
Qed.

Lemma intervene_result_witness :
  ∃ N', intervene Examples.chain {[ "A" := 0%Z ]} = Ok N'
        ∧ signature N' = signature Examples.chain.
Proof.
  destruct (intervene_defined Examples.chain {[ "A" := 0%Z ]}
              (built_equations _ chain_built)) as [N' HN'].
  exists N'. split; [exact HN'|].
  by apply (intervene_result Examples.chain {[ "A" := 0%Z ]}) in HN'
    as (_ & ? & _).
Defined.

(** ** More on [evaluate] *)

Lemma yielded_topological_sort_nodes (g : list (string * string)) (v : string) :
  v ∈ yielded (NX.topological_sort g) → v ∈ NX.nodes g.
Proof.
  destruct (topological_sort_spec g) as (_ & _ & Hsub & _). apply Hsub.
Qed.

Lemma evaluate_loop_ext (N N' : CausalNetwork) (G : generator string) :
  ∀ vals,
    (∀ V m, V ∈ yielded G → V ∉ dom vals →
            structural_equation N V m = structural_equation N' V m) →
    evaluate_loop N vals G = evaluate_loop N' vals G.
Proof.
  induction G as [|v G IH|e]; intros vals Hext; simpl; [done| |done].
  destruct (vals !! v) as [x0|] eqn:Hv.
  - apply IH. intros V m HV HVd. apply Hext; [by right|done].
  - rewrite (Hext v vals) by (by left || by apply not_elem_of_dom).
    destruct (structural_equation N' v vals) as [x|err]; simpl; [|done].
    apply IH. intros V m HV HVd. apply Hext; [by right|].
    rewrite dom_insert_L in HVd. set_solver.
Qed.

(** X11: [evaluate] returns a value for exactly the nodes of the graph
    that the context does not assign, whatever the context is; it never
    returns a variable of the context; and it only returns when the graph
    is acyclic. *)
Theorem evaluate_keys (N : CausalNetwork) (c d : gmap string Z) :
  evaluate N c = Ok d →
  dom d = list_to_set (NX.nodes (graph N)) ∖ dom c
  ∧ d ##ₘ c
  ∧ acyclic (graph N).
Proof.
  intros (Horder & Hdom & Hdisj & _)%evaluate_Ok.
  split; [done|]. split; [done|]. by eapply topological_order_acyclic.
Qed.

Lemma evaluate_keys_witness :
  dom ({[ "A" := 1%Z ]} : gmap string Z)
  = list_to_set (NX.nodes (graph Examples.chain)) ∖ dom Examples.chain_context.
Proof.
  by apply (evaluate_keys Examples.chain Examples.chain_context
              {[ "A" := 1%Z ]}).
Defined.

(** X12: an override only matters on the nodes the context leaves open:
    two interventions on the same network that agree on these give the
    same evaluation, Boolean or exception.  Pinning a variable of the
    context, or a variable that is no node of the graph, changes
    nothing. *)
Theorem intervention_outside_ignored (N N1 N2 : CausalNetwork)
  (sigma1 sigma2 c : gmap string Z) :
  intervene N sigma1 = Ok N1 →
  intervene N sigma2 = Ok N2 →
  (∀ V, V ∈ NX.nodes (graph N) → V ∉ dom c → sigma1 !! V = sigma2 !! V) →
  evaluate N1 c = evaluate N2 c.
Proof.
  intros H1 H2 Hagree.
  destruct (intervene_Ok _ _ _ H1) as (Hb1 & Hg1 & _).
  destruct (intervene_Ok _ _ _ H2) as (Hb2 & _).
  unfold intervene in H1, H2.
  apply bind_Ok in H1 as (R1 & HR1 & [= <-]).
  apply bind_Ok in H2 as (R2 & HR2 & [= <-]).
  assert (R2 = R1) as -> by congruence.
  cbn [endogenous_bindings graph] in *.
  unfold evaluate. cbn [graph]. f_equal.
  apply evaluate_loop_ext. intros V m HV HVc.
  unfold structural_equation. cbn [endogenous_bindings structural_equations].
  rewrite Hb1, Hb2, Hagree; [done| |done].
  apply yielded_topological_sort_nodes in HV.
  apply elem_of_nodes in HV as (e & He & Hv). apply elem_of_nodes.
  exists e. split; [|done]. by apply Hg1.
Qed.

Lemma intervention_outside_ignored_witness :
  ∃ N1 N2,
    intervene Examples.chain {[ "U" := 0%Z ]} = Ok N1
    ∧ intervene Examples.chain ∅ = Ok N2
    ∧ evaluate N1 Examples.chain_context = evaluate N2 Examples.chain_context.
Proof.
  destruct (intervene_defined Examples.chain {[ "U" := 0%Z ]}
              (built_equations _ chain_built)) as [N1 HN1].
  destruct (intervene_defined Examples.chain ∅
              (built_equations _ chain_built)) as [N2 HN2].
  exists N1, N2. split; [exact HN1|]. split; [exact HN2|].
  apply (intervention_outside_ignored Examples.chain N1 N2
           {[ "U" := 0%Z ]} ∅ Examples.chain_context HN1 HN2).
  intros V HV HVc.
  change (NX.nodes (graph Examples.chain)) with ["U"; "A"] in HV.
  unfold Examples.chain_context in HVc. rewrite dom_singleton_L in HVc.
  assert (V = "A") as -> by set_solver. reflexivity.
Defined.

(** *** Independence of the order *)

Lemma map_subseteq_dom_eq (m1 m2 : gmap string Z) :
  m1 ⊆ m2 → dom m2 ⊆ dom m1 → m1 = m2.
Proof.
  intros Hsub Hdom. apply map_eq. intros k.
  destruct (m2 !! k) as [x|] eqn:Hk.
  - assert (k ∈ dom m1) as [y Hy]%elem_of_dom.
    { apply Hdom. by eapply elem_of_dom_2. }
    rewrite Hy. by rewrite (lookup_weaken _ _ _ _ Hy Hsub) in Hk.
  - destruct (m1 !! k) as [y|] eqn:Hy; [|done].
    by rewrite (lookup_weaken _ _ _ _ Hy Hsub) in Hk.
Qed.

(** a loop whose steps all give the value that [final] has runs to
    [final] *)
Lemma evaluate_loop_follows (N : CausalNetwork) (final : gmap string Z)
  (G : generator string) :
  ∀ vals,
    ending G = Ok tt →
    vals ⊆ final →
    (∀ j V m, yielded G !! j = Some V → V ∉ dom vals →
              m ⊆ final →
              dom vals ∪ list_to_set (take j (yielded G)) ⊆ dom m →
              ∃ x, structural_equation N V m = Ok x ∧ final !! V = Some x) →
    ∃ final', evaluate_loop N vals G = Ok final'
              ∧ final' ⊆ final
              ∧ dom final' = dom vals ∪ list_to_set (yielded G).
Proof.
  induction G as [|v G IH|e]; intros vals Hend Hsub Hstep; simpl in *.
  - exists vals. split; [done|]. split; [done|]. set_solver.
  - destruct (vals !! v) as [x0|] eqn:Hv.
    + destruct (IH vals Hend Hsub) as (final' & -> & Hsub' & Hdom).
      { intros j V m Hj HV Hm Hdm. apply (Hstep (S j) V m); [done..|].
        simpl. apply elem_of_dom_2 in Hv. set_solver. }
      exists final'. split; [done|]. split; [done|].
      rewrite Hdom. apply elem_of_dom_2 in Hv. set_solver.
    + destruct (Hstep 0%nat v vals) as (x & Hx & Hfinal);
        [done|by apply not_elem_of_dom|done|set_solver|].
      rewrite Hx. simpl.
      destruct (IH (<[v:=x]> vals) Hend) as (final' & -> & Hsub' & Hdom).
      { by apply insert_subseteq_l. }
      { intros j V m Hj HV Hm Hdm. apply (Hstep (S j) V m); [done| |done|].
        - rewrite dom_insert_L in HV. set_solver.
        - simpl. rewrite dom_insert_L in Hdm. set_solver. }
      exists final'. split; [done|]. split; [done|].
      rewrite Hdom, dom_insert_L. set_solver.
  - done.
Qed.

Section order_independence.
Context (N N' : CausalNetwork) (c d : gmap string Z).
Hypothesis Hedges : ∀ e, e ∈ graph N' ↔ e ∈ graph N.
Hypothesis Hbindings :
  ∀ V, V ∈ NX.nodes (graph N) → V ∉ dom c →
       endogenous_bindings N' !! V = endogenous_bindings N !! V.
Hypothesis Hequations :
  ∀ V, V ∈ NX.nodes (graph N) → V ∉ dom c →
       endogenous_bindings N !! V = None →
       structural_equations N' !! V = structural_equations N !! V.
Hypothesis Hreads : reads_only_parents N.
Hypothesis Hd : evaluate N c = Ok d.

Lemma nodes_same (v : string) :
  v ∈ NX.nodes (graph N') ↔ v ∈ NX.nodes (graph N).
Proof. rewrite !elem_of_nodes. by setoid_rewrite Hedges. Qed.

(** every step of the evaluation of [N'] gives the value found in [N] *)
Lemma same_step (V : string) (m : gmap string Z) :
  V ∈ NX.nodes (graph N) → V ∉ dom c →
  m ⊆ d ∪ c →
  (∀ u, (u, V) ∈ graph N → u ∈ dom m) →
  ∃ x, structural_equation N' V m = Ok x ∧ (d ∪ c) !! V = Some x.
Proof.
  intros HV HVc Hm Hparents.
  destruct (evaluate_Ok N c d Hd) as ([Hperm Horder] & Hdom & _ & Hvals).
  assert (V ∈ yielded (NX.topological_sort (graph N)))
    as [j Hj]%list_elem_of_lookup by (by rewrite Hperm).
  destruct (Hvals j V Hj HVc) as (x & Hx & HdV).
  exists x. split; [|by apply lookup_union_Some_l].
  unfold structural_equation, getitem in *. rewrite Hbindings by done.
  destruct (endogenous_bindings N !! V) as [pinned|] eqn:Hb; [done|].
  rewrite Hequations by done.
  destruct (structural_equations N !! V) as [f|] eqn:Hf; [|done].
  simpl in *. rewrite <-Hx. apply (Hreads V f); [done|].
  intros u Hu.
  destruct (Horder u V j Hu Hj) as (i & Hi & Hui).
  assert (u ∈ dom m) as [y Hy]%elem_of_dom by (by apply Hparents).
  rewrite Hy. symmetry. apply map_lookup_filter_Some. split.
  - by eapply lookup_weaken.
  - right. apply list_elem_of_lookup. exists i. by apply lookup_take_Some.
Qed.

Lemma evaluate_same_edges : evaluate N' c = Ok d.
Proof.
  destruct (evaluate_Ok N c d Hd) as (Horder & Hdom & Hdisj & _).
  assert (acyclic (graph N')) as Hacyclic.
  { apply (acyclic_edges (graph N)); [done|].
    by eapply topological_order_acyclic. }
  pose proof (topological_sort_complete _ Hacyclic) as Hend.
  destruct (topological_sort_Ok _ Hend) as [Hperm' Horder'].
  destruct (evaluate_loop_follows N' (d ∪ c) (NX.topological_sort (graph N')) c)
    as (final' & Hloop & Hsub & Hdom'); [done| | |].
  - by apply map_union_subseteq_r.
  - intros j V m Hj HVc Hm Hdm. apply same_step; [|done|done|].
    + apply nodes_same. rewrite <-Hperm'. by eapply list_elem_of_lookup_2.
    + intros u Hu%Hedges. apply Hdm.
      destruct (Horder' u V j Hu Hj) as (i & Hi & Hui).
      apply elem_of_union_r, elem_of_list_to_set, list_elem_of_lookup.
      exists i. by apply lookup_take_Some.
  - assert (final' = d ∪ c) as ->.
    { apply map_subseteq_dom_eq; [done|].
      rewrite Hdom', dom_union_L, Hdom. intros k.
      rewrite !elem_of_union, elem_of_difference, !elem_of_list_to_set,
        Hperm', nodes_same. tauto. }
    unfold evaluate. rewrite Hloop. simpl. f_equal.
    apply map_eq. intros k. destruct (d !! k) as [x|] eqn:Hdk.
    + apply map_lookup_filter_Some. split; [by apply lookup_union_Some_l|].
      simpl. destruct (c !! k) as [y|] eqn:Hck; [|done].
      by destruct (proj1 (map_disjoint_spec d c) Hdisj k x y).
    + apply map_lookup_filter_None.
      destruct (c !! k) as [y|] eqn:Hck.
      * right. intros x _. simpl. congruence.
      * left. by apply lookup_union_None.
Qed.
End order_independence.

(** X13: when the equations only read the values of the parents of their
    variable, what [evaluate] returns depends neither on the order in
    which the edges were added nor on the topological order that
    follows from it: two networks with the same edges, and the same
    overrides and equations on the nodes the context leaves open, return
    the same assignments. *)
Theorem evaluate_order_independent (N N' : CausalNetwork) (c d : gmap string Z) :
  (∀ e, e ∈ graph N' ↔ e ∈ graph N) →
  (∀ V, V ∈ NX.nodes (graph N) → V ∉ dom c →
        endogenous_bindings N' !! V = endogenous_bindings N !! V) →
  (∀ V, V ∈ NX.nodes (graph N) → V ∉ dom c →
        endogenous_bindings N !! V = None →
        structural_equations N' !! V = structural_equations N !! V) →
  reads_only_parents N → reads_only_parents N' →
  evaluate N c = Ok d ↔ evaluate N' c = Ok d.
Proof.
  intros Hedges Hbindings Hequations Hreads Hreads'. split.
  - by apply evaluate_same_edges.
  - pose proof (nodes_same N N' Hedges) as Hnodes.
    apply evaluate_same_edges; [by intros e'; rewrite Hedges| | |done].
    + intros V HV%Hnodes HVc. symmetry. by apply Hbindings.
    + intros V HV%Hnodes HVc Hfree. symmetry. apply Hequations; [done..|].
      by rewrite <-Hbindings.
Qed.

Lemma copy_of_reads (parent : string) (m1 m2 : gmap string Z) :
  m1 !! parent = m2 !! parent →
  Examples.copy_of parent m1 = Examples.copy_of parent m2.
Proof. unfold Examples.copy_of, getitem. by intros ->. Qed.

Lemma fork_AB_reads_only_parents : reads_only_parents Examples.fork_AB.
Proof.
  intros V f m1 m2 Hf Hagree.
  change (structural_equations Examples.fork_AB)
    with (<["B" := Examples.copy_of "U"]>
            (<["A" := Examples.copy_of "U"]>
               (∅ : gmap string (gmap string Z → result Z)))) in Hf.
  change (graph Examples.fork_AB) with [("U", "A"); ("U", "B")] in Hagree.
  apply lookup_insert_Some in Hf as [[<- <-]|[_ Hf]].
  { apply copy_of_reads, Hagree. set_solver. }
  apply lookup_insert_Some in Hf as [[<- <-]|[_ Hf]]; [|done].
  apply copy_of_reads, Hagree. set_solver.
Qed.

Lemma fork_BA_reads_only_parents : reads_only_parents Examples.fork_BA.
Proof.
  intros V f m1 m2 Hf Hagree.
  change (structural_equations Examples.fork_BA)
    with (<["A" := Examples.copy_of "U"]>
            (<["B" := Examples.copy_of "U"]>
               (∅ : gmap string (gmap string Z → result Z)))) in Hf.
  change (graph Examples.fork_BA) with [("U", "B"); ("U", "A")] in Hagree.
  apply lookup_insert_Some in Hf as [[<- <-]|[_ Hf]].
  { apply copy_of_reads, Hagree. set_solver. }
  apply lookup_insert_Some in Hf as [[<- <-]|[_ Hf]]; [|done].
  apply copy_of_reads, Hagree. set_solver.
Qed.

Lemma evaluate_order_independent_witness :
  evaluate Examples.fork_BA Examples.chain_context
  = Ok {[ "A" := 1%Z; "B" := 1%Z ]}.
Proof.
  apply (evaluate_order_independent Examples.fork_AB Examples.fork_BA).
  - intros e.
    change (graph Examples.fork_BA) with [("U", "B"); ("U", "A")].
    change (graph Examples.fork_AB) with [("U", "A"); ("U", "B")].
    set_solver.
  - reflexivity.
  - intros V HV _ _.
    change (NX.nodes (graph Examples.fork_AB)) with ["U"; "A"; "B"] in HV.
    apply elem_of_cons in HV as [->|HV]; [reflexivity|].
    apply elem_of_cons in HV as [->|HV]; [reflexivity|].
    apply list_elem_of_singleton in HV as ->. reflexivity.
  - apply fork_AB_reads_only_parents.
  - apply fork_BA_reads_only_parents.
  - reflexivity.
Defined.

(** ** Causal formulas *)

Lemma Event_entailed_by_values (e : Event) (S S' : CausalSetting) :
  values S = values S' → Event_entailed_by e S = Event_entailed_by e S'.
Proof.
  intros Heq.
  induction e as [variable value|child IH|l IHl r IHr|l IHl r IHr]; simpl.
  - by rewrite Heq.
  - by rewrite IH.
  - by rewrite IHl, IHr.
  - by rewrite IHl, IHr.
Qed.

(** X14: the identity intervention changes nothing.  In a setting that
    was built, on a network whose endogenous variables all have their
    equation and whose equations only read their parents, the causal
    formula that intervenes with the override map of the network itself
    (the empty intervention, for a network that is not intervened)
    evaluates as its event does in the setting. *)
Theorem identity_intervention (N : CausalNetwork) (c : gmap string Z)
  (Dx Dy : gmap string (gset Z)) (S : CausalSetting) (e : Event) :
  CausalSetting_init N c Dx Dy = Ok S →
  (∀ V, V ∈ (signature N).2 → is_Some (structural_equations N !! V)) →
  reads_only_parents N →
  CausalFormula_entailed_by
    {| intervention := endogenous_bindings N; event := e |} S
  = Event_entailed_by e S.
Proof.
  intros HS Hwf Hreads.
  pose proof HS as (Hc & HDx & HDy & d & Hd & HSeq)%CausalSetting_init_Ok.
  destruct (CausalSetting_init_domains _ _ _ _ _ HS) as [Hctx Hvals].
  destruct (intervene_defined N (endogenous_bindings N) Hwf) as [N' HN'].
  pose proof (intervene_signature _ _ _ HN') as Hsig.
  destruct (intervene_Ok _ _ _ HN') as (Hb & Hg & HF & _).
  assert (evaluate N' c = Ok d) as Hd'.
  { apply (evaluate_same_edges N N' c d); [done| | |done|done].
    - intros V _ _. by rewrite Hb.
    - intros V HV HVc _. rewrite HF, decide_True; [done|].
      apply elem_of_signature in HV as [HV|HV]; [|done].
      by rewrite Hc in HV. }
  unfold CausalFormula_entailed_by. rewrite HSeq.
  cbn [causal_network intervention context exogenous_domains
       endogenous_domains event].
  rewrite HN'. simpl.
  rewrite (CausalSetting_init_built N' c Dx Dy d);
    [|by rewrite Hsig..|done|done|].
  - simpl. by apply Event_entailed_by_values.
  - intros V D x HD Hx. destruct (Hvals V D HD) as (x' & Hx' & HxD).
    rewrite HSeq in Hx'. cbn [values] in Hx'.
    rewrite (lookup_union_Some_l d c V x Hx) in Hx'. by injection Hx' as <-.
Qed.

Lemma chain_reads_only_parents : reads_only_parents Examples.chain.
Proof.
  intros V f m1 m2 Hf Hagree.
  change (structural_equations Examples.chain)
    with (<["A" := Examples.copy_of "U"]>
            (∅ : gmap string (gmap string Z → result Z))) in Hf.
  change (graph Examples.chain) with [("U", "A")] in Hagree.
  apply lookup_insert_Some in Hf as [[<- <-]|[_ Hf]]; [|done].
  apply copy_of_reads, Hagree. set_solver.
Qed.

Lemma identity_intervention_witness :
  CausalFormula_entailed_by
    {| intervention := ∅; event := Examples.A_is_1 |} Examples.chain_setting
  = Ok true.
Proof.
  apply (identity_intervention Examples.chain Examples.chain_context
           Examples.chain_Dx Examples.chain_Dy Examples.chain_setting
           Examples.A_is_1).
  - apply chain_setting_init.
  - apply built_equations, chain_built.
  - apply chain_reads_only_parents.
Defined.

(** X15: an intervention is effective.  In a setting that was built, with
    structural equations as the data model asks for, a causal formula
    whose intervention stays inside the endogenous domains and pins the
    endogenous variable [V] to [x] entails the event [V = x]. *)
Theorem intervention_effective (N : CausalNetwork) (c : gmap string Z)
  (Dx Dy : gmap string (gset Z)) (S : CausalSetting)
  (sigma : gmap string Z) (V : string) (x : Z) :
  CausalSetting_init N c Dx Dy = Ok S →
  equations_defined N Dx Dy →
  within_domains Dy sigma →
  V ∈ dom Dy →
  sigma !! V = Some x →
  CausalFormula_entailed_by
    {| intervention := sigma; event := PrimitiveEvent V x |} S = Ok true.
Proof.
  intros HS Heq Hsigma HV Hx.
  pose proof HS as (Hc & HDx & HDy & d & Hd & HSeq)%CausalSetting_init_Ok.
  destruct (intervened_setting_defined N c Dx Dy S HS Heq sigma Hsigma)
    as (N' & S' & HN' & HS' & _).
  pose proof (intervene_signature _ _ _ HN') as Hsig.
  destruct (intervene_Ok _ _ _ HN') as (Hb & Hg & _).
  pose proof HS' as (_ & _ & _ & d' & Hd' & HS'eq)%CausalSetting_init_Ok.
  unfold CausalFormula_entailed_by. rewrite HSeq.
  cbn [causal_network intervention context exogenous_domains
       endogenous_domains event].
  rewrite HN'. simpl. rewrite HS'.
  simpl. rewrite HS'eq. cbn [values].
  assert (d' !! V = Some x) as HdV.
  { apply (evaluate_pinned N' c d' V x Hd'); [by rewrite Hb| |].
    - rewrite <-HDy in HV. apply elem_of_endogenous in HV as [u Hu].
      apply Hg in Hu. by apply edge_nodes in Hu as [_ ?].
    - rewrite <-Hc. intros HVc. rewrite <-HDy in HV.
      by eapply signature_disjoint. }
  unfold getitem. rewrite (lookup_union_Some_l d' c V x HdV). simpl.
  by rewrite bool_decide_eq_true_2.
Qed.

Lemma chain_equations_defined :
  equations_defined Examples.chain Examples.chain_Dx Examples.chain_Dy.
Proof.
  split; [apply built_equations, chain_built|].
  intros V f D m Hf HD Hparents.
  change (structural_equations Examples.chain)
    with (<["A" := Examples.copy_of "U"]>
            (∅ : gmap string (gmap string Z → result Z))) in Hf.
  apply lookup_insert_Some in Hf as [[<- <-]|[_ Hf]]; [|done].
  destruct (Hparents "U") as (y & Du & Hy & HDu & HyD).
  { change (graph Examples.chain) with [("U", "A")]. apply list_elem_of_here. }
  exists y. split; [unfold Examples.copy_of, getitem; by rewrite Hy|].
  vm_compute in HDu, HD. congruence.
Qed.

Lemma intervention_effective_witness :
  CausalFormula_entailed_by
    {| intervention := {[ "A" := 0%Z ]}; event := PrimitiveEvent "A" 0%Z |}
    Examples.chain_setting = Ok true.
Proof.
  apply (intervention_effective Examples.chain Examples.chain_context
           Examples.chain_Dx Examples.chain_Dy).
  - apply chain_setting_init.
  - apply chain_equations_defined.
  - intros V x D Hx HD.
    apply lookup_singleton_Some in Hx as [<- <-].
    unfold Examples.chain_Dy in HD.
    apply lookup_singleton_Some in HD as [_ <-].
    unfold Examples.boolean. set_solver.
  - unfold Examples.chain_Dy. rewrite dom_singleton_L. set_solver.
  - apply lookup_singleton_eq.
Defined.

(** ** The enumerations of assignments *)

Lemma getitems_Raise {V} (d : gmap string V) (keys : list string) : ∀ e,
  getitems d keys = Raise e ↔ (∃ k, k ∈ keys ∧ d !! k = None) ∧ e = KeyError.
Proof.
  induction keys as [|k keys IH]; intros e; simpl.
  - split; [done|]. by intros [(k & Hk%elem_of_nil & _) _].
  - unfold getitem. destruct (d !! k) as [v|] eqn:Hk; simpl.
    + destruct (getitems d keys) as [vs|e'] eqn:Hvs; simpl.
      * split; [done|]. intros [(k' & Hk' & Hnone) ->].
        apply elem_of_cons in Hk' as [->|Hk']; [congruence|].
        assert (Ok vs = Raise KeyError :> result (list V)); [|done].
        apply IH. eauto.
      * split.
        -- intros [= ->]. destruct (proj1 (IH e) eq_refl)
             as [(k' & Hk' & Hnone) ->].
           split; [|done]. exists k'. split; [by apply elem_of_cons; right|done].
        -- intros [_ ->]. by destruct (proj1 (IH e') eq_refl) as [_ ->].
    + split.
      * intros [= <-]. split; [|done]. exists k.
        split; [apply list_elem_of_here|done].
      * by intros [_ ->].
Qed.

Lemma NoDup_product {A} (ls : list (list A)) :
  Forall NoDup ls → NoDup (product ls).
Proof.
  induction 1 as [|l ls Hl _ IH]; simpl.
  - apply NoDup_singleton.
  - apply NoDup_bind; [|intros x _; apply (NoDup_fmap_2 _), IH|done].
    intros x1 x2 y _ _ (t1 & -> & _)%list_elem_of_fmap
      (t2 & [= -> _] & _)%list_elem_of_fmap. done.
Qed.

Lemma list_to_map_zip_inj (keys : list string) (vals1 vals2 : list Z) :
  NoDup keys → length keys = length vals1 → length keys = length vals2 →
  list_to_map (zip keys vals1) =@{gmap string Z} list_to_map (zip keys vals2) →
  vals1 = vals2.
Proof.
  intros Hnd Hlen1 Hlen2 Heq. apply list_eq. intros i.
  destruct (keys !! i) as [k|] eqn:Hk.
  - destruct (lookup_lt_is_Some_2 vals1 i) as [v1 Hv1].
    { rewrite <-Hlen1. by eapply lookup_lt_Some. }
    destruct (lookup_lt_is_Some_2 vals2 i) as [v2 Hv2].
    { rewrite <-Hlen2. by eapply lookup_lt_Some. }
    assert ((list_to_map (zip keys vals1) : gmap string Z) !! k = Some v1) as H1.
    { apply lookup_list_to_map_zip; eauto. }
    rewrite Heq in H1.
    apply lookup_list_to_map_zip in H1 as (j & Hj & Hvj); [|done..].
    assert (i = j) as <- by (by eapply NoDup_lookup).
    congruence.
  - apply lookup_ge_None in Hk.
    rewrite !(proj2 (lookup_ge_None _ _)) by lia. done.
Qed.

Lemma find_exact_assignments_NoDup (doms : gmap string (gset Z))
  (variables : list string) :
  NoDup variables → NoDup (yielded (find_exact_assignments doms variables)).
Proof.
  intros Hnd. unfold find_exact_assignments.
  destruct (decide (variables = [])); [apply NoDup_nil_2|].
  destruct (getitems doms (sorted variables)) as [ds|e'] eqn:Hds;
    [|apply NoDup_nil_2].
  rewrite yielded_yield_all, app_nil_r.
  assert (NoDup (sorted variables)) as Hnds by (by rewrite sorted_Permutation).
  apply getitems_Ok, Forall2_length in Hds.
  apply NoDup_fmap_2_strong.
  - intros vals1 vals2 H1%elem_of_product H2%elem_of_product.
    apply Forall2_length in H1, H2. rewrite length_fmap in H1, H2.
    apply list_to_map_zip_inj; [done|lia..].
  - apply NoDup_product, Forall_fmap, Forall_forall.
    intros D _. apply NoDup_elements.
Qed.

(** X16: [find_exact_assignments] fails on its first step with
    [AssertionError] when no variable is given, and with [KeyError] when
    some variable has no domain; otherwise it ends normally, after having
    yielded each assignment of exactly the given variables to values of
    their domains, once. *)
Theorem find_exact_assignments_enumerates (doms : gmap string (gset Z))
  (variables : list string) :
  (variables = [] →
   find_exact_assignments doms variables = Throw AssertionError)
  ∧ (variables ≠ [] → (∃ v, v ∈ variables ∧ doms !! v = None) →
     find_exact_assignments doms variables = Throw KeyError)
  ∧ (variables ≠ [] → NoDup variables →
     (∀ v, v ∈ variables → is_Some (doms !! v)) →
     ∃ L, find_exact_assignments doms variables = yield_all L StopIteration
          ∧ NoDup L
          ∧ ∀ a : gmap string Z,
              a ∈ L ↔ dom a = list_to_set variables ∧ within_domains doms a).
Proof.
  split; [|split].
  - intros ->. done.
  - intros Hne (v & Hv & Hnone). unfold find_exact_assignments.
    rewrite decide_False by done.
    assert (getitems doms (sorted variables) = Raise KeyError) as ->; [|done].
    apply getitems_Raise. split; [|done]. exists v.
    by rewrite (sorted_Permutation variables).
  - intros Hne Hnd Hdef.
    destruct (find_exact_assignments_spec doms variables Hne Hnd Hdef)
      as (L & HL & Hspec).
    exists L. split; [done|]. split.
    + pose proof (find_exact_assignments_NoDup doms variables Hnd) as HndL.
      by rewrite HL, yielded_yield_all, app_nil_r in HndL.
    + intros a. rewrite Hspec. unfold within_domains. naive_solver.
Qed.

Lemma find_exact_assignments_enumerates_witness :
  ∃ L, find_exact_assignments Examples.chain_Dy ["A"]
       = yield_all L StopIteration
       ∧ NoDup L
       ∧ ∀ a : gmap string Z,
           a ∈ L ↔ dom a = list_to_set ["A"]
                   ∧ within_domains Examples.chain_Dy a.
Proof.
  apply (find_exact_assignments_enumerates Examples.chain_Dy ["A"]).
  - done.
  - apply NoDup_singleton.
  - intros v ->%list_elem_of_singleton. by eexists.
Defined.

(** *** All partial assignments *)

Lemma yield_from_yield_all {A} (L1 : list A) (g : generator A) :
  yield_from (yield_all L1 StopIteration) g = yield_all L1 g.
Proof. induction L1 as [|a L1 IH]; simpl; [done|by rewrite IH]. Qed.

Lemma yield_all_app {A} (L1 L2 : list A) (g : generator A) :
  yield_all L1 (yield_all L2 g) = yield_all (L1 ++ L2) g.
Proof. induction L1 as [|a L1 IH]; simpl; [done|by rewrite IH]. Qed.

Lemma sublist_same_elements {A} (l : list A) : ∀ l1 l2,
  NoDup l → l1 `sublist_of` l → l2 `sublist_of` l →
  (∀ x, x ∈ l1 ↔ x ∈ l2) → l1 = l2.
Proof.
  induction l as [|x l IH]; intros l1 l2 Hnd H1 H2 Hsame.
  - apply sublist_nil_r in H1, H2. congruence.
  - apply NoDup_cons in Hnd as [Hx Hnd].
    apply sublist_cons_r in H1 as [H1|(t1 & -> & H1)];
      apply sublist_cons_r in H2 as [H2|(t2 & -> & H2)].
    + by apply IH.
    + exfalso. apply Hx. eapply elem_of_sublist; [|exact H1].
      apply Hsame, list_elem_of_here.
    + exfalso. apply Hx. eapply elem_of_sublist; [|exact H2].
      apply Hsame, list_elem_of_here.
    + f_equal. apply IH; [done..|]. intros y.
      specialize (Hsame y). rewrite !elem_of_cons in Hsame.
      split; intros Hy.
      * destruct (proj1 Hsame (or_intror Hy)) as [->|?]; [|done].
        exfalso. apply Hx. by eapply elem_of_sublist.
      * destruct (proj2 Hsame (or_intror Hy)) as [->|?]; [|done].
        exfalso. apply Hx. by eapply elem_of_sublist.
Qed.

Lemma NoDup_combinations {A} (l : list A) : ∀ r,
  NoDup l → NoDup (combinations l r).
Proof.
  induction l as [|x l IH]; intros [|r] Hnd; simpl;
    try apply NoDup_singleton; [apply NoDup_nil_2|].
  apply NoDup_cons in Hnd as [Hx Hnd].
  apply NoDup_app. split; [apply (NoDup_fmap_2 _); auto|]. split; [|auto].
  intros y (t & -> & _)%list_elem_of_fmap [Hsub _]%elem_of_combinations.
  apply Hx. eapply elem_of_sublist; [|exact Hsub]. apply list_elem_of_here.
Qed.

Lemma NoDup_powerset {A} (l : list A) : NoDup l → NoDup (powerset l).
Proof.
  intros Hnd. unfold powerset. apply NoDup_bind; [| |apply NoDup_seq].
  - intros r1 r2 y _ _ [_ <-]%elem_of_combinations [_ <-]%elem_of_combinations.
    done.
  - intros r _. by apply NoDup_combinations.
Qed.

Lemma find_all_assignments_loop_spec (doms : gmap string (gset Z))
  (subsets : list (list string)) :
  (∀ vars, vars ∈ subsets →
           NoDup vars ∧ ∀ v, v ∈ vars → is_Some (doms !! v)) →
  NoDup (list_to_set <$> subsets : list (gset string)) →
  ∃ L, find_all_assignments_loop doms subsets = yield_all L StopIteration
       ∧ NoDup L
       ∧ ∀ a : gmap string Z,
           a ∈ L ↔ ∃ vars, vars ∈ subsets ∧ vars ≠ []
                           ∧ dom a = list_to_set vars
                           ∧ within_domains doms a.
Proof.
  induction subsets as [|vars subsets IH]; intros Hall Hnd; simpl.
  - exists []. split; [done|]. split; [apply NoDup_nil_2|].
    intros a. split; [by intros ?%elem_of_nil|].
    by intros (? & ?%elem_of_nil & _).
  - rewrite fmap_cons in Hnd. apply NoDup_cons in Hnd as [Hfresh Hnd].
    destruct IH as (L & HL & HndL & HspecL); [|done|].
    { intros vars' Hvars'. apply Hall. by apply elem_of_cons; right. }
    destruct (decide (vars = [])) as [->|Hne].
    + exists L. split; [done|]. split; [done|]. intros a. rewrite HspecL.
      split.
      * intros (vars' & Hin & Hrest). exists vars'.
        split; [by apply elem_of_cons; right|done].
      * intros (vars' & [->|Hin]%elem_of_cons & Hne' & Hrest); [done|eauto].
    + destruct (Hall vars) as [Hndv Hdefv]; [apply list_elem_of_here|].
      destruct (find_exact_assignments_spec doms vars Hne Hndv Hdefv)
        as (L1 & HL1 & Hspec1).
      pose proof (find_exact_assignments_NoDup doms vars Hndv) as HndL1.
      rewrite HL1, yielded_yield_all, app_nil_r in HndL1.
      exists (L1 ++ L). split; [|split].
      * by rewrite HL1, HL, yield_from_yield_all, yield_all_app.
      * apply NoDup_app. split; [done|]. split; [|done].
        intros a [Hdom _]%Hspec1 (vars' & Hin & _ & Hdom' & _)%HspecL.
        apply Hfresh, list_elem_of_fmap. exists vars'. split; [|done].
        congruence.
      * intros a. rewrite elem_of_app, Hspec1, HspecL. split.
        -- intros [[Hdom Hin]|(vars' & Hin & Hrest)].
           ++ exists vars. split; [apply list_elem_of_here|].
              split; [done|]. split; [done|].
              intros V x D Hx HD. by eapply Hin.
           ++ exists vars'. split; [by apply elem_of_cons; right|done].
        -- intros (vars' & [->|Hin]%elem_of_cons & Hne' & Hdom & Hwithin).
           ++ left. split; [done|]. intros V D x HD Hx. by eapply Hwithin.
           ++ right. eauto.
Qed.

Lemma find_all_assignments_spec (doms : gmap string (gset Z)) :
  ∃ L, find_all_assignments doms = yield_all L StopIteration
       ∧ NoDup L
       ∧ ∀ a : gmap string Z, a ∈ L ↔ candidate_assignment doms a.
Proof.
  pose proof (NoDup_fst_map_to_list doms) as Hkeys.
  assert (∀ k, k ∈ (map_to_list doms).*1 ↔ k ∈ dom doms) as Hdom.
  { intros k. rewrite elem_of_dom, list_elem_of_fmap. split.
    - intros ([k' D] & -> & Hin%elem_of_map_to_list). eauto.
    - intros [D HD]. exists (k, D). by rewrite elem_of_map_to_list. }
  destruct (find_all_assignments_loop_spec doms
              (powerset (map_to_list doms).*1)) as (L & HL & HndL & Hspec).
  - intros vars Hsub%elem_of_powerset. split.
    + by eapply sublist_NoDup.
    + intros v Hv. apply elem_of_dom, Hdom. by eapply elem_of_sublist.
  - apply NoDup_fmap_2_strong; [|by apply NoDup_powerset].
    intros l1 l2 H1%elem_of_powerset H2%elem_of_powerset Heq.
    apply (sublist_same_elements (map_to_list doms).*1); [done..|].
    intros x. by rewrite <-!(elem_of_list_to_set (C := gset string)), Heq.
  - exists L. split; [done|]. split; [done|]. intros a. rewrite Hspec.
    unfold candidate_assignment. split.
    + intros (vars & Hsub%elem_of_powerset & Hne & Hdoma & Hwithin).
      split; [|split; [|done]].
      * intros ->. rewrite dom_empty_L in Hdoma.
        destruct vars as [|v vars]; [done|]. set_solver.
      * intros k. rewrite Hdoma, elem_of_list_to_set, <-Hdom.
        intros Hk. by eapply elem_of_sublist.
    + intros (Hne & Hsub & Hwithin).
      exists (filter (fun k => k ∈ dom a) (map_to_list doms).*1).
      split; [apply elem_of_powerset, sublist_filter|].
      assert (∀ k, k ∈ filter (fun k => k ∈ dom a) (map_to_list doms).*1
                   ↔ k ∈ dom a) as Hfilter.
      { intros k. rewrite list_elem_of_filter, Hdom. set_solver. }
      split; [|split; [|done]].
      * intros Hnil. apply Hne, dom_empty_iff_L, set_eq. intros k.
        rewrite <-Hfilter, Hnil. set_solver.
      * apply set_eq. intros k. by rewrite elem_of_list_to_set, Hfilter.
Qed.

(** X17: [find_all_assignments] never fails, whatever the domains are: it
    ends normally after having yielded, each exactly once, the non-empty
    assignments of some of the variables of [domains] to values of their
    domains.  With an empty domain, or no variable, it yields nothing. *)
Theorem find_all_assignments_enumerates (doms : gmap string (gset Z)) :
  ending (find_all_assignments doms) = Ok tt
  ∧ NoDup (yielded (find_all_assignments doms))
  ∧ (∀ a : gmap string Z,
       a ∈ yielded (find_all_assignments doms)
       ↔ a ≠ ∅ ∧ dom a ⊆ dom doms
         ∧ ∀ V x D, a !! V = Some x → doms !! V = Some D → x ∈ D)
  ∧ (doms = ∅ → yielded (find_all_assignments doms) = []).
Proof.
  destruct (find_all_assignments_spec doms) as (L & HL & HndL & Hspec).
  rewrite HL, yielded_yield_all, ending_yield_all, app_nil_r.
  split; [done|]. split; [done|]. split; [exact Hspec|].
  intros ->. destruct L as [|a L]; [done|].
  destruct (proj1 (Hspec a)) as (Hne & Hdom & _); [apply list_elem_of_here|].
  rewrite dom_empty_L in Hdom. exfalso. apply Hne, dom_empty_iff_L.
  set_solver.
Qed.

(** *** The search for candidate causes *)

Lemma search_loop_spec (condition : gmap string Z → result bool)
  (L : list (gmap string Z)) :
  let G := search_loop condition (yield_all L StopIteration) in
  (∀ a, a ∈ yielded G → a ∈ L ∧ condition a = Ok true)
  ∧ (NoDup L → NoDup (yielded G))
  ∧ (ending G = Ok tt
     ↔ ∀ a, a ∈ L → ∃ b, condition a = Ok b)
  ∧ (ending G = Ok tt →
     ∀ a, a ∈ L → condition a = Ok true → a ∈ yielded G)
  ∧ (∀ err, ending G = Raise err → ∃ a, a ∈ L ∧ condition a = Raise err).
Proof.
  induction L as [|a0 L IH]; simpl.
  - split; [by intros a ?%elem_of_nil|]. split; [done|].
    split; [split; [by intros _ a ?%elem_of_nil|done]|].
    split; [by intros _ a ?%elem_of_nil|done].
  - destruct IH as (IH1 & IH2 & IH3 & IH4 & IH5).
    destruct (condition a0) as [[|]|e0] eqn:Ha0; simpl.
    + split; [|split; [|split; [|split]]].
      * intros a [->|Ha]%elem_of_cons.
        -- split; [apply list_elem_of_here|done].
        -- destruct (IH1 a Ha). split; [by apply elem_of_cons; right|done].
      * intros [Hfresh Hnd]%NoDup_cons. apply NoDup_cons. split; [|auto].
        intros Hin. by destruct (IH1 a0 Hin).
      * rewrite IH3. split.
        -- intros H a [->|Ha]%elem_of_cons; [eauto|auto].
        -- intros H a Ha. apply H. by apply elem_of_cons; right.
      * intros Hend a [->|Ha]%elem_of_cons Htrue.
        -- apply list_elem_of_here.
        -- apply elem_of_cons. right. auto.
      * intros err Herr. destruct (IH5 err Herr) as (a & Ha & Hraise).
        exists a. split; [by apply elem_of_cons; right|done].
    + split; [|split; [|split; [|split]]].
      * intros a Ha. destruct (IH1 a Ha).
        split; [by apply elem_of_cons; right|done].
      * intros [_ Hnd]%NoDup_cons. auto.
      * rewrite IH3. split.
        -- intros H a [->|Ha]%elem_of_cons; [eauto|auto].
        -- intros H a Ha. apply H. by apply elem_of_cons; right.
      * intros Hend a [->|Ha]%elem_of_cons Htrue; [congruence|auto].
      * intros err Herr. destruct (IH5 err Herr) as (a & Ha & Hraise).
        exists a. split; [by apply elem_of_cons; right|done].
    + split; [by intros a ?%elem_of_nil|]. split; [intros _; apply NoDup_nil_2|].
      split; [|split].
      * split; [done|]. intros H.
        destruct (H a0) as [b Hb]; [apply list_elem_of_here|congruence].
      * done.
      * intros err [= <-]. exists a0. split; [apply list_elem_of_here|done].
Qed.

Lemma search_candidate_causes_spec (e : Event) (S : CausalSetting)
  (condition : gmap string Z → Event → CausalSetting → result bool) :
  let G := search_candidate_causes e S condition in
  (∀ a, a ∈ yielded G →
        candidate_assignment (endogenous_domains S) a
        ∧ condition a e S = Ok true)
  ∧ NoDup (yielded G)
  ∧ (ending G = Ok tt
     ↔ ∀ a, candidate_assignment (endogenous_domains S) a →
            ∃ b, condition a e S = Ok b)
  ∧ (ending G = Ok tt →
     ∀ a, candidate_assignment (endogenous_domains S) a →
          condition a e S = Ok true → a ∈ yielded G)
  ∧ (∀ err, ending G = Raise err →
            ∃ a, candidate_assignment (endogenous_domains S) a
                 ∧ condition a e S = Raise err).
Proof.
  unfold search_candidate_causes.
  destruct (find_all_assignments_spec (endogenous_domains S))
    as (L & -> & HndL & Hspec).
  destruct (search_loop_spec (fun a => condition a e S) L)
    as (H1 & H2 & H3 & H4 & H5).
  cbv zeta. split; [|split; [|split; [|split]]].
  - intros a Ha. destruct (H1 a Ha). by rewrite <-Hspec.
  - auto.
  - rewrite H3. by setoid_rewrite Hspec.
  - intros Hend a Ha. apply H4; [done|]. by apply Hspec.
  - intros err Herr. destruct (H5 err Herr) as (a & Ha & Hraise).
    exists a. by rewrite <-Hspec.
Qed.

(** X18: [search_candidate_causes] is sound and, when it ends normally,
    complete.  Whatever the condition is, every assignment it yields is
    a candidate (non-empty, over endogenous variables, with values of
    their domains) on which the condition returned True, and none is
    yielded twice.  It ends normally exactly when the condition returns
    a Boolean on every candidate, and it has then yielded every
    candidate on which the condition returns True.  When it ends with an
    exception, the condition raised it on some candidate. *)
Theorem search_candidate_causes_sound_complete (e : Event) (S : CausalSetting)
  (condition : gmap string Z → Event → CausalSetting → result bool) :
  (∀ a, a ∈ yielded (search_candidate_causes e S condition) →
        candidate_assignment (endogenous_domains S) a
        ∧ condition a e S = Ok true)
  ∧ NoDup (yielded (search_candidate_causes e S condition))
  ∧ (ending (search_candidate_causes e S condition) = Ok tt
     ↔ ∀ a, candidate_assignment (endogenous_domains S) a →
            ∃ b, condition a e S = Ok b)
  ∧ (ending (search_candidate_causes e S condition) = Ok tt →
     ∀ a, candidate_assignment (endogenous_domains S) a →
          (a ∈ yielded (search_candidate_causes e S condition)
           ↔ condition a e S = Ok true))
  ∧ (∀ err, ending (search_candidate_causes e S condition) = Raise err →
            ∃ a, candidate_assignment (endogenous_domains S) a
                 ∧ condition a e S = Raise err).
Proof.
  destruct (search_candidate_causes_spec e S condition)
    as (H1 & H2 & H3 & H4 & H5).
  split; [done|]. split; [done|]. split; [done|]. split; [|done].
  intros Hend a Ha. split.
  - intros Hin. by destruct (H1 a Hin).
  - by apply H4.
Qed.

(** ** Sufficient causes *)

Lemma shares_conjunct_existsb (X A : gmap string Z) :
  existsb (fun kv : string * Z => bool_decide (A !! kv.1 = Some kv.2))
    (map_to_list X) = true
  ↔ shares_conjunct X A.
Proof.
  rewrite existsb_exists. unfold shares_conjunct. split.
  - intros ([V v] & Hin%list_elem_of_In%elem_of_map_to_list
            & Hd%bool_decide_eq_true). eauto.
  - intros (V & v & HX & HA). exists (V, v). split.
    + by apply list_elem_of_In, elem_of_map_to_list.
    + by apply bool_decide_eq_true.
Qed.

Lemma satisfies_sc2_loop_spec (X : gmap string Z)
  (G : generator (gmap string Z)) :
  (satisfies_sc2_loop X G = Ok true
   ↔ ∃ A, A ∈ yielded G ∧ shares_conjunct X A)
  ∧ (satisfies_sc2_loop X G = Ok false
     ↔ ending G = Ok tt ∧ ∀ A, A ∈ yielded G → ¬ shares_conjunct X A)
  ∧ ∀ err, satisfies_sc2_loop X G = Raise err
           ↔ ending G = Raise err
             ∧ ∀ A, A ∈ yielded G → ¬ shares_conjunct X A.
Proof.
  induction G as [|A0 G IH|e0]; simpl.
  - split; [|split].
    + split; [done|]. by intros (A & ?%elem_of_nil & _).
    + split; [|done]. intros _. split; [done|]. by intros A ?%elem_of_nil.
    + intros err. split; [done|]. by intros [? _].
  - destruct IH as (IH1 & IH2 & IH3).
    destruct (existsb _ (map_to_list X)) eqn:Hshare.
    + apply shares_conjunct_existsb in Hshare. split; [|split].
      * split; [|done]. intros _. exists A0.
        split; [apply list_elem_of_here|done].
      * split; [done|]. intros [_ Hnone].
        exfalso. apply (Hnone A0); [apply list_elem_of_here|done].
      * intros err. split; [done|]. intros [_ Hnone].
        exfalso. apply (Hnone A0); [apply list_elem_of_here|done].
    + assert (¬ shares_conjunct X A0) as Hno.
      { intros H%shares_conjunct_existsb. congruence. }
      assert (∀ P : gmap string Z → Prop,
                ¬ P A0 →
                ((∀ A, A ∈ A0 :: yielded G → ¬ P A)
                 ↔ ∀ A, A ∈ yielded G → ¬ P A)) as Hall.
      { intros P HP. split.
        - intros H A HA. apply H. by apply elem_of_cons; right.
        - intros H A [->|HA]%elem_of_cons; auto. }
      split; [|split].
      * rewrite IH1. split.
        -- intros (A & HA & Hs). exists A.
           split; [by apply elem_of_cons; right|done].
        -- intros (A & [->|HA]%elem_of_cons & Hs); [done|eauto].
      * by rewrite IH2, (Hall _ Hno).
      * intros err. by rewrite IH3, (Hall _ Hno).
  - split; [|split].
    + split; [done|]. by intros (A & ?%elem_of_nil & _).
    + split; [done|]. by intros [? _].
    + intros err. split.
      * intros [= <-]. split; [done|]. by intros A ?%elem_of_nil.
      * by intros [[= <-] _].
Qed.

Lemma satisfies_sc2_true_sound (X : gmap string Z) (e : Event)
  (S : CausalSetting) :
  satisfies_sc2 X e S = Ok true →
  ∃ A, candidate_assignment (endogenous_domains S) A
       ∧ is_actual_cause A e S = Ok true
       ∧ shares_conjunct X A.
Proof.
  unfold satisfies_sc2.
  intros (A & HA & Hs)%satisfies_sc2_loop_spec. exists A.
  destruct (search_candidate_causes_spec e S is_actual_cause) as (Hsound & _).
  destruct (Hsound A HA). done.
Qed.

(** X19: SC2 as the code decides it.  [satisfies_sc2] returns True only
    if some conjunct of the candidate is a conjunct of a candidate cause
    on which [is_actual_cause] returns True; it returns False only if
    [is_actual_cause] returns a Boolean on every candidate cause, and
    False on each one that shares a conjunct with the candidate; and an
    exception it raises was raised by [is_actual_cause] on some candidate
    cause.  When [is_actual_cause] returns a Boolean on every candidate
    cause, [satisfies_sc2] returns a Boolean, which is True exactly when
    such an actual cause exists. *)
Theorem satisfies_sc2_part_of_actual_cause (X : gmap string Z) (e : Event)
  (S : CausalSetting) :
  (satisfies_sc2 X e S = Ok true →
   ∃ A, candidate_assignment (endogenous_domains S) A
        ∧ is_actual_cause A e S = Ok true
        ∧ shares_conjunct X A)
  ∧ (satisfies_sc2 X e S = Ok false →
     ∀ A, candidate_assignment (endogenous_domains S) A →
          ∃ b, is_actual_cause A e S = Ok b
               ∧ (shares_conjunct X A → b = false))
  ∧ (∀ err, satisfies_sc2 X e S = Raise err →
            ∃ A, candidate_assignment (endogenous_domains S) A
                 ∧ is_actual_cause A e S = Raise err)
  ∧ ((∀ A, candidate_assignment (endogenous_domains S) A →
           ∃ b, is_actual_cause A e S = Ok b) →
     ∃ b, satisfies_sc2 X e S = Ok b
          ∧ (b = true
             ↔ ∃ A, candidate_assignment (endogenous_domains S) A
                    ∧ is_actual_cause A e S = Ok true
                    ∧ shares_conjunct X A)).
Proof.
  unfold satisfies_sc2.
  destruct (satisfies_sc2_loop_spec X
              (search_candidate_causes e S is_actual_cause))
    as (Htrue & Hfalse & Hraise).
  destruct (search_candidate_causes_spec e S is_actual_cause)
    as (Hsound & _ & Hend & Hcomplete & Hthrow).
  cbv zeta in *.
  pose proof (satisfies_sc2_true_sound X e S) as H1.
  unfold satisfies_sc2 in H1.
  split; [done|]. split; [|split].
  - intros [Hstop Hnone]%Hfalse A HA.
    destruct (proj1 Hend Hstop A HA) as [b Hb]. exists b. split; [done|].
    intros Hs. destruct b; [|done].
    exfalso. apply (Hnone A); [|done]. by apply Hcomplete.
  - intros err [Herr _]%Hraise. by apply Hthrow.
  - intros Hdef. pose proof (proj2 Hend Hdef) as Hstop.
    destruct (satisfies_sc2_loop X
                (search_candidate_causes e S is_actual_cause))
      as [[|]|err] eqn:Hloop.
    + exists true. split; [done|]. split; [intros _; by apply H1|done].
    + exists false. split; [done|]. split; [done|].
      intros (A & HA & Hcause & Hs).
      destruct (proj1 Hfalse eq_refl) as [_ Hnone].
      exfalso. apply (Hnone A); [|done]. by apply Hcomplete.
    + destruct (proj1 (Hraise err) eq_refl) as [Herr _]. congruence.
Qed.

(** *** Minimality (SC4) *)

Lemma satisfies_sc4_loop_true (X : gmap string Z) (e : Event)
  (S : CausalSetting) (L : list (gmap string Z)) :
  satisfies_sc4_loop X e S L = Ok true
  ↔ ∀ X', X' ∈ L → X' ≠ ∅ → X' ≠ X →
          is_weak_sufficient_cause X' e S = Ok false.
Proof.
  induction L as [|X0 L IH]; simpl.
  - split; [|done]. by intros _ X' ?%elem_of_nil.
  - destruct (decide (X0 ≠ ∅ ∧ X0 ≠ X)) as [[Hne Hneq]|Hskip].
    + destruct (is_weak_sufficient_cause X0 e S) as [[|]|err] eqn:Hweak; simpl.
      * split; [done|]. intros H.
        specialize (H X0 (list_elem_of_here _ _) Hne Hneq). congruence.
      * rewrite IH. split.
        -- intros H X' [->|HX']%elem_of_cons; auto.
        -- intros H X' HX'. apply H. by apply elem_of_cons; right.
      * split; [done|]. intros H.
        specialize (H X0 (list_elem_of_here _ _) Hne Hneq). congruence.
    + rewrite IH. split.
      * intros H X' [->|HX']%elem_of_cons Hne Hneq; [|auto].
        exfalso. by apply Hskip.
      * intros H X' HX'. apply H. by apply elem_of_cons; right.
Qed.

Lemma satisfies_sc4_loop_false (X : gmap string Z) (e : Event)
  (S : CausalSetting) (L : list (gmap string Z)) :
  satisfies_sc4_loop X e S L = Ok false →
  ∃ X', X' ∈ L ∧ X' ≠ ∅ ∧ X' ≠ X
        ∧ is_weak_sufficient_cause X' e S = Ok true.
Proof.
  induction L as [|X0 L IH]; simpl; [done|].
  assert ((∃ X', X' ∈ L ∧ X' ≠ ∅ ∧ X' ≠ X
                 ∧ is_weak_sufficient_cause X' e S = Ok true) →
          ∃ X', X' ∈ X0 :: L ∧ X' ≠ ∅ ∧ X' ≠ X
                ∧ is_weak_sufficient_cause X' e S = Ok true) as Hrest.
  { intros (X' & HX' & H). exists X'.
    split; [by apply elem_of_cons; right|done]. }
  destruct (decide (X0 ≠ ∅ ∧ X0 ≠ X)) as [[Hne Hneq]|Hskip]; [|auto].
  destruct (is_weak_sufficient_cause X0 e S) as [[|]|err] eqn:Hweak; simpl;
    [|auto|done].
  intros _. exists X0. split; [apply list_elem_of_here|done].
Qed.

Lemma is_sufficient_cause_true (X : gmap string Z) (e : Event)
  (S : CausalSetting) :
  is_sufficient_cause X e S = Ok true
  ↔ is_weak_sufficient_cause X e S = Ok true
    ∧ satisfies_sc4 X e S = Ok true.
Proof.
  unfold is_sufficient_cause.
  destruct (is_weak_sufficient_cause X e S) as [[|]|err]; simpl;
    [|by split; [|intros [? _]]..].
  destruct (satisfies_sc4 X e S) as [[|]|err]; simpl;
    by split; [|intros [_ ?]].
Qed.

(** X20: [is_sufficient_cause] is [is_weak_sufficient_cause] plus
    minimality.  It returns True exactly when the candidate is a weak
    sufficient cause and [is_weak_sufficient_cause] returns False on
    every strict non-empty sub-dict; and whenever it returns a Boolean,
    the Boolean is True iff the candidate is a weak sufficient cause and
    no strict non-empty sub-dict is.  Unlike AC3, the empty sub-dict is
    skipped, not tested. *)
Theorem is_sufficient_cause_iff (X : gmap string Z) (e : Event)
  (S : CausalSetting) :
  (is_sufficient_cause X e S = Ok true
   ↔ is_weak_sufficient_cause X e S = Ok true
     ∧ ∀ X', X' ⊆ X → X' ≠ X → X' ≠ ∅ →
             is_weak_sufficient_cause X' e S = Ok false)
  ∧ ∀ b, is_sufficient_cause X e S = Ok b →
         (b = true
          ↔ is_weak_sufficient_cause X e S = Ok true
            ∧ ¬ ∃ X', X' ⊆ X ∧ X' ≠ X ∧ X' ≠ ∅
                      ∧ is_weak_sufficient_cause X' e S = Ok true).
Proof.
  assert (satisfies_sc4 X e S = Ok true
          ↔ ∀ X', X' ⊆ X → X' ≠ X → X' ≠ ∅ →
                  is_weak_sufficient_cause X' e S = Ok false) as Hsc4.
  { unfold satisfies_sc4. rewrite satisfies_sc4_loop_true.
    setoid_rewrite elem_of_powerdict. naive_solver. }
  split; [by rewrite is_sufficient_cause_true, Hsc4|].
  intros [|] Hb.
  - split; [intros _|done].
    apply is_sufficient_cause_true in Hb as [Hweak Hmin].
    pose proof (proj1 Hsc4 Hmin) as Hmin'. clear Hmin. rename Hmin' into Hmin.
    split; [done|]. intros (X' & Hsub & Hneq & Hne & Hweak').
    rewrite (Hmin X' Hsub Hneq Hne) in Hweak'. done.
  - split; [done|]. intros [Hweak Hnone]. exfalso.
    unfold is_sufficient_cause in Hb. rewrite Hweak in Hb. simpl in Hb.
    destruct (satisfies_sc4 X e S) as [[|]|err] eqn:H4; simpl in Hb; [done| |done].
    apply satisfies_sc4_loop_false in H4 as (X' & HX'%elem_of_powerdict & ? & ? & ?).
    apply Hnone. eauto.
Qed.

(** X21: for a candidate with a single conjunct, SC4 holds without any
    test, so that [is_sufficient_cause] returns what
    [is_weak_sufficient_cause] returns, Boolean or exception. *)
Theorem is_sufficient_cause_singleton (V : string) (v : Z) (e : Event)
  (S : CausalSetting) :
  satisfies_sc4 {[ V := v ]} e S = Ok true
  ∧ is_sufficient_cause {[ V := v ]} e S
    = is_weak_sufficient_cause {[ V := v ]} e S.
Proof.
  assert (satisfies_sc4 {[ V := v ]} e S = Ok true) as Hsc4.
  { unfold satisfies_sc4. rewrite powerdict_singleton. simpl.
    rewrite decide_False by (by intros [? _]).
    rewrite decide_False by (by intros [_ ?]). done. }
  split; [done|]. unfold is_sufficient_cause. rewrite Hsc4.
  by destruct (is_weak_sufficient_cause _ e S) as [[|]|err].
Qed.

(** *** Weak sufficient causes *)

Lemma satisfies_sc3_true_sound (X : gmap string Z) (e : Event)
  (S : CausalSetting) :
  satisfies_sc3 X e S = Ok true →
  ∀ c', total_assignment (exogenous_domains S) c' →
        ∃ S', CausalSetting_init (causal_network S) c'
                (exogenous_domains S) (endogenous_domains S) = Ok S'
              ∧ CausalFormula_entailed_by
                  {| intervention := X; event := e |} S' = Ok true.
Proof.
  unfold satisfies_sc3.
  destruct (decide (exogenous_domains S = ∅)) as [Hempty|Hne].
  - by rewrite Hempty, map_to_list_empty.
  - destruct (find_exact_assignments_keys _ Hne) as (L & -> & HL).
    rewrite satisfies_sc3_loop_true. unfold total_assignment.
    intros Hall c' Hc'. apply Hall, HL. done.
Qed.

Lemma is_weak_sufficient_cause_true (X : gmap string Z) (e : Event)
  (S : CausalSetting) :
  is_weak_sufficient_cause X e S = Ok true
  ↔ satisfies_sc1 X e S = Ok true
    ∧ satisfies_sc2 X e S = Ok true
    ∧ satisfies_sc3 X e S = Ok true.
Proof.
  unfold is_weak_sufficient_cause.
  destruct (satisfies_sc1 X e S) as [[|]|err]; simpl;
    [|by split; [|intros (? & _)]..].
  destruct (satisfies_sc2 X e S) as [[|]|err]; simpl;
    [|by split; [|intros (_ & ? & _)]..].
  destruct (satisfies_sc3 X e S) as [[|]|err]; simpl;
    by split; [|intros (_ & _ & ?)].
Qed.

(** X22: what a weak sufficient cause is.  When
    [is_weak_sufficient_cause] returns True, the candidate is not empty
    and factual and the event holds (SC1); some conjunct of the candidate
    is a conjunct of an actual cause of the event (SC2); and in every
    context, the setting of the same network is built and entails the
    event under the intervention that sets the candidate (SC3). *)
Theorem weak_sufficient_cause_sound (X : gmap string Z) (e : Event)
  (S : CausalSetting) :
  is_weak_sufficient_cause X e S = Ok true →
  X ≠ ∅ ∧ X ⊆ values S ∧ Event_entailed_by e S = Ok true
  ∧ (∃ A, candidate_assignment (endogenous_domains S) A
          ∧ is_actual_cause A e S = Ok true
          ∧ shares_conjunct X A)
  ∧ ∀ c', total_assignment (exogenous_domains S) c' →
          ∃ S', CausalSetting_init (causal_network S) c'
                  (exogenous_domains S) (endogenous_domains S) = Ok S'
                ∧ CausalFormula_entailed_by
                    {| intervention := X; event := e |} S' = Ok true.
Proof.
  intros (H1 & H2 & H3)%is_weak_sufficient_cause_true.
  apply satisfies_sc1_true_iff in H1 as (Hne & Hsub & He).
  split; [done|]. split; [done|]. split; [done|]. split.
  - by apply satisfies_sc2_true_sound.
  - by apply satisfies_sc3_true_sound.
Qed.

Lemma weak_sufficient_cause_sound_witness :
  ({[ "A" := 1%Z ]} : gmap string Z) ⊆ values Examples.chain_setting
  ∧ ∃ A, candidate_assignment (endogenous_domains Examples.chain_setting) A
         ∧ is_actual_cause A Examples.A_is_1 Examples.chain_setting = Ok true
         ∧ shares_conjunct {[ "A" := 1%Z ]} A.
Proof.
  destruct (weak_sufficient_cause_sound {[ "A" := 1%Z ]} Examples.A_is_1
              Examples.chain_setting) as (_ & Hsub & _ & Hcause & _);
    [reflexivity|by split].
Defined.

(** *** The predicates return *)

Lemma first_variable_variables (e : Event) :
  first_variable e ∈ Event_variables e.
Proof. induction e; simpl; set_solver. Qed.

Section sufficient_defined.
Context (N : CausalNetwork) (c : gmap string Z) (Dx Dy : gmap string (gset Z)).
Context (S : CausalSetting) (e : Event).
Hypothesis HS : CausalSetting_init N c Dx Dy = Ok S.
Hypothesis Heq : equations_defined N Dx Dy.
Hypothesis He : Event_variables e ⊆ dom (values S).

Lemma setting_in_context (c' : gmap string Z) :
  total_assignment Dx c' →
  ∃ S', CausalSetting_init N c' Dx Dy = Ok S'
        ∧ dom (values S') = dom (values S).
Proof.
  intros [Hdomc' Hc']. destruct Heq as [Hwf Hdef].
  pose proof HS as (Hc & HDx & HDy & d & Hd & HSeq)%CausalSetting_init_Ok.
  destruct (CausalSetting_init_domains _ _ _ _ _ HS) as [_ Hvals].
  pose proof (setting_acyclic N c Dx Dy S HS) as Hacyclic.
  pose proof (topological_sort_complete _ Hacyclic) as Hend.
  destruct (topological_sort_Ok _ Hend) as [Hperm Horder].
  set (P := fun m : gmap string Z =>
              ∀ u y Du, m !! u = Some y → (Dx ∪ Dy) !! u = Some Du → y ∈ Du).
  destruct (evaluate_loop_invariant N P (NX.topological_sort (graph N)) c')
    as (final & Hloop & HP); [done| | |].
  - intros u y Du Hy HDu.
    assert (is_Some (Dx !! u)) as [Du' HDu'].
    { apply elem_of_dom. rewrite <-Hdomc'. by eapply elem_of_dom_2. }
    rewrite (lookup_union_Some_l Dx Dy u Du' HDu') in HDu.
    injection HDu as <-. by eapply Hc'.
  - intros j V m Hj HmV HPm Hdm.
    assert (V ∈ NX.nodes (graph N)) as HV.
    { rewrite <-Hperm. by eapply list_elem_of_lookup_2. }
    assert (V ∈ (signature N).2) as Hendo.
    { apply elem_of_signature in HV as [HV|HV]; [|done].
      rewrite HDx, <-Hdomc' in HV. apply elem_of_dom in HV as [y Hy].
      destruct Hdm as [Hcm _].
      by rewrite (lookup_weaken _ _ _ _ Hy Hcm) in HmV. }
    assert (is_Some (Dy !! V)) as [D HD].
    { apply elem_of_dom. by rewrite <-HDy. }
    assert (Dx !! V = None) as HDxV.
    { apply not_elem_of_dom. rewrite <-HDx. intros HVx.
      by eapply signature_disjoint. }
    assert (∀ x, x ∈ D → P (<[V:=x]> m)) as HPins.
    { intros x HxD u y Du Hy HDu.
      destruct (decide (u = V)) as [->|Hne].
      - rewrite lookup_insert_eq in Hy. injection Hy as <-.
        rewrite lookup_union_r in HDu by done. congruence.
      - rewrite lookup_insert_ne in Hy by done. by eapply HPm. }
    unfold structural_equation.
    destruct (endogenous_bindings N !! V) as [pinned|] eqn:Hpin.
    + exists pinned. split; [done|]. apply HPins.
      assert (d !! V = Some pinned) as HdV.
      { apply (evaluate_pinned N c d V pinned Hd Hpin HV).
        rewrite <-Hc. intros HVx. by eapply signature_disjoint. }
      destruct (Hvals V D HD) as (x & Hx & HxD).
      rewrite HSeq in Hx. cbn [values] in Hx.
      rewrite (lookup_union_Some_l d c V pinned HdV) in Hx. congruence.
    + destruct (Hwf V Hendo) as [f Hf].
      unfold getitem. rewrite Hf. simpl.
      destruct (Hdef V f D m Hf HD) as (x & Hx & HxD); [|eauto].
      intros u Hu.
      destruct (Horder u V j Hu Hj) as (i & Hi & Hui).
      assert (u ∈ dom m) as [y Hy]%elem_of_dom.
      { destruct Hdm as [_ Hdm]. apply Hdm.
        apply elem_of_list_to_set, list_elem_of_lookup.
        exists i. by apply lookup_take_Some. }
      assert (is_Some ((Dx ∪ Dy) !! u)) as [Du HDu].
      { apply elem_of_dom. rewrite dom_union_L, <-HDx, <-HDy.
        apply edge_nodes in Hu as [Hu _].
        apply elem_of_signature in Hu. set_solver. }
      exists y, Du. split; [done|]. split; [done|]. by eapply HPm.
  - pose proof Hloop as (_ & Hsub & Hdomf & _)%evaluate_loop_spec.
    set (d' := filter (fun kv : string * Z => c' !! kv.1 = None) final).
    assert (evaluate N c' = Ok d') as Hd'.
    { unfold evaluate. by rewrite Hloop. }
    assert (dom c' = (signature N).1) as Hc'sig by congruence.
    pose proof (dom_evaluate N c' d' Hd' Hc'sig) as Hdomd'.
    eexists. split.
    + apply (CausalSetting_init_built N c' Dx Dy d'); [done..| |done|].
      * intros V D HD.
        assert (is_Some (c' !! V)) as [x Hx].
        { apply elem_of_dom. rewrite Hdomc'. by eapply elem_of_dom_2. }
        exists x. split; [done|]. by eapply Hc'.
      * intros V D x HD Hx.
        apply map_lookup_filter_Some in Hx as [Hx _].
        apply (HP V x D Hx).
        rewrite lookup_union_r; [done|].
        apply not_elem_of_dom. rewrite <-HDx. intros HVx.
        assert (V ∈ (signature N).2) as HVy.
        { rewrite HDy. by eapply elem_of_dom_2. }
        by eapply signature_disjoint.
    + cbn [values]. rewrite HSeq. cbn [values].
      rewrite !dom_union_L, Hdomd', (dom_evaluate N c d Hd) by done.
      by rewrite Hc'sig, Hc.
Qed.

Lemma exogenous_domains_nonempty : Dx ≠ ∅.
Proof.
  intros HDx.
  pose proof (no_exogenous_no_value N c Dx Dy S HS HDx) as Hvals.
  pose proof (first_variable_variables e) as Hfirst.
  apply He in Hfirst. rewrite Hvals, dom_empty_L in Hfirst. set_solver.
Qed.

Lemma satisfies_sc1_defined (X : gmap string Z) :
  X ≠ ∅ → dom X ⊆ dom Dy → ∃ b, satisfies_sc1 X e S = Ok b.
Proof.
  intros HX Hdom.
  destruct (satisfies_ac1_defined N c Dx Dy S e HS He X Hdom) as [b Hb].
  exists b. rewrite <-Hb. unfold satisfies_ac1, satisfies_sc1.
  by rewrite decide_False.
Qed.

Lemma satisfies_sc2_defined (X : gmap string Z) :
  ∃ b, satisfies_sc2 X e S = Ok b.
Proof.
  destruct (setting_fields N c Dx Dy S e HS He) as (HDy & _).
  destruct (search_candidate_causes_spec e S is_actual_cause)
    as (_ & _ & Hend & _).
  cbv zeta in Hend.
  assert (ending (search_candidate_causes e S is_actual_cause) = Ok tt)
    as Hstop.
  { apply Hend. intros A (_ & HA & _). rewrite HDy in HA.
    by apply (is_actual_cause_defined N c Dx Dy S e HS Heq He). }
  unfold satisfies_sc2.
  destruct (satisfies_sc2_loop X
              (search_candidate_causes e S is_actual_cause))
    as [b|err] eqn:Hloop; [eauto|].
  apply satisfies_sc2_loop_spec in Hloop as [Herr _]. congruence.
Qed.

Lemma satisfies_sc3_loop_defined (X : gmap string Z)
  (L : list (gmap string Z)) :
  within_domains Dy X →
  (∀ c', c' ∈ L → total_assignment Dx c') →
  ∃ b, satisfies_sc3_loop X e S (yield_all L StopIteration) = Ok b.
Proof.
  intros HX.
  destruct (setting_fields N c Dx Dy S e HS He) as (HDy & HDx & HN & _).
  induction L as [|c' L IH]; intros HL; simpl; [eauto|].
  destruct (setting_in_context c') as (S' & HS' & Hdom);
    [apply HL, list_elem_of_here|].
  rewrite HN, HDx, HDy, HS'. simpl.
  destruct (CausalFormula_entailed_by_defined N c' Dx Dy S' HS' Heq
              {| intervention := X; event := e |}) as [b Hb];
    [done|by rewrite Hdom|].
  rewrite Hb. simpl. destruct b; simpl; [|eauto].
  apply IH. intros c'' Hc''. apply HL. by apply elem_of_cons; right.
Qed.

Lemma satisfies_sc3_defined (X : gmap string Z) :
  within_domains Dy X → ∃ b, satisfies_sc3 X e S = Ok b.
Proof.
  intros HX. unfold satisfies_sc3.
  destruct (setting_fields N c Dx Dy S e HS He) as (_ & HDx & _).
  destruct (find_exact_assignments_keys (exogenous_domains S))
    as (L & -> & HL).
  { rewrite HDx. apply exogenous_domains_nonempty. }
  apply satisfies_sc3_loop_defined; [done|].
  intros c' Hc'%HL. by rewrite HDx in Hc'.
Qed.

Lemma is_weak_sufficient_cause_defined (X : gmap string Z) :
  candidate_assignment Dy X → ∃ b, is_weak_sufficient_cause X e S = Ok b.
Proof.
  intros (HX & Hdom & Hwithin). unfold is_weak_sufficient_cause.
  destruct (satisfies_sc1_defined X HX Hdom) as [b1 ->]. simpl.
  destruct b1; simpl; [|eauto].
  destruct (satisfies_sc2_defined X) as [b2 ->]. simpl.
  destruct b2; simpl; [|eauto].
  destruct (satisfies_sc3_defined X Hwithin) as [b3 ->]. simpl.
  destruct b3; simpl; eauto.
Qed.

Lemma satisfies_sc4_loop_defined (X : gmap string Z)
  (L : list (gmap string Z)) :
  (∀ X', X' ∈ L → X' ≠ ∅ → candidate_assignment Dy X') →
  ∃ b, satisfies_sc4_loop X e S L = Ok b.
Proof.
  induction L as [|X0 L IH]; intros HL; simpl; [eauto|].
  assert (∃ b, satisfies_sc4_loop X e S L = Ok b) as Hrest.
  { apply IH. intros X' HX'. apply HL. by apply elem_of_cons; right. }
  destruct (decide (X0 ≠ ∅ ∧ X0 ≠ X)) as [[Hne _]|_]; [|done].
  destruct (is_weak_sufficient_cause_defined X0) as [b ->];
    [apply HL; [apply list_elem_of_here|done]|].
  simpl. destruct b; eauto.
Qed.

Lemma is_sufficient_cause_defined (X : gmap string Z) :
  candidate_assignment Dy X → ∃ b, is_sufficient_cause X e S = Ok b.
Proof.
  intros HX. unfold is_sufficient_cause.
  destruct (is_weak_sufficient_cause_defined X HX) as [b ->]. simpl.
  destruct b; simpl; [|eauto].
  destruct (satisfies_sc4_loop_defined X (powerdict X)) as [b Hb].
  - intros X' HX'%elem_of_powerdict Hne.
    destruct HX as (_ & Hdom & Hwithin). split; [done|]. split.
    + etrans; [|exact Hdom]. by apply subseteq_dom.
    + intros V x D Hx HD. apply (Hwithin V x D); [|done].
      by eapply lookup_weaken.
  - unfold satisfies_sc4. rewrite Hb. simpl. destruct b; eauto.
Qed.

End sufficient_defined.

(** X23: the predicates return.  In a setting that was built, with
    structural equations as the data model asks for, and for an event
    over variables of the graph: [is_actual_cause] returns a Boolean on
    every candidate over endogenous variables, [is_sufficient_cause]
    returns a Boolean on every non-empty candidate over endogenous
    variables with values of their domains, and the two searches for
    candidate causes end without an exception. *)
Theorem causes_return (N : CausalNetwork) (c : gmap string Z)
  (Dx Dy : gmap string (gset Z)) (S : CausalSetting) (e : Event) :
  CausalSetting_init N c Dx Dy = Ok S →
  equations_defined N Dx Dy →
  Event_variables e ⊆ dom (values S) →
  (∀ X, dom X ⊆ dom Dy → ∃ b, is_actual_cause X e S = Ok b)
  ∧ (∀ X, candidate_assignment Dy X → ∃ b, is_sufficient_cause X e S = Ok b)
  ∧ ending (search_candidate_causes e S is_actual_cause) = Ok tt
  ∧ ending (search_candidate_causes e S is_sufficient_cause) = Ok tt.
Proof.
  intros HS Heq He.
  destruct (setting_fields N c Dx Dy S e HS He) as (HDy & _).
  assert (∀ X, dom X ⊆ dom Dy → ∃ b, is_actual_cause X e S = Ok b) as Hac.
  { intros X. by apply (is_actual_cause_defined N c Dx Dy S e). }
  assert (∀ X, candidate_assignment Dy X →
               ∃ b, is_sufficient_cause X e S = Ok b) as Hsc.
  { intros X. by apply (is_sufficient_cause_defined N c Dx Dy S e). }
  split; [done|]. split; [done|]. split.
  - destruct (search_candidate_causes_spec e S is_actual_cause)
      as (_ & _ & Hend & _).
    apply Hend. rewrite HDy. intros A (_ & HA & _). auto.
  - destruct (search_candidate_causes_spec e S is_sufficient_cause)
      as (_ & _ & Hend & _).
    apply Hend. rewrite HDy. auto.
Qed.

Lemma causes_return_witness :
  (∃ b, is_actual_cause {[ "A" := 1%Z ]} Examples.A_is_1
          Examples.chain_setting = Ok b)
  ∧ ending (search_candidate_causes Examples.A_is_1 Examples.chain_setting
              is_sufficient_cause) = Ok tt.
Proof.
  destruct (causes_return Examples.chain Examples.chain_context
              Examples.chain_Dx Examples.chain_Dy Examples.chain_setting
              Examples.A_is_1) as (Hac & _ & _ & Hend).
  - apply chain_setting_init.
  - apply chain_equations_defined.
  - apply (bool_decide_unpack _). by vm_compute.
  - split; [|exact Hend]. apply Hac.
    unfold Examples.chain_Dy. by rewrite !dom_singleton_L.
Defined.

(** ** The values of a setting solve the structural equations *)

Lemma structural_equation_reads (N : CausalNetwork) (V : string)
  (m1 m2 : gmap string Z) :
  reads_only_parents N →
  (∀ u, (u, V) ∈ graph N → m1 !! u = m2 !! u) →
  structural_equation N V m1 = structural_equation N V m2.
Proof.
  intros Hreads Hagree. unfold structural_equation, getitem.
  destruct (endogenous_bindings N !! V); [done|].
  destruct (structural_equations N !! V) as [f|] eqn:Hf; simpl; [|done].
  by apply (Hreads V f).
Qed.

Lemma lookup_values_before (c final : gmap string Z) (order : list string)
  (j : nat) (u : string) :
  u ∈ take j order → values_before c order j final !! u = final !! u.
Proof.
  intros Hu. unfold values_before.
  destruct (final !! u) as [y|] eqn:Hy.
  - apply map_lookup_filter_Some. split; [done|]. by right.
  - apply map_lookup_filter_None. by left.
Qed.

Lemma evaluate_solution (N : CausalNetwork) (c d : gmap string Z) :
  reads_only_parents N → evaluate N c = Ok d → solution N c (d ∪ c).
Proof.
  intros Hreads Hd.
  destruct (evaluate_Ok N c d Hd) as ([Hperm Horder] & Hdom & Hdisj & Hval).
  split; [by apply map_union_subseteq_r|]. split.
  - rewrite dom_union_L, Hdom. apply set_eq. intros k.
    rewrite !elem_of_union, elem_of_difference.
    destruct (decide (k ∈ dom c)); naive_solver.
  - intros V HV HVc. rewrite <-Hperm in HV.
    apply list_elem_of_lookup in HV as [j Hj].
    destruct (Hval j V Hj HVc) as (x & Hx & HdV).
    exists x. split; [|by apply lookup_union_Some_l].
    rewrite <-Hx. apply structural_equation_reads; [done|].
    intros u Hu. symmetry. apply lookup_values_before.
    destruct (Horder u V j Hu Hj) as (i & Hi & Hui).
    apply list_elem_of_lookup. exists i. by apply lookup_take_Some.
Qed.

Lemma solution_unique (N : CausalNetwork) (c m1 m2 : gmap string Z)
  (order : list string) :
  reads_only_parents N → topological_order (graph N) order →
  solution N c m1 → solution N c m2 → m1 = m2.
Proof.
  intros Hreads [Hperm Horder] (Hc1 & Hdom1 & Hsol1) (Hc2 & Hdom2 & Hsol2).
  assert (∀ k, k ∈ dom c → m1 !! k = m2 !! k) as Hcontext.
  { intros k [y Hy]%elem_of_dom.
    by rewrite (lookup_weaken _ _ _ _ Hy Hc1), (lookup_weaken _ _ _ _ Hy Hc2). }
  assert (∀ j V, order !! j = Some V → m1 !! V = m2 !! V) as Hnodes.
  { intros j. induction (lt_wf j) as [j _ IH]. intros V Hj.
    destruct (decide (V ∈ dom c)) as [HVc|HVc]; [auto|].
    assert (V ∈ NX.nodes (graph N)) as HV.
    { rewrite <-Hperm. by eapply list_elem_of_lookup_2. }
    destruct (Hsol1 V HV HVc) as (x1 & Hx1 & ->).
    destruct (Hsol2 V HV HVc) as (x2 & Hx2 & ->).
    rewrite (structural_equation_reads N V m1 m2 Hreads) in Hx1; [congruence|].
    intros u Hu. destruct (Horder u V j Hu Hj) as (i & Hi & Hui). eauto. }
  apply map_eq. intros k.
  destruct (decide (k ∈ dom c)) as [Hkc|Hkc]; [auto|].
  destruct (decide (k ∈ NX.nodes (graph N))) as [Hk|Hk].
  - rewrite <-Hperm in Hk. apply list_elem_of_lookup in Hk as [j Hj]. eauto.
  - assert (k ∉ dom m1) as ->%not_elem_of_dom.
    { rewrite Hdom1, elem_of_union, elem_of_list_to_set. tauto. }
    assert (k ∉ dom m2) as ->%not_elem_of_dom; [|done].
    rewrite Hdom2, elem_of_union, elem_of_list_to_set. tauto.
Qed.

(** X24: the values of a setting are the solution of the model.  When
    the structural equations only read the values of the parents of
    their variable, the values of a setting that was built extend the
    context, lie in the declared domains, and give every endogenous
    variable the value that its override, or its structural equation
    applied to these very values, returns; and no other assignment of
    the variables of the graph does. *)
Theorem setting_unique_solution (N : CausalNetwork) (c : gmap string Z)
  (Dx Dy : gmap string (gset Z)) (S : CausalSetting) :
  CausalSetting_init N c Dx Dy = Ok S →
  reads_only_parents N →
  solution N c (values S)
  ∧ (∀ V D, (Dx ∪ Dy) !! V = Some D → ∃ x, values S !! V = Some x ∧ x ∈ D)
  ∧ ∀ m, solution N c m → m = values S.
Proof.
  intros HS Hreads.
  pose proof HS as (Hc & HDx & HDy & d & Hd & HSeq)%CausalSetting_init_Ok.
  destruct (CausalSetting_init_domains _ _ _ _ _ HS) as [Hctx Hvals].
  pose proof (evaluate_solution N c d Hreads Hd) as Hsol.
  assert (values S = d ∪ c) as Hvalues by (by rewrite HSeq).
  rewrite Hvalues. split; [done|]. split.
  - intros V D [HD|[_ HD]]%lookup_union_Some_raw.
    + destruct (Hctx V D HD) as (x & Hx & HxD). exists x. split; [|done].
      destruct Hsol as [Hsub _]. by eapply lookup_weaken.
    + rewrite <-Hvalues. by apply Hvals.
  - intros m Hm.
    destruct (evaluate_Ok N c d Hd) as (Horder & _).
    by eapply solution_unique.
Qed.

Lemma setting_unique_solution_witness :
  solution Examples.chain Examples.chain_context
    (values Examples.chain_setting)
  ∧ ∀ m, solution Examples.chain Examples.chain_context m →
         m = values Examples.chain_setting.
Proof.
  destruct (setting_unique_solution Examples.chain Examples.chain_context
              Examples.chain_Dx Examples.chain_Dy Examples.chain_setting)
    as (Hsol & _ & Hunique).
  - apply chain_setting_init.
  - apply chain_reads_only_parents.
  - by split.
Defined.

(** ** Conjunctions of assignments *)

(** X25: [assignments2conjunction] turns a dict into the event that says
    the dict is factual.  It raises [AssertionError] on the empty dict;
    on any other dict it returns an event whose variables are the keys
    of the dict, which a setting entails exactly when its values extend
    the dict, and whose evaluation returns a Boolean in every setting
    that gives a value to each key. *)
Theorem assignments2conjunction_factual (X : gmap string Z) :
  (X = ∅ → assignments2conjunction X = Raise AssertionError)
  ∧ (X ≠ ∅ →
     ∃ conjunction,
       assignments2conjunction X = Ok conjunction
       ∧ Event_variables conjunction = dom X
       ∧ ∀ S, (Event_entailed_by conjunction S = Ok true ↔ X ⊆ values S)
              ∧ (dom X ⊆ dom (values S) →
                 ∃ b, Event_entailed_by conjunction S = Ok b)).
Proof.
  split; [intros ->; apply assignments2conjunction_empty|].
  intros HX.
  destruct (assignments2conjunction_Ok X HX) as (conjunction & Hconj & Hvars).
  exists conjunction. split; [done|]. split; [done|]. intros S. split.
  - pose proof (assignments2conjunction_true X S) as Htrue.
    rewrite Hconj in Htrue. simpl in Htrue. rewrite Htrue. naive_solver.
  - intros Hdom. apply Event_entailed_by_defined. by rewrite Hvars.
Qed.

Lemma assignments2conjunction_factual_witness :
  ∃ conjunction,
    assignments2conjunction {[ "A" := 1%Z ]} = Ok conjunction
    ∧ Event_variables conjunction = dom ({[ "A" := 1%Z ]} : gmap string Z).
Proof.
  destruct (assignments2conjunction_factual {[ "A" := 1%Z ]})
    as [_ (conjunction & Hconj & Hvars & _)].
  - apply (bool_decide_unpack _). by vm_compute.
  - by exists conjunction.
Defined.
